(** * sshpass: a shallow embedding of the prompt matcher, the password
      writer, the option parser and the supervising loop

    Two versions of the program are embedded, each from its own source
    file: [Naive] (sshpass/main.c, the first release) and [Trunk]
    (trunk/main.c, the signal-hardened release).

    Conventions of the embedding.
    - A C [int], [ssize_t] or [pid_t] is a [Z]; every counter of the
      modelled code stays far below 2^31 (a matcher state is bounded by the
      length of its phrase, a loop index by the size of a stack buffer), so
      no wrap-around is written out.
    - A [char] is a [byte]; a C string is the [list byte] of its characters
      before the terminating NUL, and reading it at its length gives NUL.
    - Calls into the C library and the kernel take their results from an
      oracle (a record of the values those calls return) and are logged in
      a trace of events, so that the absence of a fork or the number of
      calls of write_pass are statements about the trace.  A message is
      logged by its text up to the first conversion.
    - Where the source stores outside an array, C defines nothing from
      there on: the embedded function returns [None], the loop around it
      ends as [Loop_undefined] and the program as [Undefined].  The one
      place is [handleoutput] of trunk/main.c after a failed [read]. *)

From Equations Require Import Equations.
From Stdlib Require Import Strings.Byte Ascii String ZArith List Lia Bool.
Import ListNotations.
Local Open Scope Z_scope.

Unset Equations With Funext.

(** ** C strings and buffers *)

Definition NUL : byte := x00.
Definition newline : byte := x0a.

(** [s[i]] for a C string or a buffer [s].  Index [length s] of a C string
    holds the terminator; any other index outside the array is undefined
    behaviour in C and reads as NUL here. *)
Definition char_at (s : list byte) (i : Z) : byte :=
  if i <? 0 then NUL else nth (Z.to_nat i) s NUL.

(** A well-formed C string has no NUL among its characters. *)
Definition cstring (s : list byte) : Prop := Forall (fun c => c <> NUL) s.

Definition strlen (s : list byte) : Z := Z.of_nat (length s).

Definition bytes (s : string) : list byte := list_byte_of_string s.

(** ** enum program_return_codes (trunk/main.c) *)

Inductive program_return_codes : Set :=
| RETURN_NOERROR
| RETURN_INVALID_ARGUMENTS
| RETURN_CONFLICTING_ARGUMENTS
| RETURN_RUNTIME_ERROR
| RETURN_PARSE_ERRROR
| RETURN_INCORRECT_PASSWORD
| RETURN_HOST_KEY_UNKNOWN
| RETURN_HOST_KEY_CHANGED.

(** The enumerators carry no explicit values: C numbers them from 0 in the
    order of declaration. *)
Definition enumerators : list program_return_codes :=
  [ RETURN_NOERROR; RETURN_INVALID_ARGUMENTS; RETURN_CONFLICTING_ARGUMENTS;
    RETURN_RUNTIME_ERROR; RETURN_PARSE_ERRROR; RETURN_INCORRECT_PASSWORD;
    RETURN_HOST_KEY_UNKNOWN; RETURN_HOST_KEY_CHANGED ].

Definition rc_eqb (a b : program_return_codes) : bool :=
  match a, b with
  | RETURN_NOERROR, RETURN_NOERROR
  | RETURN_INVALID_ARGUMENTS, RETURN_INVALID_ARGUMENTS
  | RETURN_CONFLICTING_ARGUMENTS, RETURN_CONFLICTING_ARGUMENTS
  | RETURN_RUNTIME_ERROR, RETURN_RUNTIME_ERROR
  | RETURN_PARSE_ERRROR, RETURN_PARSE_ERRROR
  | RETURN_INCORRECT_PASSWORD, RETURN_INCORRECT_PASSWORD
  | RETURN_HOST_KEY_UNKNOWN, RETURN_HOST_KEY_UNKNOWN
  | RETURN_HOST_KEY_CHANGED, RETURN_HOST_KEY_CHANGED => true
  | _, _ => false
  end.

Fixpoint enum_index (l : list program_return_codes) (c : program_return_codes)
  : Z :=
  match l with
  | [] => 0
  | x :: rest => if rc_eqb x c then 0 else 1 + enum_index rest c
  end.

Definition code_of (c : program_return_codes) : Z :=
  enum_index enumerators c.

(** ** The environment: results of library and system calls, and the trace *)

(** What one call of [read] hands back: [numread] bytes, or -1. *)
Inductive read_result : Type :=
| ReadOk (data : list byte)
| ReadErr.

Definition numread_of (r : read_result) : Z :=
  match r with
  | ReadOk data => Z.of_nat (length data)
  | ReadErr => -1
  end.

Definition data_of (r : read_result) : list byte :=
  match r with
  | ReadOk data => data
  | ReadErr => []
  end.

Inductive event : Type :=
| Ev_stdout (text : string)
| Ev_stderr (text : string)
| Ev_openpt
| Ev_grantpt
| Ev_unlockpt
| Ev_set_winsize
| Ev_fork
| Ev_exec
| Ev_select
| Ev_waitpid (nohang : bool)
| Ev_close_master
| Ev_close_slave
| Ev_read (count : Z)
| Ev_write (data : list byte)
| Ev_match (slot : nat)   (* a call of match for the static state1/2/3 *)
| Ev_show_help
| Ev_write_pass.

Definition trace := list event.

Definition is_fork (e : event) : bool :=
  match e with Ev_fork => true | _ => false end.

Definition is_write_pass (e : event) : bool :=
  match e with Ev_write_pass => true | _ => false end.

Definition is_match_of (slot : nat) (e : event) : bool :=
  match e with
  | Ev_match n => Nat.eqb n slot
  | _ => false
  end.

Definition count_events (p : event -> bool) (tr : trace) : nat :=
  length (filter p tr).

(** How a process image ends, as far as the model follows it. *)
Inductive outcome : Type :=
| Returns (code : Z)   (* main returns [code] *)
| Exits (code : Z)     (* exit(code) was called *)
| Execs                (* the child replaced itself by the command *)
| Blocked              (* the oracle ran out while the loop was waiting *)
| Undefined.           (* a store went outside its array: C defines nothing *)

Definition exit_code (o : outcome) : option Z :=
  match o with
  | Returns c | Exits c => Some c
  | Execs | Blocked | Undefined => None
  end.

(** One turn of the supervising loop, as the kernel answers it: what
    [select]/[pselect] returns and whether the master descriptor is set, what
    the following [read] on the master hands back, and what [waitpid] returns
    and stores. *)
Record turn : Type := {
  t_selret : Z;
  t_isset : bool;
  t_read : read_result;
  t_wait_id : Z;
  t_status : Z
}.

(** [waitpid] stores a status only when it reports a child. *)
Definition waitpid_status (status : Z) (t : turn) : Z :=
  if 0 <? t_wait_id t then t_status t else status.

(** The far end of a destination descriptor: the results the coming [write]
    calls will return (a full write once the list is used up), the bytes
    that arrived, and the calls made so far. *)
Record fdio : Type := {
  wr_results : list Z;
  received : list byte;
  calls : trace
}.

Definition fdio_init (results : list Z) : fdio :=
  {| wr_results := results; received := []; calls := [] |}.

Definition log (e : event) (d : fdio) : fdio :=
  {| wr_results := wr_results d; received := received d;
     calls := calls d ++ [e] |}.

(** [write(fd, data, size)] with [size = length data]. *)
Definition sys_write (d : fdio) (data : list byte) : Z * fdio :=
  match wr_results d with
  | [] =>
      (Z.of_nat (length data),
       {| wr_results := []; received := received d ++ data;
          calls := calls d ++ [Ev_write data] |})
  | r :: rest =>
      (r,
       {| wr_results := rest;
          received := received d ++ firstn (Z.to_nat r) data;
          calls := calls d ++ [Ev_write data] |})
  end.

(** A destination accepts every byte when each of its single-byte writes
    returns 1. *)
Definition accepts_all (d : fdio) : Prop := Forall (fun r => r = 1) (wr_results d).

(** What is taken from headers that are not part of the repository:
    config.h ([PASSWORD_PROMPT]), <sys/wait.h> (the status macros) and
    <stdlib.h> ([atoi]). *)
Class Platform : Type := {
  PASSWORD_PROMPT : list byte;
  WIFEXITED : Z -> bool;
  WEXITSTATUS : Z -> Z;
  WIFSIGNALED : Z -> bool;
  atoi : string -> Z
}.

(** ** The first release: sshpass/main.c *)

Module Naive.

Inductive pwtype_t : Set := PWT_STDIN | PWT_FILE | PWT_FD | PWT_PASS.

(** The union [pwsrc], by the member written last; [getenv] may have
    returned NULL for the password. *)
Inductive pwsrc_t : Type :=
| Pwsrc_filename (filename : string)
| Pwsrc_fd (fd : Z)
| Pwsrc_password (password : option string).

(** The global [args]. *)
Record args_t : Type := {
  pwtype : pwtype_t;
  pwsrc : pwsrc_t
}.

Definition pwtype_eqb (a b : pwtype_t) : bool :=
  match a, b with
  | PWT_STDIN, PWT_STDIN | PWT_FILE, PWT_FILE
  | PWT_FD, PWT_FD | PWT_PASS, PWT_PASS => true
  | _, _ => false
  end.

(** The body of the [for] loop of [match]. *)
Definition loop_body (reference buffer : list byte) (i state : Z) : Z :=
  if Byte.eqb (char_at reference state) (char_at buffer i) then state + 1
  else
    let state := 0 in
    if Byte.eqb (char_at reference state) (char_at buffer i) then state + 1
    else state.

(** [for( i=0; reference[state]!='\0' && i<bufsize; ++i )], entered with
    the current [i] and [state]; the result is the pair of both when the
    loop is left. *)
Equations? match_loop (reference buffer : list byte) (bufsize i state : Z)
  : Z * Z by wf (Z.to_nat (bufsize - i)) lt :=
  match_loop reference buffer bufsize i state
    with Byte.eqb (char_at reference state) NUL := {
    | true := (i, state);
    | false with Z_lt_dec i bufsize := {
      | left _ := match_loop reference buffer bufsize (i + 1)
                    (loop_body reference buffer i state);
      | right _ := (i, state) } }.
Proof. lia. Qed.

(** [match] ([match] is a keyword here, hence the underscore). *)
Definition match_ (reference buffer : list byte) (bufsize state : Z) : Z :=
  snd (match_loop reference buffer bufsize 0 state).

(** The [for] loop of [write_pass_fd] over the [numread] bytes just read. *)
Fixpoint copy_bytes (buffer : list byte) (done : bool) (d : fdio)
  : bool * fdio :=
  match buffer with
  | [] => (done, d)
  | c :: rest =>
      if done then (done, d)
      else if negb (Byte.eqb c newline)
           then copy_bytes rest done (snd (sys_write d [c]))
           else copy_bytes rest true d
  end.

(** The [while( !done )] loop of [write_pass_fd]; [src] lists what the
    coming [read( srcfd, buffer, sizeof(buffer) )] calls return, and a
    used-up list is end of input ([read] returns 0). *)
Fixpoint write_pass_fd_loop (src : list read_result) (d : fdio)
  : list read_result * fdio :=
  let d := log (Ev_read 40) d in
  match src with
  | [] => ([], d)
  | r :: rest =>
      let numread := numread_of r in
      let done := numread <? 1 in
      let '(done, d) := copy_bytes (data_of r) done d in
      if done then (rest, d) else write_pass_fd_loop rest d
  end.

Definition write_pass_fd (src : list read_result) (d : fdio)
  : list read_result * fdio :=
  let '(src, d) := write_pass_fd_loop src d in
  (src, snd (sys_write d [newline])).

Definition compare : list byte := bytes "Password: ".

(** [handleoutput]: the static [state] is passed in and out; [rd] is what
    [read(fd, buffer, sizeof(buffer))] returns. *)
Definition handleoutput (state : Z) (rd : read_result) : Z * trace :=
  let numread := numread_of rd in
  let state := match_ compare (data_of rd) numread state in
  if Byte.eqb (char_at compare state) NUL
  then (0, [Ev_read 40; Ev_match 1%nat; Ev_write_pass])
  else (state, [Ev_read 40; Ev_match 1%nat]).

(** What the calls of [runprogram] return. *)
Record os : Type := {
  os_getpt : Z;
  os_grantpt : Z;
  os_unlockpt : Z;
  os_fork : Z;
  os_errno : Z;        (* errno after a failed execvp *)
  os_execvp_fails : bool;
  os_status : Z;       (* the value the uninitialised [status] starts with *)
  os_turns : list turn
}.

Section WithPlatform.
Context {P : Platform}.

(** The [do ... while( !WIFEXITED( status ) )] loop of the parent. *)
Fixpoint parent_loop (turns : list turn) (state status : Z) (tr : trace)
  : outcome * trace :=
  match turns with
  | [] => (Blocked, tr)
  | t :: rest =>
      let tr := tr ++ [Ev_select] in
      let '(state, tr) :=
        if (0 <? t_selret t) && t_isset t
        then let '(state, evs) := handleoutput state (t_read t) in
             (state, tr ++ evs)
        else (state, tr) in
      let tr := tr ++ [Ev_waitpid true] in
      let status := waitpid_status status t in
      if negb (WIFEXITED status)
      then parent_loop rest state status tr
      else (Returns 0, tr)
  end.

Definition runprogram (o : os) : outcome * trace :=
  let tr := [Ev_openpt] in
  if os_getpt o =? -1 then
    (Returns 1, tr ++ [Ev_stderr "Failed to get a pseudo terminal"])
  else
  let tr := tr ++ [Ev_grantpt] in
  if negb (os_grantpt o =? 0) then
    (Returns 1,
     tr ++ [Ev_stderr "Failed to change pseudo terminal's permission"])
  else
  let tr := tr ++ [Ev_unlockpt] in
  if negb (os_unlockpt o =? 0) then
    (Returns 1, tr ++ [Ev_stderr "Failed to unlock pseudo terminal"])
  else
  let tr := tr ++ [Ev_fork] in
  let childpid := os_fork o in
  if childpid =? 0 then
    let tr := tr ++ [Ev_close_master; Ev_exec] in
    if os_execvp_fails o then (Exits (os_errno o), tr) else (Execs, tr)
  else if 0 <? childpid then
    parent_loop (os_turns o) 0 (os_status o) tr
  else (Returns 0, tr).

(** What [getopt] and [getenv] answer for one command line: the values of
    [opt] and [optarg] at the successive returns of [getopt] before it
    returns -1, and [optind] at that point. *)
Record cmdline : Type := {
  argc : Z;
  getopt_seq : list (ascii * string);
  optind : Z;
  getenv_SSHPASS : option string
}.

(** The macro [VIRGIN_PWTYPE]. *)
Definition VIRGIN_PWTYPE (a : args_t) (error : Z) (tr : trace) : Z * trace :=
  if negb (pwtype_eqb (pwtype a) PWT_STDIN)
  then (-3, tr ++ [Ev_stderr "Conflicting password source"])
  else (error, tr).

(** The body of the [switch] for one option. *)
Definition parse_switch (c : cmdline) (opt : ascii) (optarg : string)
  (a : args_t) (error : Z) (tr : trace) : args_t * Z * trace :=
  if Ascii.eqb opt "f" then
    let '(error, tr) := VIRGIN_PWTYPE a error tr in
    ({| pwtype := PWT_FILE; pwsrc := Pwsrc_filename optarg |}, error, tr)
  else if Ascii.eqb opt "d" then
    let '(error, tr) := VIRGIN_PWTYPE a error tr in
    ({| pwtype := PWT_FD; pwsrc := Pwsrc_fd (atoi optarg) |}, error, tr)
  else if Ascii.eqb opt "p" then
    let '(error, tr) := VIRGIN_PWTYPE a error tr in
    ({| pwtype := PWT_PASS; pwsrc := Pwsrc_password (Some optarg) |},
     error, tr)
  else if Ascii.eqb opt "e" then
    let '(error, tr) := VIRGIN_PWTYPE a error tr in
    ({| pwtype := PWT_PASS; pwsrc := Pwsrc_password (getenv_SSHPASS c) |},
     error, tr)
  else if Ascii.eqb opt "?" || Ascii.eqb opt ":" then (a, -2, tr)
  else if Ascii.eqb opt "h" then (a, -1, tr)
  else (a, error, tr).

(** The [while] loop of [parse_options] and the [return]s after it. *)
Fixpoint parse_loop (c : cmdline) (opts : list (ascii * string))
  (a : args_t) (error : Z) (tr : trace) : Z * args_t * trace :=
  match opts with
  | [] => (if error =? 0 then optind c else error, a, tr)
  | (opt, optarg) :: rest =>
      if negb (error =? 0) then (if error =? 0 then optind c else error, a, tr)
      else
        let '(a, error, tr) := parse_switch c opt optarg a error tr in
        parse_loop c rest a error tr
  end.

Definition parse_options (c : cmdline) : Z * args_t * trace :=
  parse_loop c (getopt_seq c) {| pwtype := PWT_STDIN; pwsrc := Pwsrc_fd 0 |}
    0 [].

Definition main (c : cmdline) (o : os) : outcome * trace :=
  let '(opt_offset, a, tr) := parse_options c in
  if opt_offset <? 0 then
    let tr := tr ++ [Ev_show_help] in
    if opt_offset =? -1 then (Returns 0, tr) else (Returns (- opt_offset), tr)
  else
    let '(out, tr') := runprogram o in
    (out, tr ++ tr').

End WithPlatform.
End Naive.

(** ** The signal-hardened release: trunk/main.c *)

Module Trunk.

Inductive pwtype_t : Set := PWT_STDIN | PWT_FILE | PWT_FD | PWT_PASS.

(** The union [pwsrc], by the member written last. *)
Inductive pwsrc_t : Type :=
| Pwsrc_filename (filename : string)
| Pwsrc_fd (fd : Z)
| Pwsrc_password (password : string).

(** The global [args]; a NULL pointer is [None]. *)
Record args_t : Type := {
  pwtype : pwtype_t;
  pwsrc : pwsrc_t;
  pwprompt : option string;
  verbose : Z;
  orig_password : option string
}.

(** Static storage is zero-initialised. *)
Definition args_zero : args_t :=
  {| pwtype := PWT_STDIN; pwsrc := Pwsrc_fd 0; pwprompt := None;
     verbose := 0; orig_password := None |}.

Definition pwtype_eqb (a b : pwtype_t) : bool :=
  match a, b with
  | PWT_STDIN, PWT_STDIN | PWT_FILE, PWT_FILE
  | PWT_FD, PWT_FD | PWT_PASS, PWT_PASS => true
  | _, _ => false
  end.

(** The body of the [for] loop of [match]. *)
Definition loop_body (reference buffer : list byte) (i state : Z) : Z :=
  if Byte.eqb (char_at reference state) (char_at buffer i) then state + 1
  else
    let state := 0 in
    if Byte.eqb (char_at reference state) (char_at buffer i) then state + 1
    else state.

(** [for( i=0; reference[state]!='\0' && i<bufsize; ++i )], entered with
    the current [i] and [state]; the result is the pair of both when the
    loop is left. *)
Equations? match_loop (reference buffer : list byte) (bufsize i state : Z)
  : Z * Z by wf (Z.to_nat (bufsize - i)) lt :=
  match_loop reference buffer bufsize i state
    with Byte.eqb (char_at reference state) NUL := {
    | true := (i, state);
    | false with Z_lt_dec i bufsize := {
      | left _ := match_loop reference buffer bufsize (i + 1)
                    (loop_body reference buffer i state);
      | right _ := (i, state) } }.
Proof. lia. Qed.

(** [match] ([match] is a keyword here, hence the underscore). *)
Definition match_ (reference buffer : list byte) (bufsize state : Z) : Z :=
  snd (match_loop reference buffer bufsize 0 state).

(** [reliable_write( fd, data, size )] with [size = length data]. *)
Definition reliable_write (d : fdio) (data : list byte) : fdio :=
  let size := Z.of_nat (length data) in
  let '(result, d) := sys_write d data in
  if negb (result =? size) then
    if result <? 0 then log (Ev_stderr "SSHPASS: write failed") d
    else log (Ev_stderr "SSHPASS: Short write. Tried to write ") d
  else d.

(** The [for] loop of [write_pass_fd] over the [numread] bytes just read. *)
Fixpoint copy_bytes (buffer : list byte) (done : bool) (d : fdio)
  : bool * fdio :=
  match buffer with
  | [] => (done, d)
  | c :: rest =>
      if done then (done, d)
      else if negb (Byte.eqb c newline)
           then copy_bytes rest done (reliable_write d [c])
           else copy_bytes rest true d
  end.

(** The [while( !done )] loop of [write_pass_fd]; [src] lists what the
    coming [read( srcfd, buffer, sizeof(buffer) )] calls return, and a
    used-up list is end of input ([read] returns 0). *)
Fixpoint write_pass_fd_loop (src : list read_result) (d : fdio)
  : list read_result * fdio :=
  let d := log (Ev_read 40) d in
  match src with
  | [] => ([], d)
  | r :: rest =>
      let numread := numread_of r in
      let done := numread <? 1 in
      let '(done, d) := copy_bytes (data_of r) done d in
      if done then (rest, d) else write_pass_fd_loop rest d
  end.

Definition write_pass_fd (src : list read_result) (d : fdio)
  : list read_result * fdio :=
  let '(src, d) := write_pass_fd_loop src d in
  (src, reliable_write d [newline]).

(** What the descriptors the password can come from will return: the
    coming reads of each open descriptor ([STDIN_FILENO] is 0), and for a
    file name the reads of the file when [open] succeeds on it. *)
Record pwio : Type := {
  fd_reads : Z -> list read_result;
  file_reads : string -> option (list read_result)
}.

Definition set_fd_reads (w : pwio) (fd : Z) (src : list read_result)
  : pwio :=
  {| fd_reads := fun n => if n =? fd then src else fd_reads w n;
     file_reads := file_reads w |}.

(** [write_pass]: the reads left on the descriptors and the destination
    afterwards.  Reading a member of the union [pwsrc] that was not the one
    written is undefined in C; those arms do nothing here, and the option
    scan is shown never to lead to them. *)
Definition write_pass (a : args_t) (w : pwio) (d : fdio) : pwio * fdio :=
  match pwtype a with
  | PWT_STDIN =>
      let '(src, d) := write_pass_fd (fd_reads w 0) d in
      (set_fd_reads w 0 src, d)
  | PWT_FD =>
      match pwsrc a with
      | Pwsrc_fd fd =>
          let '(src, d) := write_pass_fd (fd_reads w fd) d in
          (set_fd_reads w fd src, d)
      | _ => (w, d)
      end
  | PWT_FILE =>
      match pwsrc a with
      | Pwsrc_filename filename =>
          match file_reads w filename with
          | Some src =>
              let '(_, d) := write_pass_fd src d in
              (w, d)
          | None =>
              (w, log (Ev_stderr "SSHPASS: Failed to open password file ") d)
          end
      | _ => (w, d)
      end
  | PWT_PASS =>
      match pwsrc a with
      | Pwsrc_password password =>
          (w, reliable_write (reliable_write d (bytes password)) [newline])
      | _ => (w, d)
      end
  end.

(** The static variables of [handleoutput]. *)
Record statics : Type := {
  prevmatch : Z;
  state1 : Z;
  state2 : Z;
  state3 : Z;
  firsttime : Z
}.

Definition statics_init : statics :=
  {| prevmatch := 0; state1 := 0; state2 := 0; state3 := 0; firsttime := 1 |}.

Definition compare2 : list byte := bytes "The authenticity of host ".
Definition compare3 : list byte :=
  bytes "differs from the key for the IP address".

Definition when (c : bool) (evs : trace) : trace := if c then evs else [].

Section WithPlatform.
Context {P : Platform}.

(** [compare1] after [if( args.pwprompt ) compare1 = args.pwprompt;]. *)
Definition compare1 (a : args_t) : list byte :=
  match pwprompt a with
  | Some prompt => bytes prompt
  | None => PASSWORD_PROMPT
  end.

(** [handleoutput]: the statics are passed in and out, [rd] is what
    [read(fd, buffer, sizeof(buffer)-1)] returns; the result is [ret], the
    statics and the events of the call.  The store [buffer[numread] = '\0']
    is not guarded: after a failed [read] it goes to [buffer[-1]], outside
    the array, and C gives the call no behaviour from there on; the result
    is [None] then.  A [read] that succeeds returns at most the 255 bytes
    asked for, and the store stays inside [buffer]. *)
Definition handleoutput (a : args_t) (st : statics) (rd : read_result)
  : option (Z * statics * trace) :=
  let compare1 := compare1 a in
  let is_verbose := negb (verbose a =? 0) in
  let first := is_verbose && negb (firsttime st =? 0) in
  let firsttime' := if first then 0 else firsttime st in
  let tr :=
    when first
      [Ev_stderr "SSHPASS: searching for password prompt using match "] in
  let tr := tr ++ [Ev_read 255] in
  let numread := numread_of rd in
  if numread <? 0 then None else
  let buffer := data_of rd ++ [NUL] in
  let tr := tr ++ when is_verbose [Ev_stderr "SSHPASS: read: "] in
  let state1' := match_ compare1 buffer numread (state1 st) in
  let tr := tr ++ [Ev_match 1%nat] in
  let '(ret, state1', prevmatch', tr) :=
    if Byte.eqb (char_at compare1 state1') NUL then
      if prevmatch st =? 0 then
        (0, 0, 1,
         tr ++ when is_verbose
                 [Ev_stderr "SSHPASS: detected prompt. Sending password."]
            ++ [Ev_write_pass])
      else
        (code_of RETURN_INCORRECT_PASSWORD, state1', prevmatch st,
         tr ++ when is_verbose
                 [Ev_stderr
                    "SSHPASS: detected prompt, again. Wrong password. Terminating."])
    else (0, state1', prevmatch st, tr) in
  if ret =? 0 then
    let state2' := match_ compare2 buffer numread (state2 st) in
    let tr := tr ++ [Ev_match 2%nat] in
    if Byte.eqb (char_at compare2 state2') NUL then
      Some (code_of RETURN_HOST_KEY_UNKNOWN,
            {| prevmatch := prevmatch'; state1 := state1';
               state2 := state2'; state3 := state3 st;
               firsttime := firsttime' |},
            tr ++ when is_verbose
                    [Ev_stderr
                       "SSHPASS: detected host authentication prompt. Exiting."])
    else
      let state3' := match_ compare3 buffer numread (state3 st) in
      let tr := tr ++ [Ev_match 3%nat] in
      let ret :=
        if Byte.eqb (char_at compare3 state3') NUL
        then code_of RETURN_HOST_KEY_CHANGED else ret in
      Some (ret,
            {| prevmatch := prevmatch'; state1 := state1';
               state2 := state2'; state3 := state3';
               firsttime := firsttime' |},
            tr)
  else
    Some (ret,
          {| prevmatch := prevmatch'; state1 := state1'; state2 := state2 st;
             state3 := state3 st; firsttime := firsttime' |},
          tr).

(** What [getopt] and [getenv] answer for one command line: the values of
    [opt] and [optarg] at the successive returns of [getopt] before it
    returns -1, and [optind] at that point. *)
Record cmdline : Type := {
  argc : Z;
  getopt_seq : list (ascii * string);
  optind : Z;
  getenv_SSHPASS : option string
}.

(** The macro [VIRGIN_PWTYPE]. *)
Definition VIRGIN_PWTYPE (a : args_t) (error : Z) (tr : trace) : Z * trace :=
  if negb (pwtype_eqb (pwtype a) PWT_STDIN)
  then (code_of RETURN_CONFLICTING_ARGUMENTS,
        tr ++ [Ev_stderr "Conflicting password source"])
  else (error, tr).

(** [parse_options] either returns a value or leaves through [exit]. *)
Inductive parsed : Type :=
| Parsed (ret : Z)
| Exited (code : Z).

(** The two [return]s that end [parse_options]. *)
Definition parse_return (c : cmdline) (error : Z) : Z :=
  if 0 <=? error then - (error + 1) else optind c.

(** The body of the [switch] for one option. *)
Definition parse_switch (c : cmdline) (opt : ascii) (optarg : string)
  (a : args_t) (error : Z) (tr : trace) : option (args_t * Z * trace) :=
  if Ascii.eqb opt "f" then
    let '(error, tr) := VIRGIN_PWTYPE a error tr in
    Some ({| pwtype := PWT_FILE; pwsrc := Pwsrc_filename optarg;
             pwprompt := pwprompt a; verbose := verbose a;
             orig_password := orig_password a |}, error, tr)
  else if Ascii.eqb opt "d" then
    let '(error, tr) := VIRGIN_PWTYPE a error tr in
    Some ({| pwtype := PWT_FD; pwsrc := Pwsrc_fd (atoi optarg);
             pwprompt := pwprompt a; verbose := verbose a;
             orig_password := orig_password a |}, error, tr)
  else if Ascii.eqb opt "p" then
    let '(error, tr) := VIRGIN_PWTYPE a error tr in
    Some ({| pwtype := PWT_PASS; pwsrc := pwsrc a;
             pwprompt := pwprompt a; verbose := verbose a;
             orig_password := Some optarg |}, error, tr)
  else if Ascii.eqb opt "P" then
    Some ({| pwtype := pwtype a; pwsrc := pwsrc a;
             pwprompt := Some optarg; verbose := verbose a;
             orig_password := orig_password a |}, error, tr)
  else if Ascii.eqb opt "v" then
    Some ({| pwtype := pwtype a; pwsrc := pwsrc a;
             pwprompt := pwprompt a; verbose := verbose a + 1;
             orig_password := orig_password a |}, error, tr)
  else if Ascii.eqb opt "e" then
    let '(error, tr) := VIRGIN_PWTYPE a error tr in
    let a := {| pwtype := PWT_PASS; pwsrc := pwsrc a;
                pwprompt := pwprompt a; verbose := verbose a;
                orig_password := getenv_SSHPASS c |} in
    match orig_password a with
    | None =>
        Some (a, code_of RETURN_INVALID_ARGUMENTS,
              tr ++ [Ev_stderr
                "SSHPASS: -e option given but SSHPASS environment variable not set"])
    | Some _ => Some (a, error, tr)
    end
  else if Ascii.eqb opt "?" || Ascii.eqb opt ":" then
    Some (a, code_of RETURN_INVALID_ARGUMENTS, tr)
  else if Ascii.eqb opt "h" then
    Some (a, code_of RETURN_NOERROR, tr)
  else if Ascii.eqb opt "V" then
    None
  else Some (a, error, tr).

(** The [while] loop of [parse_options] over what [getopt] still has to
    return. *)
Fixpoint parse_loop (c : cmdline) (opts : list (ascii * string))
  (a : args_t) (error : Z) (tr : trace) : parsed * args_t * trace :=
  match opts with
  | [] => (Parsed (parse_return c error), a, tr)
  | (opt, optarg) :: rest =>
      if negb (error =? -1) then (Parsed (parse_return c error), a, tr)
      else
        match parse_switch c opt optarg a error tr with
        | None => (Exited 0, a, tr ++ [Ev_stdout "version"])
        | Some (a, error, tr) => parse_loop c rest a error tr
        end
  end.

Definition parse_options (c : cmdline) : parsed * args_t * trace :=
  let a := {| pwtype := PWT_STDIN; pwsrc := Pwsrc_fd 0;
              pwprompt := pwprompt args_zero; verbose := verbose args_zero;
              orig_password := orig_password args_zero |} in
  parse_loop c (getopt_seq c) a (-1) [].

(** What the calls of [runprogram] return; [os_tiocsctty] is [None] where
    the platform does not define [TIOCSCTTY]. *)
Record os : Type := {
  os_posix_openpt : Z;
  os_grantpt : Z;
  os_unlockpt : Z;
  os_open_tty : Z;
  os_ioctl_gwinsz : Z;
  os_fork : Z;
  os_tiocsctty : option Z;
  os_execvp_fails : bool;
  os_turns : list turn
}.

(** The branch [if( !terminate ) { ... } else { ... }] of one turn of the
    loop, up to the call of [waitpid]: the statics, [terminate] and the
    events of the turn; [None] when the call of [handleoutput] is not
    defined. *)
Definition loop_turn (a : args_t) (t : turn) (st : statics) (terminate : Z)
  : option (statics * Z * trace) :=
  if terminate =? 0 then
    let tr := [Ev_select] in
    let branch :=
      if 0 <? t_selret t then
        if t_isset t then
          match handleoutput a st (t_read t) with
          | Some (ret, st, evs) =>
              let tr := tr ++ evs in
              if negb (ret =? 0) then
                let tr :=
                  if 0 <? ret then tr ++ [Ev_close_master; Ev_close_slave]
                  else tr in
                let terminate := ret in
                let tr :=
                  if negb (terminate =? 0) then tr ++ [Ev_close_slave]
                  else tr in
                Some (st, terminate, tr)
              else Some (st, terminate, tr)
          | None => None
          end
        else Some (st, terminate, tr)
      else Some (st, terminate, tr) in
    match branch with
    | Some (st, terminate, tr) => Some (st, terminate, tr ++ [Ev_waitpid true])
    | None => None
    end
  else Some (st, terminate, [Ev_waitpid false]).

(** How the [do ... while] loop of the parent ends: it is left, with the
    values [terminate] and [status] have then; or the turns of the oracle
    run out while it goes on; or a turn is not defined. *)
Inductive loop_end : Type :=
| Loop_left (terminate status : Z)
| Loop_waiting
| Loop_undefined.

(** The [do ... while] loop of the parent: how it ends, and the events of
    its turns. *)
Fixpoint parent_loop (a : args_t) (turns : list turn) (st : statics)
  (status terminate : Z) : loop_end * trace :=
  match turns with
  | [] => (Loop_waiting, [])
  | t :: rest =>
      match loop_turn a t st terminate with
      | Some (st, terminate, evs) =>
          let wait_id := t_wait_id t in
          let status := waitpid_status status t in
          if (wait_id =? 0)
             || (negb (WIFEXITED status) && negb (WIFSIGNALED status))
          then
            let '(final, tr) := parent_loop a rest st status terminate in
            (final, evs ++ tr)
          else (Loop_left terminate status, evs)
      | None => (Loop_undefined, [])
      end
  end.

(** The three [return]s that end [runprogram]. *)
Definition runprogram_return (terminate status : Z) : Z :=
  if 0 <? terminate then terminate
  else if WIFEXITED status then WEXITSTATUS status
  else 255.

Definition runprogram (a : args_t) (o : os) : outcome * trace :=
  let tr := [Ev_openpt] in
  if os_posix_openpt o =? -1 then
    (Returns (code_of RETURN_RUNTIME_ERROR),
     tr ++ [Ev_stderr "Failed to get a pseudo terminal"])
  else
  let tr := tr ++ [Ev_grantpt] in
  if negb (os_grantpt o =? 0) then
    (Returns (code_of RETURN_RUNTIME_ERROR),
     tr ++ [Ev_stderr "Failed to change pseudo terminal's permission"])
  else
  let tr := tr ++ [Ev_unlockpt] in
  if negb (os_unlockpt o =? 0) then
    (Returns (code_of RETURN_RUNTIME_ERROR),
     tr ++ [Ev_stderr "Failed to unlock pseudo terminal"])
  else
  let tr :=
    if negb (os_open_tty o =? -1) && (os_ioctl_gwinsz o =? 0)
    then tr ++ [Ev_set_winsize] else tr in
  let tr := tr ++ [Ev_fork] in
  let childpid := os_fork o in
  if childpid =? 0 then
    let sctty_failed :=
      match os_tiocsctty o with
      | Some r => r =? -1
      | None => false
      end in
    if sctty_failed then
      (Exits (code_of RETURN_RUNTIME_ERROR),
       tr ++ [Ev_stderr
         "sshpass: Failed to set controlling terminal in child (TIOCSCTTY)"])
    else
      let tr := tr ++ [Ev_close_slave; Ev_close_master; Ev_exec] in
      if os_execvp_fails o then
        (Exits (code_of RETURN_RUNTIME_ERROR),
         tr ++ [Ev_stderr "SSHPASS: Failed to run command"])
      else (Execs, tr)
  else if childpid <? 0 then
    (Returns (code_of RETURN_RUNTIME_ERROR),
     tr ++ [Ev_stderr "SSHPASS: Failed to create child process"])
  else
    match parent_loop a (os_turns o) statics_init 0 0 with
    | (Loop_left terminate status, tr') =>
        (Returns (runprogram_return terminate status), tr ++ tr')
    | (Loop_waiting, tr') => (Blocked, tr ++ tr')
    | (Loop_undefined, tr') => (Undefined, tr ++ tr')
    end.

(** [if( args.orig_password!=NULL ) args.pwsrc.password = strdup(...)];
    the loop that overwrites the password with 'x' leaves
    [args.orig_password] at the terminating NUL, an empty string; the
    bytes it overwrites in [argv] or the environment are not read again
    and are not modelled. *)
Definition strdup_password (a : args_t) : args_t :=
  match orig_password a with
  | Some password =>
      {| pwtype := pwtype a; pwsrc := Pwsrc_password password;
         pwprompt := pwprompt a; verbose := verbose a;
         orig_password := Some EmptyString |}
  | None => a
  end.

Definition main (c : cmdline) (o : os) : outcome * trace :=
  let '(r, a, tr) := parse_options c in
  match r with
  | Exited code => (Exits code, tr)
  | Parsed opt_offset =>
      if opt_offset <? 0 then
        (Returns (- (opt_offset + 1)), tr ++ [Ev_show_help])
      else if argc c - opt_offset <? 1 then
        (Returns 0, tr ++ [Ev_show_help])
      else
        let a := strdup_password a in
        let '(out, tr') := runprogram a o in
        (out, tr ++ tr')
  end.

End WithPlatform.
End Trunk.

(** ** Feeding a stream to [match] in chunks *)

(** One call of [match] on a whole chunk, as [handleoutput] makes it: the
    first component counts the bytes of the stream the loop has stepped
    over so far (the logical position), the second is the matcher state. *)
Definition feed (reference : list byte) (ps : Z * Z) (chunk : list byte)
  : Z * Z :=
  let '(i, state) :=
    Trunk.match_loop reference chunk (strlen chunk) 0 (snd ps) in
  (fst ps + i, state).

Definition feed_chunks (reference : list byte) (chunks : list (list byte))
  (ps : Z * Z) : Z * Z :=
  fold_left (feed reference) chunks ps.

(** [reference[state]=='\0']: how the callers test for a full match. *)
Definition complete (reference : list byte) (state : Z) : bool :=
  Byte.eqb (char_at reference state) NUL.

(** The loop of [match] as a recursion over the bytes it reads: the number
    of bytes stepped over and the state reached. *)
Definition advance (reference : list byte) (state : Z) (c : byte) : Z :=
  if Byte.eqb (char_at reference state) c then state + 1
  else if Byte.eqb (char_at reference 0) c then 1
  else 0.

Fixpoint scan (reference data : list byte) (state : Z) : Z * Z :=
  match data with
  | [] => (0, state)
  | c :: rest =>
      if complete reference state then (0, state)
      else
        let '(n, s) := scan reference rest (advance reference state c) in
        (n + 1, s)
  end.

(** The phrase occurs in the stream as a contiguous run of bytes. *)
Definition contains (phrase stream : list byte) : Prop :=
  exists pre post, stream = pre ++ phrase ++ post.

Fixpoint prefixb (phrase stream : list byte) : bool :=
  match phrase, stream with
  | [], _ => true
  | _ :: _, [] => false
  | c :: phrase', d :: stream' => Byte.eqb c d && prefixb phrase' stream'
  end.

(** Where the first occurrence of the phrase starts. *)
Fixpoint find_first (phrase stream : list byte) : option nat :=
  if prefixb phrase stream then Some 0%nat
  else
    match stream with
    | [] => None
    | _ :: stream' => option_map S (find_first phrase stream')
    end.

(** The first byte of the phrase does not occur in it again. *)
Definition first_byte_unique (phrase : list byte) : bool :=
  match phrase with
  | [] => true
  | c :: rest => negb (existsb (Byte.eqb c) rest)
  end.

(** ** The matcher in the words of the specification *)

Module Spec.

Definition isComplete (phraseText : list byte) (state : Z) : bool :=
  state =? Z.of_nat (length phraseText).

Definition matches (phraseText : list byte) (index : nat) (b : byte) : bool :=
  match nth_error phraseText index with
  | Some c => Byte.eqb b c
  | None => false
  end.

(** "If it matches phraseText[state], advance state by one; otherwise reset
    state to 0 and re-test the same byte against phraseText[0], advancing to
    1 if it matches." *)
Definition step (phraseText : list byte) (state : Z) (b : byte) : Z :=
  if matches phraseText (Z.to_nat state) b then state + 1
  else if matches phraseText 0 b then 1
  else 0.

(** [feed(phraseState, phraseText, chunk) -> newState], byte by byte, with
    no further advance once the phrase is complete. *)
Fixpoint feed (phraseState : Z) (phraseText chunk : list byte) : Z :=
  match chunk with
  | [] => phraseState
  | b :: rest =>
      if isComplete phraseText phraseState then phraseState
      else feed (step phraseText phraseState b) phraseText rest
  end.

End Spec.

(** ** An instance of the platform, for running the model

    glibc's status macros on Linux, the default prompt of the build
    system, and a decimal [atoi] without sign or leading blanks. *)

Definition digit_of (c : ascii) : option Z :=
  let n := Z.of_nat (nat_of_ascii c) in
  if (48 <=? n) && (n <=? 57) then Some (n - 48) else None.

Fixpoint atoi_from (acc : Z) (s : string) : Z :=
  match s with
  | EmptyString => acc
  | String c rest =>
      match digit_of c with
      | Some d => atoi_from (10 * acc + d) rest
      | None => acc
      end
  end.

Definition linux : Platform :=
  {| PASSWORD_PROMPT := bytes "assword";
     WIFEXITED := fun status => Z.land status 127 =? 0;
     WEXITSTATUS := fun status => Z.shiftr (Z.land status 65280) 8;
     WIFSIGNALED := fun status =>
       let t := Z.land status 127 in (0 <? t) && (t <? 127);
     atoi := atoi_from 0 |}.

(** ** What the properties are stated with *)

Definition ends_with (t p : list byte) : Prop := exists pre, t = pre ++ p.

Definition writes_of (tr : trace) : list (list byte) :=
  flat_map (fun e => match e with Ev_write data => [data] | _ => [] end) tr.

Definition read_counts (tr : trace) : list Z :=
  flat_map (fun e => match e with Ev_read n => [n] | _ => [] end) tr.

Definition no_newline (l : list byte) : Prop := Forall (fun c => c <> newline) l.

(** What the destination has after a run of single-byte writes. *)
Definition wrote (d d' : fdio) (l : list byte) : Prop :=
  writes_of (calls d') = writes_of (calls d) ++ map (fun b => [b]) l
  /\ read_counts (calls d') = read_counts (calls d)
  /\ (accepts_all d -> received d' = received d ++ l /\ accepts_all d').

(** The single-byte write of each release. *)
Definition naive_write1 (d : fdio) (c : byte) : fdio := snd (sys_write d [c]).
Definition trunk_write1 (d : fdio) (c : byte) : fdio :=
  Trunk.reliable_write d [c].

(** What [write_pass_fd] is claimed to do, for the destination [d'] it leaves
    behind when started on [d]: every [read] asks for the 40 bytes of the
    buffer, the writes are single bytes, namely [sent] and then one
    newline, and a destination that accepts every byte has received
    exactly that. *)
Definition sends (d d' : fdio) (sent : list byte) : Prop :=
  writes_of (calls d')
  = writes_of (calls d) ++ map (fun b => [b]) sent ++ [[newline]]
  /\ (exists m, read_counts (calls d')
                = read_counts (calls d) ++ repeat 40 (S m))
  /\ (accepts_all d -> received d' = received d ++ sent ++ [newline]).

Section Calls.
Context {P : Platform}.

(** Whether the call of [handleoutput] on [rd] finds the prompt complete:
    the test [compare1[state1]=='\0'] after [match]. *)
Definition full_match (a : Trunk.args_t) (st : Trunk.statics)
  (rd : read_result) : bool :=
  complete (Trunk.compare1 a)
    (Trunk.match_ (Trunk.compare1 a) (data_of rd ++ [NUL]) (numread_of rd)
       (Trunk.state1 st)).

(** The record of one call: the statics before and after, whether the
    prompt was complete, the value returned and the events. *)
Record call : Type := {
  c_before : Trunk.statics;
  c_full : bool;
  c_ret : Z;
  c_after : Trunk.statics;
  c_events : trace
}.

Definition call_of (a : Trunk.args_t) (st : Trunk.statics) (rd : read_result)
  : option call :=
  match Trunk.handleoutput a st rd with
  | Some (ret, st', tr) =>
      Some {| c_before := st; c_full := full_match a st rd; c_ret := ret;
              c_after := st'; c_events := tr |}
  | None => None
  end.

(** The calls of a run: [handleoutput] on the successive read batches, as
    far as the calls are defined, that is up to the first failed read. *)
Fixpoint handleoutput_calls (a : Trunk.args_t) (st : Trunk.statics)
  (batches : list read_result) : list call :=
  match batches with
  | [] => []
  | rd :: rest =>
      match call_of a st rd with
      | Some c => c :: handleoutput_calls a (c_after c) rest
      | None => []
      end
  end.

Definition events_of (calls : list call) : trace :=
  concat (map c_events calls).

(** The first value other than 0 among what the calls returned, and 0 when
    every call returned 0. *)
Definition first_outcome (calls : list call) : Z :=
  hd 0 (filter (fun ret => negb (ret =? 0)) (map c_ret calls)).

(** The test that ends a turn of the loop of [runprogram]:
    [wait_id==0 || (!WIFEXITED( status ) && !WIFSIGNALED( status ))], with
    the status [waitpid] has left. *)
Definition loop_goes_on (status : Z) (t : turn) : bool :=
  (t_wait_id t =? 0)
  || (negb (WIFEXITED (waitpid_status status t))
      && negb (WIFSIGNALED (waitpid_status status t))).

(** The turns the kernel answers until that test fails, and the status
    then; [None] when the turns run out first. *)
Fixpoint turns_taken (status : Z) (turns : list turn)
  : option (list turn * Z) :=
  match turns with
  | [] => None
  | t :: rest =>
      if loop_goes_on status t then
        match turns_taken (waitpid_status status t) rest with
        | Some (ts, final) => Some (t :: ts, final)
        | None => None
        end
      else Some ([t], waitpid_status status t)
  end.

(** The statics from which no call returns 0 any more. *)
Definition doomed (a : Trunk.args_t) (st : Trunk.statics) : Prop :=
  (complete (Trunk.compare1 a) (Trunk.state1 st) = true
   /\ Trunk.prevmatch st <> 0)
  \/ complete Trunk.compare2 (Trunk.state2 st) = true
  \/ complete Trunk.compare3 (Trunk.state3 st) = true.

End Calls.

(** The bytes of the successive reads, up to the first read that fails. *)
Fixpoint bytes_read (batches : list read_result) : list byte :=
  match batches with
  | ReadOk data :: rest => data ++ bytes_read rest
  | _ => []
  end.

(** The turns in which [select] reports the master descriptor, and what is
    read from it in them. *)
Definition selected (t : turn) : bool := (0 <? t_selret t) && t_isset t.

Definition reads_of (ts : list turn) : list read_result :=
  map t_read (filter selected ts).

Definition read_succeeds (rd : read_result) : Prop := rd <> ReadErr.

(** The options that name a password source. *)
Definition is_pwsource (opt : ascii) : bool :=
  Ascii.eqb opt "f" || Ascii.eqb opt "d" || Ascii.eqb opt "p"
  || Ascii.eqb opt "e".

(** The options at which the scan sets an error of its own or leaves the
    program: an unknown option or a missing argument, -h, -V, and -e while
    SSHPASS is not set. *)
Definition stops_scan (c : Trunk.cmdline) (opt : ascii) : bool :=
  Ascii.eqb opt "?" || Ascii.eqb opt ":" || Ascii.eqb opt "h"
  || Ascii.eqb opt "V"
  || (Ascii.eqb opt "e"
      && match Trunk.getenv_SSHPASS c with Some _ => false | None => true end).

Definition passes (c : Trunk.cmdline) (opts : list (ascii * string)) : bool :=
  forallb (fun x => negb (stops_scan c (fst x))) opts.

Definition has_stderr (text : string) (tr : trace) : bool :=
  existsb (fun e => match e with
                    | Ev_stderr t => String.eqb t text
                    | _ => false
                    end) tr.

Definition conflict_text : string := "Conflicting password source".

Definition scan_error (e : Z) : Prop := e = -1 \/ e = 0 \/ e = 1 \/ e = 2.

(** The set-up of the pseudo-terminal failed at one of its three steps. *)
Definition pty_fails (o : Trunk.os) : Prop :=
  Trunk.os_posix_openpt o = -1 \/ Trunk.os_grantpt o <> 0
  \/ Trunk.os_unlockpt o <> 0.

Definition naive_pty_fails (o : Naive.os) : Prop :=
  Naive.os_getpt o = -1 \/ Naive.os_grantpt o <> 0
  \/ Naive.os_unlockpt o <> 0.

(** What [handleoutput] can return, and so what [terminate] can hold. *)
Definition terminal (t : Z) : Prop :=
  t = 0 \/ t = code_of RETURN_INCORRECT_PASSWORD
  \/ t = code_of RETURN_HOST_KEY_UNKNOWN \/ t = code_of RETURN_HOST_KEY_CHANGED.

(** The pseudo-terminal was set up. *)
Definition pty_ready (o : Trunk.os) : Prop :=
  Trunk.os_posix_openpt o <> -1 /\ Trunk.os_grantpt o = 0
  /\ Trunk.os_unlockpt o = 0.

Definition is_close_master (e : event) : bool :=
  match e with Ev_close_master => true | _ => false end.

Definition is_close_slave (e : event) : bool :=
  match e with Ev_close_slave => true | _ => false end.

Definition is_loop_call (e : event) : bool :=
  match e with Ev_select | Ev_waitpid _ => true | _ => false end.

(** The events of the option scan: messages. *)
Definition is_scan_event (e : event) : bool :=
  match e with Ev_stderr _ | Ev_stdout _ => true | _ => false end.

Definition is_blocking_wait (e : event) : bool :=
  match e with Ev_waitpid false => true | _ => false end.

(** The events of [handleoutput]: messages, the read, the calls of [match]
    and of [write_pass]. *)
Definition is_handleoutput_event (e : event) : bool :=
  match e with
  | Ev_stderr _ | Ev_read _ | Ev_match _ | Ev_write_pass => true
  | _ => false
  end.

Definition count_sources (opts : list (ascii * string)) : nat :=
  length (filter (fun x => is_pwsource (fst x)) opts).

(** The member of the union [pwsrc] that [write_pass] reads for the
    password type is the member that was written last. *)
Definition pwsrc_agrees (a : Trunk.args_t) : bool :=
  match Trunk.pwtype a, Trunk.pwsrc a with
  | Trunk.PWT_STDIN, Trunk.Pwsrc_fd _
  | Trunk.PWT_FD, Trunk.Pwsrc_fd _
  | Trunk.PWT_FILE, Trunk.Pwsrc_filename _
  | Trunk.PWT_PASS, Trunk.Pwsrc_password _ => true
  | _, _ => false
  end.

(** The same before [main] has copied the password. *)
Definition scanned_agrees (a : Trunk.args_t) : bool :=
  match Trunk.pwtype a, Trunk.pwsrc a, Trunk.orig_password a with
  | Trunk.PWT_STDIN, Trunk.Pwsrc_fd _, None
  | Trunk.PWT_FD, Trunk.Pwsrc_fd _, None
  | Trunk.PWT_FILE, Trunk.Pwsrc_filename _, None
  | Trunk.PWT_PASS, _, Some _ => true
  | _, _, _ => false
  end.

(** The argument of the last -P among the options, and the number of -v. *)
Definition last_prompt (opts : list (ascii * string)) (init : option string)
  : option string :=
  fold_left (fun acc x => if Ascii.eqb (fst x) "P" then Some (snd x) else acc)
    opts init.

Definition count_verbose (opts : list (ascii * string)) : Z :=
  Z.of_nat (length (filter (fun x => Ascii.eqb (fst x) "v") opts)).

(** The password file named on the command line cannot be opened. *)
Definition unopenable (a : Trunk.args_t) (w : Trunk.pwio) : bool :=
  match Trunk.pwtype a, Trunk.pwsrc a with
  | Trunk.PWT_FILE, Trunk.Pwsrc_filename filename =>
      match Trunk.file_reads w filename with
      | None => true
      | Some _ => false
      end
  | _, _ => false
  end.

(** A chunk as a [read] before the end of input returns it, and holding no
    newline. *)
Definition plain_chunk (chunk : list byte) : Prop :=
  chunk <> [] /\ no_newline chunk.

(** The options at which the scan of the first release sets an error of
    its own. *)
Definition naive_stops (opt : ascii) : bool :=
  Ascii.eqb opt "?" || Ascii.eqb opt ":" || Ascii.eqb opt "h".


(** ** Runs of the model on concrete inputs *)

Definition no_os : Trunk.os :=
  {| Trunk.os_posix_openpt := -1; Trunk.os_grantpt := -1;
     Trunk.os_unlockpt := -1; Trunk.os_open_tty := -1;
     Trunk.os_ioctl_gwinsz := -1; Trunk.os_fork := -1;
     Trunk.os_tiocsctty := None; Trunk.os_execvp_fails := true;
     Trunk.os_turns := [] |}.

(** sshpass -f file -v -p secret ssh host *)
Definition file_then_password : Trunk.cmdline :=
  {| Trunk.argc := 8;
     Trunk.getopt_seq :=
       [("f"%char, "file"); ("v"%char, ""); ("p"%char, "secret")]%string;
     Trunk.optind := 6;
     Trunk.getenv_SSHPASS := None |}.

(** sshpass -h -p secret -f file ssh host, and sshpass -p secret -e ssh host
    with SSHPASS unset *)
Definition help_then_two_sources : Trunk.cmdline :=
  {| Trunk.argc := 8;
     Trunk.getopt_seq :=
       [("h"%char, ""); ("p"%char, "secret"); ("f"%char, "file")]%string;
     Trunk.optind := 6;
     Trunk.getenv_SSHPASS := None |}.

Definition password_then_unset_env : Trunk.cmdline :=
  {| Trunk.argc := 6;
     Trunk.getopt_seq := [("p"%char, "secret"); ("e"%char, "")]%string;
     Trunk.optind := 4;
     Trunk.getenv_SSHPASS := None |}.

(** sshpass -p secret ssh host *)
Definition password_on_command_line : Trunk.cmdline :=
  {| Trunk.argc := 5;
     Trunk.getopt_seq := [("p"%char, "secret"%string)];
     Trunk.optind := 3;
     Trunk.getenv_SSHPASS := None |}.

(** sshpass -p secret ssh host, for the first release *)
Definition naive_password_on_command_line : Naive.cmdline :=
  {| Naive.argc := 5;
     Naive.getopt_seq := [("p"%char, "secret"%string)];
     Naive.optind := 3;
     Naive.getenv_SSHPASS := None |}.

(** No pseudo-terminal is to be had. *)
Definition naive_no_pty : Naive.os :=
  {| Naive.os_getpt := -1; Naive.os_grantpt := 0; Naive.os_unlockpt := 0;
     Naive.os_fork := 1000; Naive.os_errno := 0;
     Naive.os_execvp_fails := false; Naive.os_status := 0;
     Naive.os_turns := [] |}.

(** The child is killed by signal 9 after the password went through:
    one turn reads the prompt, the next finds the child gone. *)
Definition killed_after_login : Trunk.os :=
  {| Trunk.os_posix_openpt := 3; Trunk.os_grantpt := 0;
     Trunk.os_unlockpt := 0; Trunk.os_open_tty := -1;
     Trunk.os_ioctl_gwinsz := -1; Trunk.os_fork := 1000;
     Trunk.os_tiocsctty := Some 0; Trunk.os_execvp_fails := false;
     Trunk.os_turns :=
       [ {| t_selret := 1; t_isset := true;
            t_read := ReadOk (bytes "Password: ");
            t_wait_id := 0; t_status := 0 |};
         {| t_selret := 0; t_isset := false; t_read := ReadErr;
            t_wait_id := 1000; t_status := 9 |} ] |}.

(** The password is wrong: the prompt comes back, and the child exits with
    status 255 once its terminal is closed. *)
Definition wrong_password_run : Trunk.os :=
  {| Trunk.os_posix_openpt := 3; Trunk.os_grantpt := 0;
     Trunk.os_unlockpt := 0; Trunk.os_open_tty := -1;
     Trunk.os_ioctl_gwinsz := -1; Trunk.os_fork := 1000;
     Trunk.os_tiocsctty := Some 0; Trunk.os_execvp_fails := false;
     Trunk.os_turns :=
       [ {| t_selret := 1; t_isset := true;
            t_read := ReadOk (bytes "Password: ");
            t_wait_id := 0; t_status := 0 |};
         {| t_selret := 1; t_isset := true;
            t_read := ReadOk (bytes "Password: ");
            t_wait_id := 0; t_status := 0 |};
         {| t_selret := 0; t_isset := false; t_read := ReadErr;
            t_wait_id := 1000; t_status := 65280 |} ] |}.

(** The prompt comes twice: the second sighting ends the run. *)
Definition secret_args : Trunk.args_t :=
  {| Trunk.pwtype := Trunk.PWT_PASS;
     Trunk.pwsrc := Trunk.Pwsrc_password "secret123";
     Trunk.pwprompt := Some "Password: "%string;
     Trunk.verbose := 0;
     Trunk.orig_password := Some EmptyString |}.

Definition prompt_twice : list read_result :=
  [ReadOk (bytes "login: Password: "); ReadOk (bytes "Password: ")].

Definition prompt_twice_calls : list call :=
  handleoutput_calls (P := linux) secret_args Trunk.statics_init prompt_twice.

(** The same, and the child goes on writing. *)
Definition prompt_twice_and_more : list read_result :=
  prompt_twice ++ [ReadOk (bytes "Last login: today")].

(** The prompt comes in two halves around an empty read; then a read
    fails, and what the oracle holds after that is not looked at. *)
Definition prompt_then_failure : list read_result :=
  [ReadOk (bytes "login: Pas"); ReadOk []; ReadOk (bytes "sword: ");
   ReadErr; ReadOk (bytes "Password: ")].

(** The statics in the middle of the first two phrases, after a reply. *)
Definition mid_phrase : Trunk.statics :=
  {| Trunk.prevmatch := 1; Trunk.state1 := 4; Trunk.state2 := 7;
     Trunk.state3 := 0; Trunk.firsttime := 1 |}.

(** The command cannot be run. *)
Definition exec_fails : Trunk.os :=
  {| Trunk.os_posix_openpt := 3; Trunk.os_grantpt := 0;
     Trunk.os_unlockpt := 0; Trunk.os_open_tty := -1;
     Trunk.os_ioctl_gwinsz := -1; Trunk.os_fork := 0;
     Trunk.os_tiocsctty := Some 0; Trunk.os_execvp_fails := true;
     Trunk.os_turns := [] |}.

(** sshpass -v -P assphrase -v -P Password cmd *)
Definition two_prompts : Trunk.cmdline :=
  {| Trunk.argc := 8;
     Trunk.getopt_seq :=
       [("v"%char, ""); ("P"%char, "assphrase"); ("v"%char, "");
        ("P"%char, "Password")]%string;
     Trunk.optind := 7;
     Trunk.getenv_SSHPASS := None |}.

(** sshpass -v -x -p secret -f file cmd: getopt answers '?' for -x *)
Definition unknown_option_first : Trunk.cmdline :=
  {| Trunk.argc := 8;
     Trunk.getopt_seq :=
       [("v"%char, ""); ("?"%char, ""); ("p"%char, "secret");
        ("f"%char, "file")]%string;
     Trunk.optind := 6;
     Trunk.getenv_SSHPASS := None |}.

(** Nothing can be opened; descriptor 0 holds two lines. *)
Definition only_stdin : Trunk.pwio :=
  {| Trunk.fd_reads := fun n =>
       if n =? 0
       then [ReadOk (bytes "sec");
             ReadOk (bytes "ret" ++ newline :: bytes "next")]
       else [];
     Trunk.file_reads := fun _ => None |}.

(** sshpass -f file -p secret cmd, for the first release *)
Definition naive_file_then_password : Naive.cmdline :=
  {| Naive.argc := 7;
     Naive.getopt_seq := [("f"%char, "file"); ("p"%char, "secret")]%string;
     Naive.optind := 5;
     Naive.getenv_SSHPASS := None |}.


(** * Properties *)

(** ** The loop of [match] *)

Lemma naive_match_loop_unfold reference buffer bufsize i state :
  Naive.match_loop reference buffer bufsize i state =
  if complete reference state then (i, state)
  else if Z_lt_dec i bufsize
       then Naive.match_loop reference buffer bufsize (i + 1)
              (Naive.loop_body reference buffer i state)
       else (i, state).
Proof.
  rewrite Naive.match_loop_equation_1. unfold complete.
  destruct (Byte.eqb (char_at reference state) NUL); simpl; [reflexivity|].
  destruct (Z_lt_dec i bufsize); reflexivity.
Qed.

Lemma match_loop_unfold reference buffer bufsize i state :
  Trunk.match_loop reference buffer bufsize i state =
  if complete reference state then (i, state)
  else if Z_lt_dec i bufsize
       then Trunk.match_loop reference buffer bufsize (i + 1)
              (Trunk.loop_body reference buffer i state)
       else (i, state).
Proof.
  rewrite Trunk.match_loop_equation_1. unfold complete.
  destruct (Byte.eqb (char_at reference state) NUL); simpl; [reflexivity|].
  destruct (Z_lt_dec i bufsize); reflexivity.
Qed.

(** Induction on the number of turns the loop has left. *)
Lemma naive_trunk_match_loop reference buffer bufsize :
  forall (k : nat) i state,
    Z.to_nat (bufsize - i) = k ->
    Naive.match_loop reference buffer bufsize i state =
    Trunk.match_loop reference buffer bufsize i state.
Proof.
  induction k as [|k IH]; intros i state Hk;
    rewrite naive_match_loop_unfold, match_loop_unfold;
    destruct (complete reference state); try reflexivity;
    destruct (Z_lt_dec i bufsize); try reflexivity.
  - lia.
  - unfold Naive.loop_body, Trunk.loop_body. apply IH. lia.
Qed.

Lemma naive_trunk_match reference buffer bufsize state :
  Naive.match_ reference buffer bufsize state =
  Trunk.match_ reference buffer bufsize state.
Proof.
  unfold Naive.match_, Trunk.match_.
  now rewrite (naive_trunk_match_loop reference buffer bufsize _ 0 state eq_refl).
Qed.

Lemma loop_body_advance reference buffer i state :
  Trunk.loop_body reference buffer i state =
  advance reference state (char_at buffer i).
Proof. reflexivity. Qed.

Lemma skipn_char_at (buffer : list byte) (i : Z) :
  0 <= i < strlen buffer ->
  skipn (Z.to_nat i) buffer =
  char_at buffer i :: skipn (Z.to_nat (i + 1)) buffer.
Proof.
  unfold strlen, char_at. intros H.
  destruct (i <? 0) eqn:E; [lia|].
  replace (Z.to_nat (i + 1)) with (S (Z.to_nat i)) by lia.
  assert (Hn : (Z.to_nat i < length buffer)%nat) by lia.
  revert Hn. generalize (Z.to_nat i). clear.
  induction buffer as [|c buffer IH]; intros [|n] Hn; simpl in *;
    try lia; try reflexivity.
  apply IH. lia.
Qed.

(** The loop over indices is the recursion over the bytes of the window
    [buffer[i .. bufsize-1]]. *)
Lemma match_loop_scan reference buffer bufsize :
  bufsize <= strlen buffer ->
  forall (k : nat) i state,
    0 <= i ->
    Z.to_nat (bufsize - i) = k ->
    Trunk.match_loop reference buffer bufsize i state =
    let '(n, s) :=
      scan reference (firstn k (skipn (Z.to_nat i) buffer)) state in
    (i + n, s).
Proof.
  intros Hb. induction k as [|k IH]; intros i state Hi Hk;
    rewrite match_loop_unfold.
  - simpl. rewrite Z.add_0_r.
    destruct (complete reference state); [reflexivity|].
    destruct (Z_lt_dec i bufsize); [lia | reflexivity].
  - rewrite skipn_char_at by lia. simpl.
    destruct (complete reference state); [now rewrite Z.add_0_r|].
    destruct (Z_lt_dec i bufsize); [|lia].
    rewrite loop_body_advance, (IH (i + 1)) by lia.
    destruct (scan reference _ _) as [n s]. f_equal. lia.
Qed.

Lemma match_loop_whole reference chunk state :
  Trunk.match_loop reference chunk (strlen chunk) 0 state =
  scan reference chunk state.
Proof.
  rewrite (match_loop_scan reference chunk (strlen chunk) (Z.le_refl _)
             (length chunk) 0 state) by (unfold strlen; lia).
  simpl. rewrite firstn_all. now destruct (scan reference chunk state).
Qed.

(** ** The state stays within the phrase *)

Lemma char_at_length (s : list byte) : char_at s (strlen s) = NUL.
Proof.
  unfold char_at, strlen.
  destruct (Z.of_nat (length s) <? 0) eqn:E; [reflexivity|].
  rewrite Nat2Z.id. apply nth_overflow. lia.
Qed.

Lemma char_at_outside (s : list byte) (i : Z) :
  i < 0 \/ strlen s <= i -> char_at s i = NUL.
Proof.
  unfold char_at, strlen. intros H.
  destruct (i <? 0) eqn:E; [reflexivity|].
  apply nth_overflow. lia.
Qed.

Lemma incomplete_below reference state :
  complete reference state = false -> 0 <= state < strlen reference.
Proof.
  unfold complete. intros H.
  destruct (Z_lt_dec state 0) as [Hn|Hn];
    [rewrite char_at_outside in H by lia; discriminate|].
  destruct (Z_lt_dec state (strlen reference)) as [Hl|Hl]; [lia|].
  rewrite char_at_outside in H by lia. discriminate.
Qed.

Lemma advance_range reference state c :
  complete reference state = false ->
  0 <= advance reference state c <= strlen reference.
Proof.
  intros H. apply incomplete_below in H. unfold advance.
  destruct (Byte.eqb (char_at reference state) c); [lia|].
  destruct (Byte.eqb (char_at reference 0) c); lia.
Qed.

Lemma match_loop_range reference buffer bufsize :
  forall (k : nat) i state,
    Z.to_nat (bufsize - i) = k ->
    0 <= state <= strlen reference ->
    0 <= snd (Trunk.match_loop reference buffer bufsize i state)
      <= strlen reference.
Proof.
  induction k as [|k IH]; intros i state Hk Hs; rewrite match_loop_unfold;
    destruct (complete reference state) eqn:E; try exact Hs;
    destruct (Z_lt_dec i bufsize); try exact Hs.
  - lia.
  - apply IH; [lia|]. rewrite loop_body_advance. now apply advance_range.
Qed.

Lemma cstring_char_at reference state :
  cstring reference -> 0 <= state < strlen reference ->
  char_at reference state <> NUL.
Proof.
  unfold cstring, char_at, strlen. intros Hc Hs.
  destruct (state <? 0) eqn:E; [lia|].
  rewrite Forall_forall in Hc. apply Hc, nth_In. lia.
Qed.

Lemma byte_eqb_refl (c : byte) : Byte.eqb c c = true.
Proof. now apply Byte.byte_dec_lb. Qed.

Lemma byte_eqb_neq (c d : byte) : c <> d -> Byte.eqb c d = false.
Proof.
  intros H. destruct (Byte.eqb c d) eqn:E; [|reflexivity].
  now apply Byte.byte_dec_bl in E.
Qed.

(** For a well-formed phrase and a state in range, the test
    [reference[state]=='\0'] says that the state is the length. *)
Lemma complete_iff_length reference state :
  cstring reference -> 0 <= state <= strlen reference ->
  complete reference state = true <-> state = strlen reference.
Proof.
  intros Hc Hs. unfold complete. split.
  - intros H. apply Byte.byte_dec_bl in H.
    destruct (Z.eq_dec state (strlen reference)) as [|Hne]; [assumption|].
    exfalso. apply (cstring_char_at reference state Hc); [lia | exact H].
  - intros ->. rewrite char_at_length. apply byte_eqb_refl.
Qed.

(** ** Chunks *)

Lemma scan_complete reference data state :
  complete reference state = true -> scan reference data state = (0, state).
Proof. intros H. destruct data; simpl; [reflexivity | now rewrite H]. Qed.

Lemma scan_range reference data :
  forall state,
    0 <= state <= strlen reference ->
    0 <= fst (scan reference data state) <= strlen data /\
    0 <= snd (scan reference data state) <= strlen reference.
Proof.
  unfold strlen.
  induction data as [|c data IH]; intros state Hs; simpl; [lia|].
  destruct (complete reference state) eqn:E; simpl; [lia|].
  specialize (IH (advance reference state c) (advance_range _ _ c E)).
  destruct (scan reference data _) as [n s]. simpl in *. lia.
Qed.

Lemma scan_app reference a b :
  forall state,
    scan reference (a ++ b) state =
    let '(n1, s1) := scan reference a state in
    let '(n2, s2) := scan reference b s1 in
    (n1 + n2, s2).
Proof.
  induction a as [|c a IH]; intros state; simpl.
  - now destruct (scan reference b state).
  - destruct (complete reference state) eqn:E.
    + now rewrite scan_complete.
    + rewrite IH. destruct (scan reference a _) as [n1 s1].
      destruct (scan reference b s1) as [n2 s2]. f_equal. lia.
Qed.

(** Once the loop has stopped short of the end of its data, the phrase is
    complete. *)
Lemma scan_short reference data :
  forall state,
    fst (scan reference data state) < strlen data ->
    complete reference (snd (scan reference data state)) = true.
Proof.
  unfold strlen.
  induction data as [|c data IH]; intros state; simpl; [lia|].
  destruct (complete reference state) eqn:E; simpl; [auto|].
  specialize (IH (advance reference state c)).
  destruct (scan reference data _) as [n s]. simpl in *.
  intros H. apply IH. lia.
Qed.

Lemma feed_scan reference ps chunk :
  feed reference ps chunk =
  (fst ps + fst (scan reference chunk (snd ps)),
   snd (scan reference chunk (snd ps))).
Proof.
  unfold feed. rewrite match_loop_whole.
  now destruct (scan reference chunk (snd ps)).
Qed.

Lemma feed_chunks_scan reference chunks :
  forall ps,
    feed_chunks reference chunks ps =
    (fst ps + fst (scan reference (concat chunks) (snd ps)),
     snd (scan reference (concat chunks) (snd ps))).
Proof.
  unfold feed_chunks.
  induction chunks as [|chunk chunks IH]; intros [p s]; simpl.
  - now rewrite Z.add_0_r.
  - rewrite IH, feed_scan, scan_app. simpl.
    destruct (scan reference chunk s) as [n1 s1]. simpl.
    destruct (scan reference (concat chunks) s1) as [n2 s2]. simpl.
    f_equal. lia.
Qed.

(** ** What a state says about the bytes read *)

Lemma firstn_succ_char_at (reference : list byte) (state : Z) :
  0 <= state < strlen reference ->
  firstn (Z.to_nat (state + 1)) reference =
  firstn (Z.to_nat state) reference ++ [char_at reference state].
Proof.
  intros H.
  rewrite <- (firstn_skipn (Z.to_nat state) reference) at 1.
  rewrite (skipn_char_at reference state H).
  rewrite firstn_app, firstn_firstn.
  unfold strlen in H.
  rewrite length_firstn.
  replace (Nat.min (Z.to_nat (state + 1)) (Z.to_nat state))
    with (Z.to_nat state) by lia.
  replace (Z.to_nat (state + 1) - Nat.min (Z.to_nat state) (length reference))%nat
    with 1%nat by lia.
  reflexivity.
Qed.

Lemma advance_sound reference state c t :
  complete reference state = false ->
  ends_with t (firstn (Z.to_nat state) reference) ->
  ends_with (t ++ [c])
    (firstn (Z.to_nat (advance reference state c)) reference).
Proof.
  intros E [pre Ht]. pose proof (incomplete_below _ _ E) as Hs.
  unfold advance.
  destruct (Byte.eqb (char_at reference state) c) eqn:E1.
  - apply Byte.byte_dec_bl in E1. subst c.
    exists pre. rewrite firstn_succ_char_at by lia.
    now rewrite Ht, app_assoc.
  - destruct (Byte.eqb (char_at reference 0) c) eqn:E2.
    + apply Byte.byte_dec_bl in E2. subst c.
      exists t. change 1 with (0 + 1).
      rewrite firstn_succ_char_at by lia. reflexivity.
    + exists (t ++ [c]). simpl. now rewrite app_nil_r.
Qed.

Lemma scan_sound reference data :
  forall state t,
    ends_with t (firstn (Z.to_nat state) reference) ->
    ends_with
      (t ++ firstn (Z.to_nat (fst (scan reference data state))) data)
      (firstn (Z.to_nat (snd (scan reference data state))) reference).
Proof.
  induction data as [|c data IH]; intros state t Ht; simpl.
  - now rewrite app_nil_r.
  - destruct (complete reference state) eqn:E; simpl.
    + now rewrite app_nil_r.
    + specialize (IH _ _ (advance_sound reference state c t E Ht)).
      pose proof (scan_range reference data (advance reference state c)
                    (advance_range _ _ c E)) as [Hn _].
      destruct (scan reference data _) as [n s]. simpl in *.
      replace (Z.to_nat (n + 1)) with (S (Z.to_nat n)) by lia. simpl.
      now rewrite <- app_assoc in IH.
Qed.

(** A complete state reached from state 0: the phrase ends exactly where
    the loop stopped. *)
Lemma scan_complete_occurrence reference data :
  snd (scan reference data 0) = strlen reference ->
  exists pre post,
    data = pre ++ reference ++ post /\
    fst (scan reference data 0) = strlen (pre ++ reference).
Proof.
  intros Hs.
  destruct (scan_sound reference data 0 [] (ex_intro _ [] eq_refl))
    as [pre Hpre].
  pose proof (scan_range reference data 0) as [Hn _];
    [unfold strlen; lia|].
  rewrite Hs in Hpre. unfold strlen in Hpre.
  rewrite Nat2Z.id, firstn_all in Hpre. simpl in Hpre.
  exists pre, (skipn (Z.to_nat (fst (scan reference data 0))) data). split.
  - rewrite app_assoc, <- Hpre. symmetry. apply firstn_skipn.
  - rewrite <- Hpre. unfold strlen in *. rewrite length_firstn. lia.
Qed.

(** ** Phrases whose first byte is not repeated *)

Lemma scan_aligned reference post :
  cstring reference ->
  forall (k : nat) j,
    0 <= j <= strlen reference ->
    Z.to_nat (strlen reference - j) = k ->
    scan reference (skipn (Z.to_nat j) reference ++ post) j =
    (strlen reference - j, strlen reference).
Proof.
  intros Hc. induction k as [|k IH]; intros j Hj Hk.
  - assert (j = strlen reference) by lia. subst j.
    unfold strlen at 1. rewrite Nat2Z.id, skipn_all. simpl.
    rewrite scan_complete by (now apply complete_iff_length).
    f_equal. lia.
  - rewrite skipn_char_at by lia. simpl.
    destruct (complete reference j) eqn:E.
    + apply complete_iff_length in E; [lia | assumption | lia].
    + unfold advance. rewrite byte_eqb_refl.
      rewrite IH by lia. f_equal. lia.
Qed.

Lemma char_at_head (c : byte) (rest : list byte) : char_at (c :: rest) 0 = c.
Proof. reflexivity. Qed.

Lemma char_at_tail (c : byte) (rest : list byte) (i : Z) :
  0 < i < strlen (c :: rest) -> In (char_at (c :: rest) i) rest.
Proof.
  unfold char_at, strlen. intros H. simpl length in H.
  destruct (i <? 0) eqn:E; [lia|].
  replace (Z.to_nat i) with (S (Z.to_nat (i - 1))) by lia. simpl.
  apply nth_In. lia.
Qed.

Lemma advance_first_byte c rest state :
  first_byte_unique (c :: rest) = true ->
  0 <= state < strlen (c :: rest) ->
  advance (c :: rest) state c = 1.
Proof.
  intros Hu Hs. unfold advance. rewrite char_at_head, byte_eqb_refl.
  destruct (Byte.eqb (char_at (c :: rest) state) c) eqn:E; [|reflexivity].
  destruct (Z.eq_dec state 0) as [->|Hne]; [reflexivity|].
  exfalso. apply Byte.byte_dec_bl in E.
  simpl in Hu. apply negb_true_iff in Hu.
  assert (Hin : In c rest) by (rewrite <- E; apply char_at_tail; lia).
  assert (Hex : existsb (Byte.eqb c) rest = true).
  { apply existsb_exists. exists c. split; [assumption | apply byte_eqb_refl]. }
  congruence.
Qed.

(** From any state in range, reading the whole phrase completes it. *)
Lemma scan_phrase reference post state :
  cstring reference ->
  first_byte_unique reference = true ->
  0 <= state <= strlen reference ->
  scan reference (reference ++ post) state =
  (if complete reference state then 0 else strlen reference,
   strlen reference).
Proof.
  intros Hc Hu Hs.
  destruct (complete reference state) eqn:E.
  - rewrite scan_complete by assumption. f_equal.
    now apply complete_iff_length.
  - pose proof (incomplete_below _ _ E) as Hlt.
    destruct reference as [|c rest]; [unfold strlen in Hlt; simpl in Hlt; lia|].
    cbn [app scan]. rewrite E.
    rewrite advance_first_byte by assumption.
    change (rest ++ post) with (skipn (Z.to_nat 1) (c :: rest) ++ post).
    rewrite (scan_aligned (c :: rest) post Hc _ 1 ltac:(lia) eq_refl).
    f_equal. lia.
Qed.

(** ** The first occurrence *)

Lemma prefixb_spec phrase :
  forall stream,
    prefixb phrase stream = true <-> exists post, stream = phrase ++ post.
Proof.
  induction phrase as [|c phrase IH]; intros stream; simpl.
  - split; [intros _; now exists stream | reflexivity].
  - destruct stream as [|d stream].
    + split; [discriminate | intros [post H]; discriminate].
    + rewrite andb_true_iff, IH. split.
      * intros [E [post ->]]. apply Byte.byte_dec_bl in E. subst d.
        now exists post.
      * intros [post H]. injection H as -> ->.
        split; [apply byte_eqb_refl | now exists post].
Qed.

Lemma find_first_occurrence phrase :
  forall stream k,
    find_first phrase stream = Some k ->
    exists pre post, stream = pre ++ phrase ++ post /\ length pre = k.
Proof.
  induction stream as [|d stream IH]; intros k; simpl;
    destruct (prefixb phrase _) eqn:E.
  - intros [= <-]. apply prefixb_spec in E as [post ->]. now exists [], post.
  - discriminate.
  - intros [= <-]. apply prefixb_spec in E as [post ->]. now exists [], post.
  - destruct (find_first phrase stream) as [k'|]; [|discriminate].
    intros [= <-]. destruct (IH k' eq_refl) as (pre & post & -> & <-).
    now exists (d :: pre), post.
Qed.

Lemma find_first_least phrase :
  forall stream pre post,
    stream = pre ++ phrase ++ post ->
    exists k, find_first phrase stream = Some k /\ (k <= length pre)%nat.
Proof.
  induction stream as [|d stream IH]; intros pre post H; simpl;
    destruct (prefixb phrase _) eqn:E;
    try (exists 0%nat; split; [reflexivity | lia]).
  - destruct pre; [|discriminate]. simpl in H.
    assert (prefixb phrase [] = true) by (apply prefixb_spec; now exists post).
    congruence.
  - destruct pre as [|d' pre].
    + assert (prefixb phrase (d :: stream) = true)
        by (apply prefixb_spec; now exists post).
      congruence.
    + injection H as -> H.
      destruct (IH pre post H) as (k & -> & Hk).
      exists (S k). split; [reflexivity | simpl; lia].
Qed.

Lemma contains_find_first phrase stream :
  contains phrase stream <-> exists k, find_first phrase stream = Some k.
Proof.
  split.
  - intros (pre & post & H).
    destruct (find_first_least phrase stream pre post H) as (k & Hk & _).
    now exists k.
  - intros [k Hk].
    destruct (find_first_occurrence phrase stream k Hk) as (pre & post & H & _).
    now exists pre, post.
Qed.

(** ** The matcher against the specification's wording *)

Lemma nth_error_char_at (reference : list byte) (state : Z) :
  0 <= state < strlen reference ->
  nth_error reference (Z.to_nat state) = Some (char_at reference state).
Proof.
  unfold strlen, char_at. intros H.
  destruct (state <? 0) eqn:E; [lia|].
  apply nth_error_nth'. lia.
Qed.

Lemma byte_eqb_sym (c d : byte) : Byte.eqb c d = Byte.eqb d c.
Proof.
  destruct (Byte.eqb d c) eqn:E.
  - apply Byte.byte_dec_bl in E. subst. apply byte_eqb_refl.
  - apply byte_eqb_neq. intros ->. now rewrite byte_eqb_refl in E.
Qed.

Lemma advance_step reference state c :
  complete reference state = false ->
  advance reference state c = Spec.step reference state c.
Proof.
  intros E. pose proof (incomplete_below _ _ E) as Hs.
  unfold advance, Spec.step, Spec.matches.
  rewrite (nth_error_char_at reference state Hs).
  change 0%nat with (Z.to_nat 0).
  rewrite (nth_error_char_at reference 0) by lia.
  now rewrite (byte_eqb_sym c (char_at reference state)),
    (byte_eqb_sym c (char_at reference 0)).
Qed.

Lemma complete_isComplete reference state :
  cstring reference -> 0 <= state <= strlen reference ->
  complete reference state = Spec.isComplete reference state.
Proof.
  intros Hc Hs. unfold Spec.isComplete. fold (strlen reference).
  destruct (state =? strlen reference) eqn:E.
  - apply Z.eqb_eq in E. now apply complete_iff_length.
  - apply Z.eqb_neq in E.
    destruct (complete reference state) eqn:E'; [|reflexivity].
    apply complete_iff_length in E'; [contradiction | assumption | lia].
Qed.

Lemma scan_feed reference data :
  cstring reference ->
  forall state,
    0 <= state <= strlen reference ->
    snd (scan reference data state) = Spec.feed state reference data.
Proof.
  intros Hc. induction data as [|c data IH]; intros state Hs; simpl.
  - reflexivity.
  - rewrite <- complete_isComplete by assumption.
    destruct (complete reference state) eqn:E; [reflexivity|].
    rewrite <- advance_step by assumption.
    rewrite <- IH by now apply advance_range.
    now destruct (scan reference data _).
Qed.

Lemma match_scan reference buffer bufsize state :
  0 <= bufsize <= strlen buffer ->
  Trunk.match_ reference buffer bufsize state =
  snd (scan reference (firstn (Z.to_nat bufsize) buffer) state).
Proof.
  intros Hb. unfold Trunk.match_.
  rewrite (match_loop_scan reference buffer bufsize (proj2 Hb)
             (Z.to_nat bufsize) 0 state) by lia.
  simpl. now destruct (scan reference _ state).
Qed.

(** C4: [match], in both releases, is the matcher the specification words:
    starting from the given state it reads the chunk byte by byte, advances
    on a byte equal to [phraseText[state]], otherwise restarts at 0 and
    re-tests that one byte against [phraseText[0]]; the callers' test for a
    full match is [state == length(phraseText)], and a complete state is
    returned unchanged. *)
Theorem match_refines_spec_feed reference buffer bufsize state :
  cstring reference ->
  0 <= state <= strlen reference ->
  0 <= bufsize <= strlen buffer ->
  let chunk := firstn (Z.to_nat bufsize) buffer in
  Trunk.match_ reference buffer bufsize state
    = Spec.feed state reference chunk
  /\ Naive.match_ reference buffer bufsize state
    = Spec.feed state reference chunk
  /\ complete reference state = Spec.isComplete reference state
  /\ (forall b, complete reference state = false ->
        Trunk.loop_body reference (b :: nil) 0 state
          = Spec.step reference state b)
  /\ (Spec.isComplete reference state = true ->
        Trunk.match_ reference buffer bufsize state = state).
Proof.
  intros Hc Hs Hb chunk.
  assert (Ht : Trunk.match_ reference buffer bufsize state
               = Spec.feed state reference chunk).
  { rewrite match_scan by assumption. now apply scan_feed. }
  repeat split.
  - exact Ht.
  - now rewrite naive_trunk_match.
  - now apply complete_isComplete.
  - intros b E. rewrite loop_body_advance. now apply advance_step.
  - intros E. rewrite <- complete_isComplete in E by assumption.
    rewrite match_scan by assumption. now rewrite scan_complete.
Qed.

Lemma cstring_password : cstring (bytes "Password: ").
Proof. repeat constructor; discriminate. Qed.

Lemma match_refines_spec_feed_witness :
  Trunk.match_ (bytes "Password: ") (bytes "xxPassPassword: yy") 18 0
    = Spec.feed 0 (bytes "Password: ")
        (firstn (Z.to_nat 18) (bytes "xxPassPassword: yy")).
Proof.
  refine (proj1 (match_refines_spec_feed (bytes "Password: ")
                   (bytes "xxPassPassword: yy") 18 0 cstring_password _ _)).
  - unfold strlen; simpl; lia.
  - unfold strlen; simpl; lia.
Defined.

(** C7: a call of [match] keeps the state within [0 .. length(phrase)],
    whatever the chunk and its size. *)
Theorem match_preserves_range reference buffer bufsize state :
  0 <= state <= strlen reference ->
  0 <= Trunk.match_ reference buffer bufsize state <= strlen reference.
Proof.
  intros Hs. unfold Trunk.match_.
  now apply (match_loop_range reference buffer bufsize _ 0 state eq_refl).
Qed.

Lemma match_preserves_range_witness :
  0 <= 4 <= strlen (bytes "Password: ")
  /\ 0 <= Trunk.match_ (bytes "Password: ") (bytes "wxrd: ") 6 4
       <= strlen (bytes "Password: ").
Proof.
  assert (H : 0 <= 4 <= strlen (bytes "Password: "))
    by (unfold strlen; simpl; lia).
  split; [exact H|].
  exact (match_preserves_range (bytes "Password: ") (bytes "wxrd: ") 6 4 H).
Defined.

(** C10: the [match] of the first release and the [match] of the
    signal-hardened release return the same state (and leave their loop at
    the same index) for every phrase, buffer, size and initial state. *)
Theorem naive_match_equals_trunk_match reference buffer bufsize state :
  Naive.match_ reference buffer bufsize state
    = Trunk.match_ reference buffer bufsize state
  /\ Naive.match_loop reference buffer bufsize 0 state
    = Trunk.match_loop reference buffer bufsize 0 state.
Proof.
  split.
  - apply naive_trunk_match.
  - exact (naive_trunk_match_loop reference buffer bufsize _ 0 state eq_refl).
Qed.

(** ** Streams, chunkings and occurrences of the phrase *)

(** The second component of [feed] is the value [match] returns. *)
Lemma feed_match reference ps chunk :
  snd (feed reference ps chunk)
  = Trunk.match_ reference chunk (strlen chunk) (snd ps).
Proof.
  unfold feed, Trunk.match_.
  now destruct (Trunk.match_loop reference chunk (strlen chunk) 0 (snd ps)).
Qed.

(** C6: fed from state 0 in any chunking, a stream that does not contain
    the phrase keeps the state strictly below the length of the phrase and
    the test for a full match false; and whenever the state equals the
    length of the phrase, the phrase occurs in the stream, ending at the
    byte where the matcher stopped. *)
Theorem no_completion_without_phrase reference chunks :
  cstring reference ->
  let ps := feed_chunks reference chunks (0, 0) in
  (~ contains reference (concat chunks) ->
     0 <= snd ps < strlen reference /\ complete reference (snd ps) = false)
  /\ (snd ps = strlen reference ->
      exists pre post,
        concat chunks = pre ++ reference ++ post
        /\ fst ps = strlen (pre ++ reference)).
Proof.
  intros Hc ps. subst ps. rewrite feed_chunks_scan. simpl.
  assert (Hocc : snd (scan reference (concat chunks) 0) = strlen reference ->
                 exists pre post,
                   concat chunks = pre ++ reference ++ post
                   /\ fst (scan reference (concat chunks) 0)
                      = strlen (pre ++ reference))
    by apply scan_complete_occurrence.
  split; [|exact Hocc].
  intros Hno.
  pose proof (scan_range reference (concat chunks) 0) as [_ Hr];
    [unfold strlen; lia|].
  assert (Hne : snd (scan reference (concat chunks) 0) <> strlen reference).
  { intros E. destruct (Hocc E) as (pre & post & H & _).
    apply Hno. now exists pre, post. }
  split; [lia|].
  destruct (complete reference _) eqn:E; [|reflexivity].
  apply complete_iff_length in E; [contradiction | assumption | lia].
Qed.

Lemma no_completion_without_phrase_witness :
  let ps :=
    feed_chunks (bytes "Password: ") [bytes "Pass"; bytes "word"; bytes ": $"]
      (0, 0) in
  (~ contains (bytes "Password: ")
       (concat [bytes "Pass"; bytes "word"; bytes ": $"]) ->
     0 <= snd ps < strlen (bytes "Password: ")
     /\ complete (bytes "Password: ") (snd ps) = false)
  /\ (snd ps = strlen (bytes "Password: ") ->
      exists pre post,
        concat [bytes "Pass"; bytes "word"; bytes ": $"]
          = pre ++ bytes "Password: " ++ post
        /\ fst ps = strlen (pre ++ bytes "Password: ")).
Proof.
  exact (no_completion_without_phrase (bytes "Password: ")
           [bytes "Pass"; bytes "word"; bytes ": $"] cstring_password).
Defined.

(** C3, as the code has it: for every stream and every partition of it
    into chunks, feeding the chunks from state 0 ends in the state and at
    the logical position at which one scan of the unsplit stream ends;
    once the phrase is complete no later chunk moves either.  A stream that
    contains the phrase is sure to complete it when the first byte of the
    phrase is not repeated inside the phrase, and then the matcher stops at
    the end of the first occurrence. *)
Theorem chunking_keeps_state_and_position reference stream chunks :
  concat chunks = stream ->
  feed_chunks reference chunks (0, 0) = feed reference (0, 0) stream
  /\ (forall more,
        complete reference (snd (feed_chunks reference chunks (0, 0))) = true ->
        feed_chunks reference (chunks ++ more) (0, 0)
        = feed_chunks reference chunks (0, 0))
  /\ (cstring reference ->
      first_byte_unique reference = true ->
      contains reference stream ->
      exists k,
        find_first reference stream = Some k
        /\ feed_chunks reference chunks (0, 0)
           = (Z.of_nat k + strlen reference, strlen reference)).
Proof.
  intros <-. split; [|split].
  - now rewrite feed_chunks_scan, feed_scan.
  - intros more E. rewrite !feed_chunks_scan in *. simpl in *.
    rewrite concat_app, scan_app.
    destruct (scan reference (concat chunks) 0) as [n s]. simpl in *.
    rewrite scan_complete by assumption. simpl. f_equal. lia.
  - intros Hc Hu Hin.
    apply contains_find_first in Hin as [k Hk]. exists k. split; [exact Hk|].
    destruct (find_first_occurrence _ _ _ Hk) as (pre & post & Hst & Hlen).
    rewrite feed_chunks_scan. simpl.
    assert (Hscan := scan_app reference pre (reference ++ post) 0).
    rewrite <- Hst in Hscan.
    pose proof (scan_range reference pre 0) as [Hn1 Hs1];
      [unfold strlen; lia|].
    pose proof (scan_short reference pre 0) as Hshort.
    destruct (scan reference pre 0) as [n1 s1]. simpl in *.
    rewrite (scan_phrase reference post s1 Hc Hu Hs1) in Hscan.
    assert (Hstate : snd (scan reference (concat chunks) 0) = strlen reference)
      by now rewrite Hscan.
    destruct (scan_complete_occurrence _ _ Hstate)
      as (pre' & post' & Hst' & Hpos).
    destruct (find_first_least _ _ _ _ Hst') as (k' & Hk' & Hle).
    rewrite Hk in Hk'. injection Hk' as <-.
    rewrite Hscan in *. simpl in *. f_equal.
    unfold strlen in *. rewrite length_app in Hpos.
    destruct (complete reference s1) eqn:E.
    + lia.
    + assert (~ n1 < Z.of_nat (length pre)).
      { intros Hlt. apply Hshort in Hlt. congruence. }
      lia.
Qed.

Lemma chunking_keeps_state_and_position_witness :
  feed_chunks (bytes "Password: ")
    [bytes "login: Pas"; bytes "sw"; bytes "ord: "] (0, 0)
  = feed (bytes "Password: ") (0, 0) (bytes "login: Password: ")
  /\ exists k,
       find_first (bytes "Password: ") (bytes "login: Password: ") = Some k
       /\ feed_chunks (bytes "Password: ")
            [bytes "login: Pas"; bytes "sw"; bytes "ord: "] (0, 0)
          = (Z.of_nat k + strlen (bytes "Password: "),
             strlen (bytes "Password: ")).
Proof.
  destruct (chunking_keeps_state_and_position (bytes "Password: ")
              (bytes "login: Password: ")
              [bytes "login: Pas"; bytes "sw"; bytes "ord: "] eq_refl)
    as (H1 & _ & H3).
  split; [exact H1|].
  exact (H3 cstring_password eq_refl
           (ex_intro _ (bytes "login: ") (ex_intro _ [] eq_refl))).
Defined.

(** C3 as stated fails: the stream below contains the third phrase of
    [handleoutput], and neither the unsplit scan nor the byte-by-byte
    chunking ever completes it. *)
Lemma restart_rule_misses_occurrence :
  let stream :=
    bytes "differs from the key for the IP adiffers from the key for the IP address" in
  contains Trunk.compare3 stream
  /\ feed_chunks Trunk.compare3 [stream] (0, 0) = (72, 0)
  /\ feed_chunks Trunk.compare3 (map (fun b => [b]) stream) (0, 0) = (72, 0)
  /\ complete Trunk.compare3 0 = false.
Proof.
  split.
  - exists (bytes "differs from the key for the IP a"), []. reflexivity.
  - repeat split; vm_compute; reflexivity.
Qed.

(** ** write_pass_fd *)

Lemma newline_split (data : list byte) :
  no_newline data
  \/ exists p q, data = p ++ newline :: q /\ no_newline p.
Proof.
  induction data as [|c data [IH | (p & q & -> & Hp)]].
  - left. constructor.
  - destruct (byte_eq_dec c newline) as [->|Hc].
    + right. exists [], data. split; [reflexivity | constructor].
    + left. now constructor.
  - destruct (byte_eq_dec c newline) as [->|Hc].
    + right. exists [], (p ++ newline :: q). split; [reflexivity | constructor].
    + right. exists (c :: p), q. split; [reflexivity | now constructor].
Qed.

(** Where the first line ends does not depend on how it is written down. *)
Lemma first_line_unique (p q line rest : list byte) :
  no_newline p -> no_newline line ->
  (rest = [] \/ exists rest', rest = newline :: rest') ->
  p ++ newline :: q = line ++ rest ->
  p = line.
Proof.
  revert line. induction p as [|c p IH]; intros line Hp Hl Hrest H.
  - destruct line as [|c line]; [reflexivity|].
    simpl in H. injection H as <- _. inversion Hl. congruence.
  - inversion Hp as [|? ? Hc Hp']; subst.
    destruct line as [|c' line].
    + simpl in H. destruct Hrest as [->|[rest' ->]]; [discriminate|].
      injection H as -> _. congruence.
    + simpl in H. injection H as <- H. inversion Hl; subst.
      f_equal. now apply IH.
Qed.

Lemma chunk_of_first_line (chunk more line rest : list byte) :
  no_newline chunk -> no_newline line ->
  (rest = [] \/ exists rest', rest = newline :: rest') ->
  chunk ++ more = line ++ rest ->
  exists line', line = chunk ++ line' /\ more = line' ++ rest.
Proof.
  revert line. induction chunk as [|c chunk IH]; intros line Hc Hl Hrest H.
  - now exists line.
  - inversion Hc as [|? ? Hne Hc']; subst.
    destruct line as [|c' line].
    + simpl in H. destruct Hrest as [->|[rest' ->]]; [discriminate|].
      injection H as -> _. congruence.
    + simpl in H. injection H as <- H. inversion Hl; subst.
      destruct (IH line Hc' ltac:(assumption) Hrest H) as (line' & -> & ->).
      now exists line'.
Qed.

Lemma writes_of_app (a b : trace) :
  writes_of (a ++ b) = writes_of a ++ writes_of b.
Proof. apply flat_map_app. Qed.

Lemma read_counts_app (a b : trace) :
  read_counts (a ++ b) = read_counts a ++ read_counts b.
Proof. apply flat_map_app. Qed.

Lemma accepts_all_write (d : fdio) (c : byte) :
  accepts_all d ->
  received (snd (sys_write d [c])) = received d ++ [c]
  /\ accepts_all (snd (sys_write d [c]))
  /\ fst (sys_write d [c]) = 1.
Proof.
  unfold accepts_all, sys_write. intros H.
  destruct (wr_results d) as [|r rest]; simpl.
  - repeat split. constructor.
  - inversion H; subst. repeat split. assumption.
Qed.

(** The copy loop of either release, described by the equations of its
    functions and by what one single-byte write does. *)
Section WritePassFd.

Variable write1 : fdio -> byte -> fdio.
Variable copy_bytes : list byte -> bool -> fdio -> bool * fdio.
Variable write_pass_fd_loop :
  list read_result -> fdio -> list read_result * fdio.

Hypothesis write1_writes : forall d c,
  writes_of (calls (write1 d c)) = writes_of (calls d) ++ [[c]].
Hypothesis write1_reads : forall d c,
  read_counts (calls (write1 d c)) = read_counts (calls d).
Hypothesis write1_received : forall d c,
  accepts_all d ->
  received (write1 d c) = received d ++ [c] /\ accepts_all (write1 d c).

Hypothesis copy_bytes_eq : forall buffer done d,
  copy_bytes buffer done d =
  match buffer with
  | [] => (done, d)
  | c :: rest =>
      if done then (done, d)
      else if negb (Byte.eqb c newline)
           then copy_bytes rest done (write1 d c)
           else copy_bytes rest true d
  end.

Hypothesis write_pass_fd_loop_eq : forall src d,
  write_pass_fd_loop src d =
  let d := log (Ev_read 40) d in
  match src with
  | [] => ([], d)
  | r :: rest =>
      let numread := numread_of r in
      let done := numread <? 1 in
      let '(done, d) := copy_bytes (data_of r) done d in
      if done then (rest, d) else write_pass_fd_loop rest d
  end.

Lemma wrote_all (l : list byte) :
  forall d, wrote d (fold_left write1 l d) l.
Proof.
  unfold wrote. induction l as [|c l IH]; intros d; simpl.
  - rewrite !app_nil_r. auto.
  - destruct (IH (write1 d c)) as (Hw & Hr & Ha).
    rewrite Hw, Hr, write1_writes, write1_reads, <- app_assoc.
    split; [reflexivity | split; [reflexivity|]]. intros Hd.
    destruct (write1_received d c Hd) as [Hrc Hacc].
    destruct (Ha Hacc) as [Hrc' Hacc'].
    rewrite Hrc', Hrc, <- app_assoc. auto.
Qed.

Lemma copy_bytes_done (buffer : list byte) (d : fdio) :
  copy_bytes buffer true d = (true, d).
Proof. rewrite copy_bytes_eq. now destruct buffer. Qed.

Lemma copy_bytes_line (p : list byte) :
  no_newline p ->
  forall d, copy_bytes p false d = (false, fold_left write1 p d).
Proof.
  induction 1 as [|c p Hc Hp IH]; intros d; rewrite copy_bytes_eq.
  - reflexivity.
  - rewrite (byte_eqb_neq c newline Hc). simpl. apply IH.
Qed.

Lemma copy_bytes_newline (p q : list byte) :
  no_newline p ->
  forall d,
    copy_bytes (p ++ newline :: q) false d = (true, fold_left write1 p d).
Proof.
  induction 1 as [|c p Hc Hp IH]; intros d; rewrite copy_bytes_eq;
    cbn [app].
  - rewrite byte_eqb_refl. cbn [negb]. apply copy_bytes_done.
  - rewrite (byte_eqb_neq c newline Hc). cbn [negb]. apply IH.
Qed.

Lemma loop_copies_first_line (chunks : list (list byte)) :
  Forall (fun chunk => chunk <> []) chunks ->
  forall line rest d,
    concat chunks = line ++ rest ->
    no_newline line ->
    (rest = [] \/ exists rest', rest = newline :: rest') ->
    let d' := snd (write_pass_fd_loop (map ReadOk chunks) d) in
    writes_of (calls d') = writes_of (calls d) ++ map (fun b => [b]) line
    /\ (exists m, read_counts (calls d')
                  = read_counts (calls d) ++ repeat 40 (S m))
    /\ (accepts_all d -> received d' = received d ++ line /\ accepts_all d').
Proof.
  induction 1 as [|chunk chunks Hne Hall IH]; intros line rest d Hcat Hl Hrest;
    simpl; rewrite write_pass_fd_loop_eq; simpl.
  - symmetry in Hcat. apply app_eq_nil in Hcat as [-> ->]. simpl.
    rewrite writes_of_app, read_counts_app, !app_nil_r. simpl.
    repeat split; auto. now exists 0%nat.
  - assert (E : (Z.of_nat (length chunk) <? 1) = false).
    { apply Z.ltb_ge. destruct chunk; [contradiction | simpl length; lia]. }
    rewrite E. simpl in Hcat.
    destruct (newline_split chunk) as [Hc | (p & q & -> & Hp)].
    + rewrite (copy_bytes_line chunk Hc).
      destruct (chunk_of_first_line _ _ _ _ Hc Hl Hrest Hcat)
        as (line' & -> & Hcat').
      apply Forall_app in Hl as [_ Hl'].
      destruct (wrote_all chunk (log (Ev_read 40) d)) as (Hw & Hr & Ha).
      destruct (IH line' rest (fold_left write1 chunk (log (Ev_read 40) d))
                  Hcat' Hl' Hrest) as (Hw' & (m & Hr') & Ha').
      simpl in Hw, Hr, Ha.
      rewrite writes_of_app in Hw. rewrite read_counts_app in Hr.
      simpl in Hw, Hr. rewrite app_nil_r in Hw.
      split; [|split].
      * rewrite Hw', Hw, map_app, <- app_assoc. reflexivity.
      * exists (S m). rewrite Hr', Hr, <- app_assoc. reflexivity.
      * intros Hd. destruct (Ha Hd) as [Hrc Hacc].
        destruct (Ha' Hacc) as [Hrc' Hacc'].
        rewrite Hrc', Hrc, <- app_assoc. auto.
    + rewrite (copy_bytes_newline p q Hp). simpl.
      rewrite <- app_assoc in Hcat. simpl in Hcat.
      pose proof (first_line_unique _ _ _ _ Hp Hl Hrest Hcat) as <-.
      destruct (wrote_all p (log (Ev_read 40) d)) as (Hw & Hr & Ha).
      simpl in Hw, Hr, Ha.
      rewrite writes_of_app in Hw. rewrite read_counts_app in Hr.
      simpl in Hw, Hr. rewrite app_nil_r in Hw.
      split; [|split].
      * exact Hw.
      * exists 0%nat. exact Hr.
      * exact Ha.
Qed.

(** Whatever the reads return (data, end of input or an error), the loop
    writes some newline-free bytes of the source, one per call. *)
Lemma loop_copies (src : list read_result) :
  forall d,
    let d' := snd (write_pass_fd_loop src d) in
    exists copied,
      no_newline copied
      /\ writes_of (calls d') = writes_of (calls d) ++ map (fun b => [b]) copied
      /\ (exists m, read_counts (calls d')
                    = read_counts (calls d) ++ repeat 40 (S m))
      /\ (accepts_all d ->
          received d' = received d ++ copied /\ accepts_all d').
Proof.
  induction src as [|r src IH]; intros d; simpl;
    rewrite write_pass_fd_loop_eq; simpl.
  - exists []. rewrite writes_of_app, read_counts_app, !app_nil_r. simpl.
    repeat split; auto; [constructor | now exists 0%nat].
  - destruct (numread_of r <? 1) eqn:E.
    + rewrite copy_bytes_done. simpl.
      exists []. rewrite writes_of_app, read_counts_app, !app_nil_r. simpl.
      repeat split; auto; [constructor | now exists 0%nat].
    + destruct (newline_split (data_of r)) as [Hc | (p & q & Hd & Hp)].
      * rewrite (copy_bytes_line _ Hc).
        destruct (wrote_all (data_of r) (log (Ev_read 40) d))
          as (Hw & Hr & Ha).
        destruct (IH (fold_left write1 (data_of r) (log (Ev_read 40) d)))
          as (copied & Hnl & Hw' & (m & Hr') & Ha').
        simpl in Hw, Hr, Ha.
        rewrite writes_of_app in Hw. rewrite read_counts_app in Hr.
        simpl in Hw, Hr. rewrite app_nil_r in Hw.
        exists (data_of r ++ copied). split; [|split; [|split]].
        -- now apply Forall_app.
        -- rewrite Hw', Hw, map_app, <- app_assoc. reflexivity.
        -- exists (S m). rewrite Hr', Hr, <- app_assoc. reflexivity.
        -- intros Hacc0. destruct (Ha Hacc0) as [Hrc Hacc].
           destruct (Ha' Hacc) as [Hrc' Hacc'].
           rewrite Hrc', Hrc, <- app_assoc. auto.
      * rewrite Hd, (copy_bytes_newline p q Hp). simpl.
        destruct (wrote_all p (log (Ev_read 40) d)) as (Hw & Hr & Ha).
        simpl in Hw, Hr, Ha.
        rewrite writes_of_app in Hw. rewrite read_counts_app in Hr.
        simpl in Hw, Hr. rewrite app_nil_r in Hw.
        exists p. split; [assumption | split; [exact Hw | split]].
        -- now exists 0%nat.
        -- exact Ha.
Qed.

(** The loop followed by the closing write of a newline. *)
Lemma closing_newline (d0 d : fdio) (copied : list byte) :
  writes_of (calls d) = writes_of (calls d0) ++ map (fun b => [b]) copied ->
  (accepts_all d0 -> received d = received d0 ++ copied /\ accepts_all d) ->
  writes_of (calls (write1 d newline))
  = writes_of (calls d0) ++ map (fun b => [b]) copied ++ [[newline]]
  /\ (accepts_all d0 ->
      received (write1 d newline) = received d0 ++ copied ++ [newline]).
Proof.
  intros Hw Ha. split.
  - now rewrite write1_writes, Hw, <- app_assoc.
  - intros Hacc0. destruct (Ha Hacc0) as [Hrc Hacc].
    destruct (write1_received d newline Hacc) as [Hrc' _].
    now rewrite Hrc', Hrc, <- app_assoc.
Qed.

End WritePassFd.

Lemma sys_write_calls (d : fdio) (data : list byte) :
  calls (snd (sys_write d data)) = calls d ++ [Ev_write data].
Proof. unfold sys_write. now destruct (wr_results d). Qed.

Lemma naive_write1_writes d c :
  writes_of (calls (naive_write1 d c)) = writes_of (calls d) ++ [[c]].
Proof.
  unfold naive_write1. now rewrite sys_write_calls, writes_of_app.
Qed.

Lemma naive_write1_reads d c :
  read_counts (calls (naive_write1 d c)) = read_counts (calls d).
Proof.
  unfold naive_write1.
  now rewrite sys_write_calls, read_counts_app, app_nil_r.
Qed.

Lemma naive_write1_received d c :
  accepts_all d ->
  received (naive_write1 d c) = received d ++ [c]
  /\ accepts_all (naive_write1 d c).
Proof.
  intros H. destruct (accepts_all_write d c H) as (H1 & H2 & _). now split.
Qed.

(** [reliable_write] adds at most a diagnostic to what [write] did. *)
Lemma reliable_write_cases (d : fdio) (data : list byte) :
  let d' := snd (sys_write d data) in
  Trunk.reliable_write d data = d'
  \/ exists text, Trunk.reliable_write d data = log (Ev_stderr text) d'.
Proof.
  unfold Trunk.reliable_write.
  destruct (sys_write d data) as [result d']. simpl.
  destruct (negb (result =? Z.of_nat (length data))); [|now left].
  destruct (result <? 0); right; eexists; reflexivity.
Qed.

Lemma trunk_write1_writes d c :
  writes_of (calls (trunk_write1 d c)) = writes_of (calls d) ++ [[c]].
Proof.
  unfold trunk_write1.
  destruct (reliable_write_cases d [c]) as [-> | [text ->]]; simpl;
    rewrite ?writes_of_app, sys_write_calls, writes_of_app; simpl;
    now rewrite ?app_nil_r.
Qed.

Lemma trunk_write1_reads d c :
  read_counts (calls (trunk_write1 d c)) = read_counts (calls d).
Proof.
  unfold trunk_write1.
  destruct (reliable_write_cases d [c]) as [-> | [text ->]]; simpl;
    rewrite ?read_counts_app, sys_write_calls, read_counts_app; simpl;
    now rewrite ?app_nil_r.
Qed.

Lemma trunk_write1_received d c :
  accepts_all d ->
  received (trunk_write1 d c) = received d ++ [c]
  /\ accepts_all (trunk_write1 d c).
Proof.
  intros H. destruct (accepts_all_write d c H) as (H1 & H2 & H3).
  unfold trunk_write1, Trunk.reliable_write.
  destruct (sys_write d [c]) as [result d']. simpl in *. subst result.
  simpl. now split.
Qed.

Lemma naive_copy_bytes_eq buffer done d :
  Naive.copy_bytes buffer done d =
  match buffer with
  | [] => (done, d)
  | c :: rest =>
      if done then (done, d)
      else if negb (Byte.eqb c newline)
           then Naive.copy_bytes rest done (naive_write1 d c)
           else Naive.copy_bytes rest true d
  end.
Proof. now destruct buffer. Qed.

Lemma trunk_copy_bytes_eq buffer done d :
  Trunk.copy_bytes buffer done d =
  match buffer with
  | [] => (done, d)
  | c :: rest =>
      if done then (done, d)
      else if negb (Byte.eqb c newline)
           then Trunk.copy_bytes rest done (trunk_write1 d c)
           else Trunk.copy_bytes rest true d
  end.
Proof. now destruct buffer. Qed.

Lemma naive_loop_eq src d :
  Naive.write_pass_fd_loop src d =
  let d := log (Ev_read 40) d in
  match src with
  | [] => ([], d)
  | r :: rest =>
      let numread := numread_of r in
      let done := numread <? 1 in
      let '(done, d) := Naive.copy_bytes (data_of r) done d in
      if done then (rest, d) else Naive.write_pass_fd_loop rest d
  end.
Proof. now destruct src. Qed.

Lemma trunk_loop_eq src d :
  Trunk.write_pass_fd_loop src d =
  let d := log (Ev_read 40) d in
  match src with
  | [] => ([], d)
  | r :: rest =>
      let numread := numread_of r in
      let done := numread <? 1 in
      let '(done, d) := Trunk.copy_bytes (data_of r) done d in
      if done then (rest, d) else Trunk.write_pass_fd_loop rest d
  end.
Proof. now destruct src. Qed.

Lemma naive_write_pass_fd_eq src d :
  snd (Naive.write_pass_fd src d)
  = naive_write1 (snd (Naive.write_pass_fd_loop src d)) newline.
Proof.
  unfold Naive.write_pass_fd. now destruct (Naive.write_pass_fd_loop src d).
Qed.

Lemma trunk_write_pass_fd_eq src d :
  snd (Trunk.write_pass_fd src d)
  = trunk_write1 (snd (Trunk.write_pass_fd_loop src d)) newline.
Proof.
  unfold Trunk.write_pass_fd. now destruct (Trunk.write_pass_fd_loop src d).
Qed.

(** C5: in both releases [write_pass_fd] reads in chunks of at most 40
    bytes and writes byte by byte; whatever the reads return, it writes
    newline-free bytes of the source and then exactly one newline; and for
    a source whose first line is [line] (followed by a newline or by the
    end of input, in any chunking) the writes are the bytes of [line] and
    one newline, which is what a destination that accepts every byte has
    received. *)
Theorem write_pass_fd_sends_first_line :
  (forall src d,
      exists sent,
        no_newline sent
        /\ sends d (snd (Trunk.write_pass_fd src d)) sent)
  /\ (forall src d,
      exists sent,
        no_newline sent
        /\ sends d (snd (Naive.write_pass_fd src d)) sent)
  /\ (forall chunks line rest d,
      Forall (fun chunk => chunk <> []) chunks ->
      concat chunks = line ++ rest ->
      no_newline line ->
      (rest = [] \/ exists rest', rest = newline :: rest') ->
      sends d (snd (Trunk.write_pass_fd (map ReadOk chunks) d)) line
      /\ sends d (snd (Naive.write_pass_fd (map ReadOk chunks) d)) line).
Proof.
  unfold sends. split; [|split].
  - intros src d. rewrite trunk_write_pass_fd_eq.
    destruct (loop_copies trunk_write1 Trunk.copy_bytes
                Trunk.write_pass_fd_loop trunk_write1_writes
                trunk_write1_reads trunk_write1_received
                trunk_copy_bytes_eq trunk_loop_eq src d)
      as (sent & Hnl & Hw & Hr & Ha).
    exists sent. split; [assumption|].
    destruct (closing_newline trunk_write1 trunk_write1_writes
                trunk_write1_received d _ sent Hw Ha) as [Hw' Ha'].
    rewrite trunk_write1_reads. auto.
  - intros src d. rewrite naive_write_pass_fd_eq.
    destruct (loop_copies naive_write1 Naive.copy_bytes
                Naive.write_pass_fd_loop naive_write1_writes
                naive_write1_reads naive_write1_received
                naive_copy_bytes_eq naive_loop_eq src d)
      as (sent & Hnl & Hw & Hr & Ha).
    exists sent. split; [assumption|].
    destruct (closing_newline naive_write1 naive_write1_writes
                naive_write1_received d _ sent Hw Ha) as [Hw' Ha'].
    rewrite naive_write1_reads. auto.
  - intros chunks line rest d Hne Hcat Hl Hrest. split.
    + rewrite trunk_write_pass_fd_eq.
      destruct (loop_copies_first_line trunk_write1 Trunk.copy_bytes
                  Trunk.write_pass_fd_loop trunk_write1_writes
                  trunk_write1_reads trunk_write1_received
                  trunk_copy_bytes_eq trunk_loop_eq chunks Hne line rest d
                  Hcat Hl Hrest) as (Hw & Hr & Ha).
      destruct (closing_newline trunk_write1 trunk_write1_writes
                  trunk_write1_received d _ line Hw Ha) as [Hw' Ha'].
      rewrite trunk_write1_reads. auto.
    + rewrite naive_write_pass_fd_eq.
      destruct (loop_copies_first_line naive_write1 Naive.copy_bytes
                  Naive.write_pass_fd_loop naive_write1_writes
                  naive_write1_reads naive_write1_received
                  naive_copy_bytes_eq naive_loop_eq chunks Hne line rest d
                  Hcat Hl Hrest) as (Hw & Hr & Ha).
      destruct (closing_newline naive_write1 naive_write1_writes
                  naive_write1_received d _ line Hw Ha) as [Hw' Ha'].
      rewrite naive_write1_reads. auto.
Qed.

Lemma write_pass_fd_sends_first_line_witness :
  sends (fdio_init [])
    (snd (Trunk.write_pass_fd (map ReadOk [bytes "sec"; bytes "ret"])
            (fdio_init [])))
    (bytes "secret")
  /\ sends (fdio_init [])
       (snd (Naive.write_pass_fd (map ReadOk [bytes "sec"; bytes "ret"])
               (fdio_init [])))
       (bytes "secret").
Proof.
  apply (proj2 (proj2 write_pass_fd_sends_first_line)
           [bytes "sec"; bytes "ret"] (bytes "secret") [] (fdio_init [])).
  - repeat constructor; discriminate.
  - reflexivity.
  - repeat constructor; discriminate.
  - now left.
Defined.

(** ** handleoutput: one reply per run *)

Section Handleoutput.
Context {P : Platform}.

Lemma count_events_app (p : event -> bool) (a b : trace) :
  count_events p (a ++ b) = (count_events p a + count_events p b)%nat.
Proof. unfold count_events. now rewrite filter_app, length_app. Qed.

Lemma count_events_when (p : event -> bool) (c : bool) (text : string) :
  count_events p (Trunk.when c [Ev_stderr text])
  = if c && p (Ev_stderr text) then 1%nat else 0%nat.
Proof. destruct c; simpl; [|reflexivity]. unfold count_events. simpl.
  now destruct (p (Ev_stderr text)). Qed.

(** A failed read leaves the call undefined; a read that succeeds does
    not. *)
Lemma handleoutput_failed_read (a : Trunk.args_t) (st : Trunk.statics) :
  Trunk.handleoutput a st ReadErr = None.
Proof. reflexivity. Qed.

Lemma numread_of_data (data : list byte) :
  (numread_of (ReadOk data) <? 0) = false.
Proof. apply Z.ltb_ge. simpl. lia. Qed.

Lemma call_of_read (a : Trunk.args_t) (st : Trunk.statics) (rd : read_result)
  (c : call) :
  call_of a st rd = Some c -> exists data, rd = ReadOk data.
Proof.
  destruct rd as [data|]; [now exists data|].
  unfold call_of. now rewrite handleoutput_failed_read.
Qed.

Lemma call_of_defined (a : Trunk.args_t) (st : Trunk.statics)
  (data : list byte) :
  exists c, call_of a st (ReadOk data) = Some c.
Proof.
  unfold call_of, Trunk.handleoutput. rewrite numread_of_data.
  set (s1 := Trunk.match_ (Trunk.compare1 a) _ _ _).
  set (s2 := Trunk.match_ Trunk.compare2 _ _ _).
  set (s3 := Trunk.match_ Trunk.compare3 _ _ _).
  clearbody s1 s2 s3.
  destruct (Byte.eqb (char_at (Trunk.compare1 a) s1) NUL);
    destruct (Trunk.prevmatch st =? 0);
    cbn [Z.eqb code_of enum_index enumerators rc_eqb Z.add];
    destruct (Byte.eqb (char_at Trunk.compare2 s2) NUL);
    eexists; reflexivity.
Qed.

(** One call: at most one [write_pass]; a complete prompt is answered when
    no reply was sent before, and otherwise ends the call with
    RETURN_INCORRECT_PASSWORD before the host-key phrases are looked at. *)
Lemma call_of_spec (a : Trunk.args_t) (st : Trunk.statics) (rd : read_result)
  (c : call) :
  call_of a st rd = Some c ->
  c_before c = st
  /\ (c_full c = true -> Trunk.prevmatch st = 0 ->
        count_events is_write_pass (c_events c) = 1%nat
        /\ Trunk.prevmatch (c_after c) = 1
        /\ Trunk.state1 (c_after c) = 0)
  /\ (c_full c = true -> Trunk.prevmatch st <> 0 ->
        c_ret c = code_of RETURN_INCORRECT_PASSWORD
        /\ count_events is_write_pass (c_events c) = 0%nat
        /\ count_events (is_match_of 2) (c_events c) = 0%nat
        /\ count_events (is_match_of 3) (c_events c) = 0%nat
        /\ Trunk.state2 (c_after c) = Trunk.state2 st
        /\ Trunk.state3 (c_after c) = Trunk.state3 st
        /\ Trunk.prevmatch (c_after c) = Trunk.prevmatch st)
  /\ (c_full c = false ->
        count_events is_write_pass (c_events c) = 0%nat
        /\ Trunk.prevmatch (c_after c) = Trunk.prevmatch st).
Proof.
  unfold call_of, full_match, Trunk.handleoutput, complete.
  destruct (numread_of rd <? 0); [discriminate|].
  set (s1 := Trunk.match_ (Trunk.compare1 a) _ _ _).
  set (s2 := Trunk.match_ Trunk.compare2 _ _ _).
  set (s3 := Trunk.match_ Trunk.compare3 _ _ _).
  clearbody s1 s2 s3.
  destruct (Trunk.verbose a =? 0), (Trunk.firsttime st =? 0);
    destruct (Byte.eqb (char_at (Trunk.compare1 a) s1) NUL);
    destruct (Z.eqb_spec (Trunk.prevmatch st) 0) as [Hprev|Hprev];
    cbn [negb andb Z.eqb code_of enum_index enumerators rc_eqb Z.add];
    destruct (Byte.eqb (char_at Trunk.compare2 s2) NUL);
    destruct (Byte.eqb (char_at Trunk.compare3 s3) NUL);
    intros [= <-]; cbn;
    repeat split; intros; try discriminate; try contradiction;
    try reflexivity; try assumption.
Qed.

(** The flag [prevmatch] is 0 until a prompt is complete and 1 from then
    on, and it counts the calls of [write_pass]. *)
Lemma call_of_prevmatch (a : Trunk.args_t) (st : Trunk.statics)
  (rd : read_result) (c : call) :
  call_of a st rd = Some c ->
  Trunk.prevmatch st = 0 \/ Trunk.prevmatch st = 1 ->
  Trunk.prevmatch (c_after c) = (if c_full c then 1 else Trunk.prevmatch st)
  /\ Z.of_nat (count_events is_write_pass (c_events c)) + Trunk.prevmatch st
     = Trunk.prevmatch (c_after c).
Proof.
  intros Hcall Hst.
  destruct (call_of_spec a st rd c Hcall) as (_ & Hfirst & Hagain & Hnone).
  destruct (c_full c).
  - destruct Hst as [H0 | H1].
    + destruct (Hfirst eq_refl H0) as (Hc & Hp & _). rewrite Hc, Hp. lia.
    + assert (Hne : Trunk.prevmatch st <> 0) by lia.
      destruct (Hagain eq_refl Hne) as (_ & Hc & _ & _ & _ & _ & Hp).
      rewrite Hc, Hp. lia.
  - destruct (Hnone eq_refl) as [Hc Hp]. rewrite Hc, Hp. lia.
Qed.

Lemma call_of_prevmatch_range (a : Trunk.args_t) (st : Trunk.statics)
  (rd : read_result) (c : call) :
  call_of a st rd = Some c ->
  Trunk.prevmatch st = 0 \/ Trunk.prevmatch st = 1 ->
  Trunk.prevmatch (c_after c) = 0 \/ Trunk.prevmatch (c_after c) = 1.
Proof.
  intros Hcall Hst.
  destruct (call_of_prevmatch a st rd c Hcall Hst) as [Hp _].
  rewrite Hp. destruct (c_full c); auto.
Qed.

Lemma calls_before (a : Trunk.args_t) (batches : list read_result) :
  forall st,
    Trunk.prevmatch st = 0 \/ Trunk.prevmatch st = 1 ->
    forall pre c post,
      handleoutput_calls a st batches = pre ++ c :: post ->
      (exists rd, call_of a (c_before c) rd = Some c)
      /\ Trunk.prevmatch (c_before c)
         = (if existsb c_full pre then 1 else Trunk.prevmatch st).
Proof.
  induction batches as [|rd batches IH]; intros st Hst pre c post H;
    simpl in H.
  - destruct pre; discriminate.
  - destruct (call_of a st rd) as [c0|] eqn:Ecall;
      [|destruct pre; discriminate].
    destruct (call_of_spec a st rd c0 Ecall) as (Hb & _).
    destruct pre as [|c1 pre]; simpl in H; injection H as <- H.
    + simpl. rewrite Hb. split; [now exists rd | reflexivity].
    + destruct (call_of_prevmatch a st rd c0 Ecall Hst) as [Hp _].
      pose proof (call_of_prevmatch_range a st rd c0 Ecall Hst) as Hst'.
      destruct (IH _ Hst' pre c post H) as [Hrd Hpre].
      split; [exact Hrd|]. simpl. rewrite Hpre, Hp.
      destruct (c_full c0); simpl;
        destruct (existsb c_full pre); reflexivity.
Qed.

Lemma calls_write_pass_count (a : Trunk.args_t) (batches : list read_result) :
  forall st,
    Trunk.prevmatch st = 0 \/ Trunk.prevmatch st = 1 ->
    Z.of_nat
      (count_events is_write_pass
         (events_of (handleoutput_calls a st batches)))
    + Trunk.prevmatch st <= 1.
Proof.
  unfold events_of.
  induction batches as [|rd batches IH]; intros st Hst; simpl.
  - unfold count_events. simpl. lia.
  - destruct (call_of a st rd) as [c|] eqn:Ecall.
    + destruct (call_of_prevmatch a st rd c Ecall Hst) as [Hp Hc].
      pose proof (call_of_prevmatch_range a st rd c Ecall Hst) as Hst'.
      specialize (IH _ Hst'). simpl. rewrite count_events_app. lia.
    + unfold count_events. simpl. lia.
Qed.

End Handleoutput.

(** C1: in every run of [handleoutput] over successive read batches,
    [write_pass] is called at most once; the first call that finds the
    prompt complete calls it once and sets the flag; every later call that
    finds the prompt complete returns RETURN_INCORRECT_PASSWORD, does not
    call [write_pass], and does not look at the two host-key phrases. *)
Theorem password_is_sent_at_most_once {P : Platform}
  (a : Trunk.args_t) (batches : list read_result) :
  let calls := handleoutput_calls a Trunk.statics_init batches in
  (count_events is_write_pass (events_of calls) <= 1)%nat
  /\ forall pre c post,
       calls = pre ++ c :: post ->
       c_full c = true ->
       (existsb c_full pre = false ->
          count_events is_write_pass (c_events c) = 1%nat
          /\ Trunk.prevmatch (c_before c) = 0
          /\ Trunk.prevmatch (c_after c) = 1)
       /\ (existsb c_full pre = true ->
           c_ret c = code_of RETURN_INCORRECT_PASSWORD
           /\ c_ret c = 5
           /\ count_events is_write_pass (c_events c) = 0%nat
           /\ count_events (is_match_of 2) (c_events c) = 0%nat
           /\ count_events (is_match_of 3) (c_events c) = 0%nat
           /\ Trunk.state2 (c_after c) = Trunk.state2 (c_before c)
           /\ Trunk.state3 (c_after c) = Trunk.state3 (c_before c)).
Proof.
  intros calls. split.
  - pose proof (calls_write_pass_count a batches Trunk.statics_init
                  (or_introl eq_refl)) as H.
    fold calls in H. simpl in H. lia.
  - intros pre c post Hsplit Hfull.
    destruct (calls_before a batches Trunk.statics_init (or_introl eq_refl)
                pre c post Hsplit) as [[rd Hrd] Hprev].
    destruct (call_of_spec a (c_before c) rd c Hrd)
      as (_ & Hfirst & Hagain & _).
    split; intros Hpre; rewrite Hpre in Hprev; simpl in Hprev.
    + destruct (Hfirst Hfull Hprev) as (Hc & Hp & _). auto.
    + assert (Hne : Trunk.prevmatch (c_before c) <> 0) by lia.
      destruct (Hagain Hfull Hne) as (Hr & Hc & H2 & H3 & Hs2 & Hs3 & _).
      repeat split; auto.
Qed.

Lemma password_is_sent_at_most_once_witness :
  exists first_prompt second_prompt,
    prompt_twice_calls = [first_prompt; second_prompt]
    /\ c_ret second_prompt = 5
    /\ count_events is_write_pass (c_events first_prompt) = 1%nat
    /\ count_events is_write_pass (c_events second_prompt) = 0%nat.
Proof.
  destruct (password_is_sent_at_most_once (P := linux) secret_args
              prompt_twice) as [_ H].
  fold prompt_twice_calls in H.
  destruct prompt_twice_calls as [|c1 [|c2 [|c3 rest]]] eqn:E;
    try (vm_compute in E; discriminate).
  assert (Hfull : c_full c1 = true /\ c_full c2 = true)
    by (vm_compute in E; injection E as <- <-; split; reflexivity).
  destruct (H [] c1 [c2] eq_refl (proj1 Hfull)) as [H1 _].
  destruct (H [c1] c2 [] eq_refl (proj2 Hfull)) as [_ H2].
  destruct (H1 eq_refl) as (Hw1 & _).
  assert (Hpre : existsb c_full [c1] = true)
    by (simpl; now rewrite (proj1 Hfull)).
  destruct (H2 Hpre) as (_ & Hr & Hw2 & _).
  exists c1, c2. repeat split; assumption.
Defined.

(** ** The option scan and the pseudo-terminal set-up *)

Ltac by_option opt :=
  repeat match goal with
         | |- context [Ascii.eqb opt ?x] =>
             destruct (Ascii.eqb_spec opt x) as [->|?]; cbn
         | H : context [Ascii.eqb opt ?x] |- _ =>
             destruct (Ascii.eqb_spec opt x) as [->|?]; cbn in H
         end.

Section OptionScan.
Context {P : Platform}.

Lemma parse_switch_source c opt optarg a error tr :
  is_pwsource opt = true -> stops_scan c opt = false ->
  exists a',
    Trunk.parse_switch c opt optarg a error tr
    = Some (a', fst (Trunk.VIRGIN_PWTYPE a error tr),
            snd (Trunk.VIRGIN_PWTYPE a error tr))
    /\ Trunk.pwtype a' <> Trunk.PWT_STDIN.
Proof.
  unfold is_pwsource, stops_scan, Trunk.parse_switch. intros Hs Hq.
  destruct (Trunk.VIRGIN_PWTYPE a error tr) as [error' tr'].
  by_option opt; try discriminate;
    try (eexists; split; [reflexivity | discriminate]).
  destruct (Trunk.getenv_SSHPASS c); [|discriminate].
  eexists; split; [reflexivity | discriminate].
Qed.

Lemma parse_switch_other c opt optarg a error tr :
  is_pwsource opt = false -> stops_scan c opt = false ->
  exists a',
    Trunk.parse_switch c opt optarg a error tr = Some (a', error, tr)
    /\ Trunk.pwtype a' = Trunk.pwtype a.
Proof.
  unfold is_pwsource, stops_scan, Trunk.parse_switch. intros Hs Hq.
  by_option opt; try discriminate;
    eexists; split; reflexivity.
Qed.

End OptionScan.

Section Conflict.
Context {P : Platform}.

Lemma VIRGIN_PWTYPE_taken a error tr :
  Trunk.pwtype a <> Trunk.PWT_STDIN ->
  Trunk.VIRGIN_PWTYPE a error tr
  = (code_of RETURN_CONFLICTING_ARGUMENTS, tr ++ [Ev_stderr conflict_text]).
Proof.
  unfold Trunk.VIRGIN_PWTYPE. now destruct (Trunk.pwtype a).
Qed.

Lemma VIRGIN_PWTYPE_virgin a error tr :
  Trunk.pwtype a = Trunk.PWT_STDIN ->
  Trunk.VIRGIN_PWTYPE a error tr = (error, tr).
Proof. unfold Trunk.VIRGIN_PWTYPE. now intros ->. Qed.

Lemma parse_loop_error c opts a error tr :
  error <> -1 ->
  Trunk.parse_loop c opts a error tr
  = (Trunk.Parsed (Trunk.parse_return c error), a, tr).
Proof.
  intros H. apply Z.eqb_neq in H.
  destruct opts as [|[opt optarg] rest]; simpl; [reflexivity|].
  now rewrite H.
Qed.

Lemma has_stderr_app text a b :
  has_stderr text (a ++ b) = has_stderr text a || has_stderr text b.
Proof. apply existsb_app. Qed.

(** The scan stops with the conflict once a second source is reached. *)
Lemma parse_loop_conflict c x post :
  is_pwsource (fst x) = true ->
  forall pre a tr,
    passes c (pre ++ [x]) = true ->
    Trunk.pwtype a <> Trunk.PWT_STDIN
    \/ existsb is_pwsource (map fst pre) = true ->
    exists a' tr',
      Trunk.parse_loop c (pre ++ x :: post) a (-1) tr
      = (Trunk.Parsed (- (code_of RETURN_CONFLICTING_ARGUMENTS + 1)), a', tr')
      /\ has_stderr conflict_text tr' = true
      /\ count_events is_fork tr' = count_events is_fork tr.
Proof.
  intros Hx. induction pre as [|y pre IH]; intros a tr Hpass Hsrc.
  - destruct Hsrc as [Hsrc|Hsrc]; [|discriminate].
    destruct x as [opt optarg]. simpl in *.
    rewrite andb_true_r in Hpass. apply negb_true_iff in Hpass.
    destruct (parse_switch_source c opt optarg a (-1) tr Hx Hpass)
      as (a' & -> & _).
    rewrite (VIRGIN_PWTYPE_taken a _ tr Hsrc). simpl fst. simpl snd.
    rewrite parse_loop_error by (cbn; lia).
    exists a', (tr ++ [Ev_stderr conflict_text]). split; [reflexivity|].
    rewrite has_stderr_app, count_events_app. simpl.
    rewrite orb_true_r. split; [reflexivity | unfold count_events; simpl; lia].
  - destruct y as [opt optarg]. simpl in Hpass.
    apply andb_true_iff in Hpass as [Hy Hpass]. apply negb_true_iff in Hy.
    cbn [app Trunk.parse_loop Z.eqb negb].
    destruct (is_pwsource opt) eqn:Eopt.
    + destruct (parse_switch_source c opt optarg a (-1) tr Eopt Hy)
        as (a' & -> & Ha').
      destruct (Trunk.pwtype_eqb (Trunk.pwtype a) Trunk.PWT_STDIN) eqn:Ea.
      * rewrite VIRGIN_PWTYPE_virgin by (now destruct (Trunk.pwtype a)).
        simpl fst. simpl snd. apply IH; [assumption | now left].
      * rewrite VIRGIN_PWTYPE_taken
          by (intros E; rewrite E in Ea; discriminate).
        simpl fst. simpl snd.
        rewrite parse_loop_error by (cbn; lia).
        exists a', (tr ++ [Ev_stderr conflict_text]). split; [reflexivity|].
        rewrite has_stderr_app, count_events_app. simpl.
        rewrite orb_true_r.
        split; [reflexivity | unfold count_events; simpl; lia].
    + destruct (parse_switch_other c opt optarg a (-1) tr Eopt Hy)
        as (a' & -> & Ha').
      apply IH; [assumption|].
      destruct Hsrc as [Hsrc|Hsrc]; [left; now rewrite Ha'|].
      right. simpl in Hsrc. now rewrite Eopt in Hsrc.
Qed.

End Conflict.

(** C8, as the code has it: when the option scan reaches a second
    password-source option (-f, -d, -p, -e) and no option up to there is
    unknown, lacks its argument, is -h or -V, or is -e with SSHPASS unset,
    the scan reports the conflicting password source and the program ends
    with exit code 2; nothing is forked. *)
Theorem conflicting_sources_exit_2 {P : Platform}
  (c : Trunk.cmdline) (o : Trunk.os)
  (pre : list (ascii * string)) (opt : ascii) (optarg : string)
  (post : list (ascii * string)) :
  Trunk.getopt_seq c = pre ++ (opt, optarg) :: post ->
  passes c (pre ++ [(opt, optarg)]) = true ->
  existsb is_pwsource (map fst pre) = true ->
  is_pwsource opt = true ->
  fst (Trunk.main c o) = Returns (code_of RETURN_CONFLICTING_ARGUMENTS)
  /\ exit_code (fst (Trunk.main c o)) = Some 2
  /\ has_stderr conflict_text (snd (Trunk.main c o)) = true
  /\ count_events is_fork (snd (Trunk.main c o)) = 0%nat.
Proof.
  intros Hseq Hpass Hpre Hopt.
  unfold Trunk.main, Trunk.parse_options. rewrite Hseq.
  match goal with
  | |- context [Trunk.parse_loop c _ ?a (-1) []] =>
      destruct (parse_loop_conflict c (opt, optarg) post Hopt pre a []
                  Hpass (or_intror Hpre)) as (a' & tr' & -> & Hmsg & Hfork)
  end.
  cbn [Z.ltb Z.compare code_of enum_index enumerators rc_eqb Z.add Z.opp
       fst snd exit_code].
  rewrite has_stderr_app, count_events_app, Hmsg, Hfork.
  repeat split.
Qed.

Lemma conflicting_sources_exit_2_witness :
  exit_code (fst (Trunk.main (P := linux) file_then_password no_os)) = Some 2
  /\ count_events is_fork
       (snd (Trunk.main (P := linux) file_then_password no_os)) = 0%nat.
Proof.
  destruct (conflicting_sources_exit_2 (P := linux) file_then_password no_os
              [("f"%char, "file"%string); ("v"%char, ""%string)]
              "p"%char "secret"%string [] eq_refl eq_refl eq_refl eq_refl)
    as (_ & H2 & _ & H4).
  split; [exact H2 | exact H4].
Defined.

(** C8 as stated fails: both command lines name two password sources; the
    first ends with exit code 0 (the help was asked for first), the second
    reports the conflict and then ends with exit code 1. *)
Lemma two_sources_without_exit_2 :
  (length (filter (fun x => is_pwsource (fst x))
             (Trunk.getopt_seq help_then_two_sources)) = 2%nat
   /\ exit_code (fst (Trunk.main (P := linux) help_then_two_sources no_os))
      = Some 0)
  /\ (length (filter (fun x => is_pwsource (fst x))
                (Trunk.getopt_seq password_then_unset_env)) = 2%nat
      /\ has_stderr conflict_text
           (snd (Trunk.main (P := linux) password_then_unset_env no_os))
         = true
      /\ exit_code (fst (Trunk.main (P := linux) password_then_unset_env no_os))
         = Some 1).
Proof. repeat split. Qed.

(** ** Exit codes *)

Section Supervisor.
Context {P : Platform}.

Lemma parse_switch_trace c opt optarg a error tr :
  forall a' e' tr',
    Trunk.parse_switch c opt optarg a error tr = Some (a', e', tr') ->
    count_events is_fork tr' = count_events is_fork tr
    /\ (e' = error \/ e' = 0 \/ e' = 1 \/ e' = 2).
Proof.
  unfold Trunk.parse_switch, Trunk.VIRGIN_PWTYPE.
  destruct (Trunk.pwtype_eqb (Trunk.pwtype a) Trunk.PWT_STDIN);
    destruct (Trunk.getenv_SSHPASS c);
    by_option opt; intros a' e' tr' [= <- <- <-];
    rewrite ?count_events_app; cbn; split; auto; lia.
Qed.

Lemma parse_loop_trace c opts :
  forall a error tr r a' tr',
    scan_error error ->
    Trunk.parse_loop c opts a error tr = (r, a', tr') ->
    count_events is_fork tr' = count_events is_fork tr
    /\ (forall ret, r = Trunk.Parsed ret ->
          exists e, scan_error e /\ ret = Trunk.parse_return c e).
Proof.
  induction opts as [|[opt optarg] opts IH]; intros a error tr r a' tr' He H;
    simpl in H.
  - injection H as <- <- <-. split; [reflexivity|].
    intros ret [= <-]. now exists error.
  - destruct (negb (error =? -1)).
    + injection H as <- <- <-. split; [reflexivity|].
      intros ret [= <-]. now exists error.
    + destruct (Trunk.parse_switch c opt optarg a error tr)
        as [[[a1 e1] tr1]|] eqn:Esw.
      * destruct (parse_switch_trace _ _ _ _ _ _ _ _ _ Esw) as [Hf He1].
        assert (He1' : scan_error e1)
          by (unfold scan_error in *; intuition lia).
        destruct (IH _ _ _ _ _ _ He1' H) as [Hf' Hret].
        split; [congruence | exact Hret].
      * injection H as <- <- <-. rewrite count_events_app. cbn.
        split; [lia | discriminate].
Qed.

Lemma parse_options_trace c r a tr :
  Trunk.parse_options c = (r, a, tr) ->
  count_events is_fork tr = 0%nat
  /\ (forall ret, r = Trunk.Parsed ret ->
        exists e, scan_error e /\ ret = Trunk.parse_return c e).
Proof.
  unfold Trunk.parse_options. intros H.
  apply parse_loop_trace in H; [exact H | now left].
Qed.

Lemma runprogram_pty_fails a o :
  pty_fails o ->
  fst (Trunk.runprogram a o) = Returns (code_of RETURN_RUNTIME_ERROR)
  /\ count_events is_fork (snd (Trunk.runprogram a o)) = 0%nat.
Proof.
  unfold pty_fails, Trunk.runprogram. intros H.
  destruct (Z.eqb_spec (Trunk.os_posix_openpt o) (-1)); [now split|].
  destruct (Z.eqb_spec (Trunk.os_grantpt o) 0); [|now split].
  destruct (Z.eqb_spec (Trunk.os_unlockpt o) 0); [|now split].
  intuition congruence.
Qed.

Lemma naive_runprogram_pty_fails o :
  naive_pty_fails o ->
  fst (Naive.runprogram o) = Returns 1
  /\ count_events is_fork (snd (Naive.runprogram o)) = 0%nat.
Proof.
  unfold naive_pty_fails, Naive.runprogram. intros H.
  destruct (Z.eqb_spec (Naive.os_getpt o) (-1)); [now split|].
  destruct (Z.eqb_spec (Naive.os_grantpt o) 0); [|now split].
  destruct (Z.eqb_spec (Naive.os_unlockpt o) 0); [|now split].
  intuition congruence.
Qed.

Lemma naive_parse_switch_trace c opt optarg a error tr :
  count_events is_fork (snd (Naive.parse_switch c opt optarg a error tr))
  = count_events is_fork tr.
Proof.
  unfold Naive.parse_switch, Naive.VIRGIN_PWTYPE.
  destruct (Naive.pwtype_eqb (Naive.pwtype a) Naive.PWT_STDIN);
    by_option opt; unfold count_events;
    rewrite ?filter_app, ?length_app; cbn; lia.
Qed.

Lemma naive_parse_loop_trace c opts :
  forall a error tr,
    count_events is_fork (snd (Naive.parse_loop c opts a error tr))
    = count_events is_fork tr.
Proof.
  induction opts as [|[opt optarg] opts IH]; intros a error tr; simpl;
    [reflexivity|].
  destruct (negb (error =? 0)); [reflexivity|].
  pose proof (naive_parse_switch_trace c opt optarg a error tr) as H.
  destruct (Naive.parse_switch c opt optarg a error tr) as [[a1 e1] tr1].
  simpl in H. now rewrite IH.
Qed.

Lemma naive_main_runs_program c o r a tr :
  Naive.parse_options c = (r, a, tr) ->
  0 <= r ->
  Naive.main c o
  = (fst (Naive.runprogram o), tr ++ snd (Naive.runprogram o)).
Proof.
  intros Hp Hr. unfold Naive.main. rewrite Hp.
  destruct (Z.ltb_spec r 0); [lia|].
  now destruct (Naive.runprogram o).
Qed.

(** [main] hands on what [runprogram] returns when the options are in
    order and a command is given. *)
Lemma main_runs_program c o r a tr :
  Trunk.parse_options c = (Trunk.Parsed r, a, tr) ->
  0 <= r -> 1 <= Trunk.argc c - r ->
  Trunk.main c o
  = (fst (Trunk.runprogram (Trunk.strdup_password a) o),
     tr ++ snd (Trunk.runprogram (Trunk.strdup_password a) o)).
Proof.
  intros Hp Hr Hc. unfold Trunk.main. rewrite Hp.
  destruct (Z.ltb_spec r 0); [lia|].
  destruct (Z.ltb_spec (Trunk.argc c - r) 1); [lia|].
  now destruct (Trunk.runprogram _ o).
Qed.

End Supervisor.

(** C9, as the code has it: when the allocation of the pseudo-terminal,
    the grant of its permissions or its unlocking fails, [runprogram]
    returns before any fork is attempted, and what it returns is the exit
    code of the program; the signal-hardened release returns
    RETURN_RUNTIME_ERROR, which is 3, the first release returns 1. *)
Theorem pty_failure_returns_before_fork {P : Platform} :
  (forall a o,
      pty_fails o ->
      fst (Trunk.runprogram a o) = Returns (code_of RETURN_RUNTIME_ERROR)
      /\ code_of RETURN_RUNTIME_ERROR = 3
      /\ count_events is_fork (snd (Trunk.runprogram a o)) = 0%nat)
  /\ (forall c o r a tr,
      Trunk.parse_options c = (Trunk.Parsed r, a, tr) ->
      0 <= r -> 1 <= Trunk.argc c - r ->
      pty_fails o ->
      exit_code (fst (Trunk.main c o)) = Some 3
      /\ count_events is_fork (snd (Trunk.main c o)) = 0%nat)
  /\ (forall o,
      naive_pty_fails o ->
      fst (Naive.runprogram o) = Returns 1
      /\ count_events is_fork (snd (Naive.runprogram o)) = 0%nat)
  /\ (forall c o r a tr,
      Naive.parse_options c = (r, a, tr) ->
      0 <= r ->
      naive_pty_fails o ->
      exit_code (fst (Naive.main c o)) = Some 1
      /\ count_events is_fork (snd (Naive.main c o)) = 0%nat).
Proof.
  split; [|split; [|split]].
  - intros a o H. destruct (runprogram_pty_fails a o H) as [H1 H2].
    repeat split; assumption.
  - intros c o r a tr Hp Hr Hc H.
    rewrite (main_runs_program c o r a tr Hp Hr Hc). simpl.
    destruct (runprogram_pty_fails (Trunk.strdup_password a) o H) as [-> H2].
    destruct (parse_options_trace c _ a tr Hp) as [Hf _].
    rewrite count_events_app, Hf, H2. split; reflexivity.
  - intros o H. now apply naive_runprogram_pty_fails.
  - intros c o r a tr Hp Hr H.
    rewrite (naive_main_runs_program c o r a tr Hp Hr). simpl.
    destruct (naive_runprogram_pty_fails o H) as [-> H2].
    pose proof (naive_parse_loop_trace c (Naive.getopt_seq c)
                  {| Naive.pwtype := Naive.PWT_STDIN;
                     Naive.pwsrc := Naive.Pwsrc_fd 0 |} 0 []) as Hf.
    fold (Naive.parse_options c) in Hf. rewrite Hp in Hf. simpl in Hf.
    rewrite count_events_app, Hf, H2. split; reflexivity.
Qed.

Lemma pty_failure_returns_before_fork_witness :
  exit_code (fst (Trunk.main (P := linux) password_on_command_line no_os))
  = Some 3
  /\ count_events is_fork
       (snd (Trunk.main (P := linux) password_on_command_line no_os))
     = 0%nat.
Proof.
  refine (proj1 (proj2 (pty_failure_returns_before_fork (P := linux)))
            password_on_command_line no_os 3 _ _ eq_refl _ _ _).
  - lia.
  - simpl; lia.
  - left. reflexivity.
Defined.

(** C9 as stated fails for the first release: without a pseudo-terminal
    its [runprogram] returns 1, and 1, not 3, is the exit code. *)
Lemma naive_pty_failure_returns_1 :
  Naive.os_getpt naive_no_pty = -1
  /\ fst (Naive.runprogram (P := linux) naive_no_pty) = Returns 1
  /\ exit_code
       (fst (Naive.main (P := linux) naive_password_on_command_line
               naive_no_pty)) = Some 1
  /\ count_events is_fork
       (snd (Naive.main (P := linux) naive_password_on_command_line
               naive_no_pty)) = 0%nat.
Proof. repeat split. Qed.

Section ExitCode.
Context {P : Platform}.

Lemma handleoutput_ret a st rd ret st' tr :
  Trunk.handleoutput a st rd = Some (ret, st', tr) -> terminal ret.
Proof.
  unfold terminal, Trunk.handleoutput.
  destruct (numread_of rd <? 0); [discriminate|].
  set (s1 := Trunk.match_ (Trunk.compare1 a) _ _ _).
  set (s2 := Trunk.match_ Trunk.compare2 _ _ _).
  set (s3 := Trunk.match_ Trunk.compare3 _ _ _).
  clearbody s1 s2 s3.
  destruct (Byte.eqb (char_at (Trunk.compare1 a) s1) NUL);
    destruct (Trunk.prevmatch st =? 0);
    cbn [Z.eqb code_of enum_index enumerators rc_eqb Z.add];
    destruct (Byte.eqb (char_at Trunk.compare2 s2) NUL);
    destruct (Byte.eqb (char_at Trunk.compare3 s3) NUL);
    intros [= <- _ _]; auto.
Qed.

Lemma call_of_ret a st rd c :
  call_of a st rd = Some c ->
  Trunk.handleoutput a st rd = Some (c_ret c, c_after c, c_events c)
  /\ terminal (c_ret c).
Proof.
  unfold call_of.
  destruct (Trunk.handleoutput a st rd) as [[[ret st'] tr]|] eqn:E;
    [|discriminate].
  intros [= <-]. split; [reflexivity|]. exact (handleoutput_ret _ _ _ _ _ _ E).
Qed.

Lemma loop_turn_terminal a t st terminate st' terminate' evs :
  terminal terminate ->
  Trunk.loop_turn a t st terminate = Some (st', terminate', evs) ->
  terminal terminate'.
Proof.
  intros Ht. unfold Trunk.loop_turn.
  destruct (terminate =? 0); [|now intros [= _ <- _]].
  destruct (0 <? t_selret t); [|now intros [= _ <- _]].
  destruct (t_isset t); [|now intros [= _ <- _]].
  destruct (Trunk.handleoutput a st (t_read t)) as [[[ret st1] evs1]|] eqn:E;
    [|discriminate].
  apply handleoutput_ret in E.
  destruct (negb (ret =? 0)); now intros [= _ <- _].
Qed.

(** Once [terminate] is set, a turn only waits for the child. *)
Lemma loop_turn_terminating a t st terminate :
  terminate <> 0 ->
  Trunk.loop_turn a t st terminate
  = Some (st, terminate, [Ev_waitpid false]).
Proof.
  intros H. unfold Trunk.loop_turn. apply Z.eqb_neq in H. now rewrite H.
Qed.

(** The loop is only left with a terminal value in [terminate] and a
    status of a child that exited or was killed by a signal. *)
Lemma parent_loop_left a turns :
  forall st status terminate t s tr,
    terminal terminate ->
    Trunk.parent_loop a turns st status terminate
    = (Trunk.Loop_left t s, tr) ->
    terminal t /\ (WIFEXITED s = true \/ WIFSIGNALED s = true).
Proof.
  induction turns as [|u turns IH]; intros st status terminate t s tr Ht H;
    simpl in H; [discriminate|].
  destruct (Trunk.loop_turn a u st terminate) as [[[st' terminate'] evs]|]
    eqn:Eturn; [|discriminate].
  pose proof (loop_turn_terminal a u st terminate _ _ _ Ht Eturn) as Ht'.
  destruct ((t_wait_id u =? 0)
            || negb (WIFEXITED (waitpid_status status u))
               && negb (WIFSIGNALED (waitpid_status status u))) eqn:E.
  - destruct (Trunk.parent_loop a turns st' _ terminate') as [final tr']
      eqn:Eloop.
    injection H as -> _. now apply (IH _ _ _ _ _ _ Ht' Eloop).
  - injection H as <- <- _. split; [assumption|].
    apply orb_false_iff in E as [_ E].
    destruct (WIFEXITED (waitpid_status status u)); [now left|].
    destruct (WIFSIGNALED (waitpid_status status u)); [now right|].
    discriminate.
Qed.

Lemma runprogram_parent a o :
  pty_ready o -> 0 < Trunk.os_fork o ->
  fst (Trunk.runprogram a o)
  = match fst (Trunk.parent_loop a (Trunk.os_turns o) Trunk.statics_init 0 0)
    with
    | Trunk.Loop_left terminate status =>
        Returns (Trunk.runprogram_return terminate status)
    | Trunk.Loop_waiting => Blocked
    | Trunk.Loop_undefined => Undefined
    end.
Proof.
  unfold pty_ready, Trunk.runprogram. intros (H1 & H2 & H3) Hf.
  destruct (Z.eqb_spec (Trunk.os_posix_openpt o) (-1)); [contradiction|].
  destruct (Z.eqb_spec (Trunk.os_grantpt o) 0); [|contradiction].
  destruct (Z.eqb_spec (Trunk.os_unlockpt o) 0); [|contradiction].
  destruct (Z.eqb_spec (Trunk.os_fork o) 0); [lia|].
  destruct (Z.ltb_spec (Trunk.os_fork o) 0); [lia|]. simpl.
  destruct (Trunk.parent_loop a _ _ 0 0) as [[terminate status| |] tr];
    reflexivity.
Qed.

Lemma runprogram_fork_fails a o :
  pty_ready o -> Trunk.os_fork o < 0 ->
  fst (Trunk.runprogram a o) = Returns (code_of RETURN_RUNTIME_ERROR).
Proof.
  unfold pty_ready, Trunk.runprogram. intros (H1 & H2 & H3) Hf.
  destruct (Z.eqb_spec (Trunk.os_posix_openpt o) (-1)); [contradiction|].
  destruct (Z.eqb_spec (Trunk.os_grantpt o) 0); [|contradiction].
  destruct (Z.eqb_spec (Trunk.os_unlockpt o) 0); [|contradiction].
  destruct (Z.eqb_spec (Trunk.os_fork o) 0); [lia|].
  destruct (Z.ltb_spec (Trunk.os_fork o) 0); [reflexivity | lia].
Qed.

(** A turn entered with [terminate] at 0: what [handleoutput] returns is
    what [terminate] holds afterwards, when [select] reports the master;
    nothing changes when it does not. *)
Lemma loop_turn_call a t st c :
  selected t = true ->
  call_of a st (t_read t) = Some c ->
  exists evs, Trunk.loop_turn a t st 0 = Some (c_after c, c_ret c, evs).
Proof.
  unfold selected. intros Hs Hcall. apply andb_true_iff in Hs as [Hsel Hset].
  destruct (call_of_ret a st _ c Hcall) as [E _].
  unfold Trunk.loop_turn. cbn [Z.eqb]. rewrite Hsel, Hset, E.
  destruct (Z.eqb_spec (c_ret c) 0) as [->|Hne]; cbn [negb];
    eexists; reflexivity.
Qed.

Lemma loop_turn_idle a t st :
  selected t = false ->
  Trunk.loop_turn a t st 0 = Some (st, 0, [Ev_select; Ev_waitpid true]).
Proof.
  unfold selected, Trunk.loop_turn. cbn [Z.eqb].
  destruct (0 <? t_selret t); [|reflexivity].
  destruct (t_isset t); [discriminate | reflexivity].
Qed.

Lemma first_outcome_cons c calls :
  first_outcome (c :: calls)
  = if c_ret c =? 0 then first_outcome calls else c_ret c.
Proof. unfold first_outcome. simpl. now destruct (c_ret c =? 0). Qed.

Lemma first_outcome_terminal a batches :
  forall st, terminal (first_outcome (handleoutput_calls a st batches)).
Proof.
  induction batches as [|rd batches IH]; intros st; simpl; [now left|].
  destruct (call_of a st rd) as [c|] eqn:E; [|now left].
  rewrite first_outcome_cons.
  destruct (c_ret c =? 0); [apply IH|].
  exact (proj2 (call_of_ret a st rd c E)).
Qed.

Lemma turns_taken_cons status u turns ts final :
  turns_taken status (u :: turns) = Some (ts, final) ->
  exists rest,
    ts = u :: rest
    /\ ((loop_goes_on status u = true
         /\ turns_taken (waitpid_status status u) turns = Some (rest, final))
        \/ (loop_goes_on status u = false
            /\ rest = [] /\ final = waitpid_status status u)).
Proof.
  simpl. destruct (loop_goes_on status u).
  - destruct (turns_taken (waitpid_status status u) turns) as [[rest s]|];
      [|discriminate].
    intros [= <- <-]. exists rest. split; [reflexivity|]. now left.
  - intros [= <- <-]. exists []. split; [reflexivity|]. now right.
Qed.

(** The value the loop is left with in [terminate] is the first value
    other than 0 that [handleoutput] returned on the reads of the turns
    taken. *)
Lemma parent_loop_outcome a turns :
  forall st status terminate ts final,
    turns_taken status turns = Some (ts, final) ->
    Forall read_succeeds (reads_of ts) ->
    fst (Trunk.parent_loop a turns st status terminate)
    = Trunk.Loop_left
        (if terminate =? 0
         then first_outcome (handleoutput_calls a st (reads_of ts))
         else terminate)
        final.
Proof.
  induction turns as [|u turns IH]; intros st status terminate ts final H Hok;
    [discriminate|].
  apply turns_taken_cons in H as (rest & -> & H).
  cbn [Trunk.parent_loop]. fold (loop_goes_on status u).
  unfold reads_of in *. cbn [filter] in *.
  destruct (Z.eqb_spec terminate 0) as [->|Hne].
  - destruct (selected u) eqn:Es.
    + cbn [map] in *. inversion Hok as [|rd rds Hrd Hrest]; subst.
      destruct (t_read u) as [data|] eqn:Eread; [|now elim Hrd].
      destruct (call_of_defined a st data) as [c Hcall].
      rewrite <- Eread in Hcall.
      destruct (loop_turn_call a u st c Es Hcall) as [evs ->].
      rewrite Eread in Hcall.
      cbn [handleoutput_calls]. rewrite Hcall, first_outcome_cons.
      destruct H as [[-> H] | (-> & -> & ->)].
      * specialize (IH (c_after c) (waitpid_status status u) (c_ret c)
                      rest final H Hrest).
        destruct (Trunk.parent_loop a turns (c_after c) _ (c_ret c))
          as [e tr]. exact IH.
      * cbn. destruct (Z.eqb_spec (c_ret c) 0) as [E0|E0];
          [now rewrite E0 | reflexivity].
    + rewrite (loop_turn_idle a u st Es).
      destruct H as [[-> H] | (-> & -> & ->)].
      * specialize (IH st (waitpid_status status u) 0 rest final H Hok).
        destruct (Trunk.parent_loop a turns st _ 0) as [e tr]. exact IH.
      * reflexivity.
  - rewrite (loop_turn_terminating a u st terminate Hne).
    assert (Hrest : Forall read_succeeds (map t_read (filter selected rest))).
    { destruct (selected u); [now inversion Hok | exact Hok]. }
    destruct H as [[-> H] | (-> & -> & ->)].
    + specialize (IH st (waitpid_status status u) terminate rest final H
                    Hrest).
      apply Z.eqb_neq in Hne. rewrite Hne in IH.
      destruct (Trunk.parent_loop a turns st _ terminate) as [e tr].
      exact IH.
    + reflexivity.
Qed.

End ExitCode.

(** C2: the enumerators are numbered 0 to 7; an error of the option scan
    is the exit code as it stands; once the child is forked, the outcome
    is the first value other than 0 that [handleoutput] returns on the
    reads of the turns the loop takes: such an outcome (5, 6 or 7) is the
    exit code as it stands; with none, the exit code is the exit status of
    a child that exited, and 255 for a child killed by a signal; a failed
    fork gives RETURN_RUNTIME_ERROR. *)
Theorem exit_code_contract {P : Platform} :
  (code_of RETURN_NOERROR = 0 /\ code_of RETURN_INVALID_ARGUMENTS = 1
   /\ code_of RETURN_CONFLICTING_ARGUMENTS = 2
   /\ code_of RETURN_RUNTIME_ERROR = 3 /\ code_of RETURN_PARSE_ERRROR = 4
   /\ code_of RETURN_INCORRECT_PASSWORD = 5
   /\ code_of RETURN_HOST_KEY_UNKNOWN = 6
   /\ code_of RETURN_HOST_KEY_CHANGED = 7)
  /\ (forall c o r a tr,
      Trunk.parse_options c = (Trunk.Parsed r, a, tr) ->
      0 <= Trunk.optind c -> r < 0 ->
      exists e,
        (e = code_of RETURN_NOERROR \/ e = code_of RETURN_INVALID_ARGUMENTS
         \/ e = code_of RETURN_CONFLICTING_ARGUMENTS)
        /\ r = - (e + 1)
        /\ fst (Trunk.main c o) = Returns e)
  /\ (forall c o r a tr ts status,
      Trunk.parse_options c = (Trunk.Parsed r, a, tr) ->
      0 <= r -> 1 <= Trunk.argc c - r ->
      pty_ready o -> 0 < Trunk.os_fork o ->
      turns_taken 0 (Trunk.os_turns o) = Some (ts, status) ->
      Forall read_succeeds (reads_of ts) ->
      let terminate :=
        first_outcome
          (handleoutput_calls (Trunk.strdup_password a) Trunk.statics_init
             (reads_of ts)) in
      terminal terminate
      /\ (0 < terminate -> fst (Trunk.main c o) = Returns terminate)
      /\ (terminate = 0 -> WIFEXITED status = true ->
          fst (Trunk.main c o) = Returns (WEXITSTATUS status))
      /\ (terminate = 0 -> WIFEXITED status = false ->
          WIFSIGNALED status = true
          /\ fst (Trunk.main c o) = Returns 255))
  /\ (forall c o r a tr,
      Trunk.parse_options c = (Trunk.Parsed r, a, tr) ->
      0 <= r -> 1 <= Trunk.argc c - r ->
      pty_ready o -> Trunk.os_fork o < 0 ->
      fst (Trunk.main c o) = Returns (code_of RETURN_RUNTIME_ERROR)).
Proof.
  split; [repeat split|]. split; [|split].
  - intros c o r a tr Hp Hind Hr.
    destruct (parse_options_trace c _ a tr Hp) as [_ Hret].
    destruct (Hret r eq_refl) as (e & He & Hre).
    unfold Trunk.parse_return in Hre.
    destruct (Z.leb_spec 0 e); [|lia].
    exists e. split; [|split].
    + unfold scan_error in He. cbn. lia.
    + exact Hre.
    + unfold Trunk.main. rewrite Hp.
      destruct (Z.ltb_spec r 0); [|lia]. simpl. f_equal. lia.
  - intros c o r a tr ts status Hp Hr Hc Hpty Hfork Hts Hok terminate.
    rewrite (main_runs_program c o r a tr Hp Hr Hc). cbn [fst].
    rewrite (runprogram_parent _ o Hpty Hfork).
    pose proof (parent_loop_outcome (Trunk.strdup_password a)
                  (Trunk.os_turns o) Trunk.statics_init 0 0 ts status
                  Hts Hok) as Hloop.
    cbn [Z.eqb] in Hloop. fold terminate in Hloop.
    destruct (Trunk.parent_loop (Trunk.strdup_password a) (Trunk.os_turns o)
                Trunk.statics_init 0 0) as [e tr'] eqn:Eloop.
    cbn [fst] in *. subst e.
    destruct (parent_loop_left _ _ _ _ _ _ _ _ (or_introl eq_refl) Eloop)
      as [Ht Hs].
    unfold Trunk.runprogram_return.
    split; [exact Ht | split; [|split]].
    + intros Hpos. destruct (Z.ltb_spec 0 terminate); [reflexivity | lia].
    + intros -> Hex. simpl. now rewrite Hex.
    + intros -> Hex. simpl. rewrite Hex.
      destruct Hs as [Hs|Hs]; [congruence | now split].
  - intros c o r a tr Hp Hr Hc Hpty Hfork.
    rewrite (main_runs_program c o r a tr Hp Hr Hc). cbn [fst].
    now apply runprogram_fork_fails.
Qed.

Lemma exit_code_contract_witness :
  fst (Trunk.main (P := linux) password_on_command_line wrong_password_run)
  = Returns 5
  /\ fst (Trunk.main (P := linux) password_on_command_line killed_after_login)
     = Returns 255.
Proof.
  assert (H3 : 0 <= 3) by lia.
  assert (Hc : 1 <= Trunk.argc password_on_command_line - 3)
    by (simpl; lia).
  split.
  - pose proof (proj1 (proj2 (proj2 (exit_code_contract (P := linux))))
                  password_on_command_line wrong_password_run 3 _ _
                  (Trunk.os_turns wrong_password_run) 65280 eq_refl H3 Hc)
      as H.
    assert (Hpty : pty_ready wrong_password_run)
      by (repeat split; discriminate).
    assert (Hf : 0 < Trunk.os_fork wrong_password_run) by (simpl; lia).
    assert (Hok : Forall read_succeeds
                    (reads_of (Trunk.os_turns wrong_password_run)))
      by (repeat apply Forall_cons; try apply Forall_nil; discriminate).
    destruct (H Hpty Hf eq_refl Hok) as (_ & Hpos & _).
    apply Hpos. reflexivity.
  - pose proof (proj1 (proj2 (proj2 (exit_code_contract (P := linux))))
                  password_on_command_line killed_after_login 3 _ _
                  (Trunk.os_turns killed_after_login) 9 eq_refl H3 Hc)
      as H.
    assert (Hpty : pty_ready killed_after_login)
      by (repeat split; discriminate).
    assert (Hf : 0 < Trunk.os_fork killed_after_login) by (simpl; lia).
    assert (Hok : Forall read_succeeds
                    (reads_of (Trunk.os_turns killed_after_login)))
      by (repeat apply Forall_cons; try apply Forall_nil; discriminate).
    destruct (H Hpty Hf eq_refl Hok) as (_ & _ & _ & Hsig).
    exact (proj2 (Hsig eq_refl eq_refl)).
Defined.

(** * Further properties of the code *)

(** ** The state of [match] as the longest matched prefix *)

Lemma ends_with_shorter (t a b : list byte) :
  ends_with t a -> ends_with t b -> (length a <= length b)%nat ->
  ends_with b a.
Proof.
  intros [p1 H1] [p2 H2] Hlen. rewrite H1 in H2.
  destruct (app_eq_app _ _ _ _ H2) as [l [[_ Hb] | [_ Ha]]].
  - now exists l.
  - assert (l = []).
    { apply (f_equal (@length byte)) in Ha. rewrite length_app in Ha.
      destruct l; [reflexivity | simpl in Ha; lia]. }
    subst l. simpl in Ha. subst a. now exists [].
Qed.

Lemma ends_with_snoc (t p : list byte) (c x : byte) :
  ends_with (t ++ [c]) (p ++ [x]) -> c = x /\ ends_with t p.
Proof.
  intros [pre H]. rewrite app_assoc in H.
  apply app_inj_tail in H as [Ht Hc]. split; [assumption | now exists pre].
Qed.

Lemma first_byte_elsewhere (reference : list byte) (k : Z) :
  first_byte_unique reference = true ->
  0 < k < strlen reference ->
  char_at reference k <> char_at reference 0.
Proof.
  destruct reference as [|c rest]; [unfold strlen; simpl; lia|].
  intros Hu Hk E. rewrite char_at_head in E.
  simpl in Hu. apply negb_true_iff in Hu.
  assert (Hex : existsb (Byte.eqb c) rest = true).
  { apply existsb_exists. exists c. split; [|apply byte_eqb_refl].
    rewrite <- E. now apply char_at_tail. }
  congruence.
Qed.

(** A proper prefix of the phrase does not end a longer one. *)
Lemma prefix_overlap (reference : list byte) (m s : Z) :
  first_byte_unique reference = true ->
  0 < m < s -> s <= strlen reference ->
  ~ ends_with (firstn (Z.to_nat s) reference) (firstn (Z.to_nat m) reference).
Proof.
  intros Hu Hm Hs [l H].
  assert (Hl : (length l = Z.to_nat s - Z.to_nat m)%nat).
  { apply (f_equal (@length byte)) in H.
    rewrite length_app, !length_firstn in H. unfold strlen in Hs. lia. }
  apply (f_equal (fun x => nth (length l) x NUL)) in H.
  rewrite nth_firstn, app_nth2, Nat.sub_diag, nth_firstn in H by lia.
  destruct (Nat.ltb_spec (length l) (Z.to_nat s)); [|lia].
  destruct (Nat.ltb_spec 0 (Z.to_nat m)); [|lia].
  apply (first_byte_elsewhere reference (s - m) Hu); [lia|].
  unfold char_at.
  destruct (s - m <? 0) eqn:E1; [lia|]. simpl.
  now replace (Z.to_nat (s - m)) with (length l) by lia.
Qed.

Lemma advance_maximal reference state c t :
  first_byte_unique reference = true ->
  complete reference state = false ->
  ends_with t (firstn (Z.to_nat state) reference) ->
  (forall j, state < j <= strlen reference ->
             ~ ends_with t (firstn (Z.to_nat j) reference)) ->
  forall j,
    advance reference state c < j <= strlen reference ->
    ~ ends_with (t ++ [c]) (firstn (Z.to_nat j) reference).
Proof.
  intros Hu E Ht Hmax j Hj He.
  pose proof (incomplete_below _ _ E) as Hs.
  pose proof (advance_range reference state c E) as Ha.
  replace j with ((j - 1) + 1) in He by lia.
  rewrite firstn_succ_char_at in He by lia.
  apply ends_with_snoc in He as [Hc He].
  unfold advance in Hj.
  destruct (Byte.eqb (char_at reference state) c) eqn:E1.
  - apply (Hmax (j - 1)); [lia | assumption].
  - destruct (Byte.eqb (char_at reference 0) c) eqn:E2.
    + apply Byte.byte_dec_bl in E2.
      apply (first_byte_elsewhere reference (j - 1) Hu); [lia | congruence].
    + destruct (Z.eq_dec j 1) as [->|Hj1].
      { rewrite Hc in E2. simpl in E2. now rewrite byte_eqb_refl in E2. }
      destruct (Z_lt_dec state (j - 1)) as [Hgt|Hle].
      { apply (Hmax (j - 1)); [lia | assumption]. }
      destruct (Z.eq_dec state (j - 1)) as [->|Hne].
      { rewrite Hc in E1. now rewrite byte_eqb_refl in E1. }
      apply (prefix_overlap reference (j - 1) state Hu); [lia | lia |].
      apply (ends_with_shorter t); [assumption | assumption |].
      rewrite !length_firstn. lia.
Qed.

Lemma scan_maximal reference data :
  first_byte_unique reference = true ->
  forall state t,
    0 <= state <= strlen reference ->
    ends_with t (firstn (Z.to_nat state) reference) ->
    (forall j, state < j <= strlen reference ->
               ~ ends_with t (firstn (Z.to_nat j) reference)) ->
    forall j,
      snd (scan reference data state) < j <= strlen reference ->
      ~ ends_with
          (t ++ firstn (Z.to_nat (fst (scan reference data state))) data)
          (firstn (Z.to_nat j) reference).
Proof.
  intros Hu. induction data as [|c data IH]; intros state t Hs Ht Hmax j;
    simpl.
  - rewrite app_nil_r. apply Hmax.
  - destruct (complete reference state) eqn:E; simpl.
    + rewrite app_nil_r. apply Hmax.
    + pose proof (scan_range reference data (advance reference state c)
                    (advance_range _ _ c E)) as [Hn _].
      specialize (IH (advance reference state c) (t ++ [c])
                    (advance_range _ _ c E)
                    (advance_sound reference state c t E Ht)
                    (advance_maximal reference state c t Hu E Ht Hmax) j).
      destruct (scan reference data _) as [n s]. simpl in *.
      replace (Z.to_nat (n + 1)) with (S (Z.to_nat n)) by lia. simpl.
      now rewrite <- app_assoc in IH.
Qed.

(** X1: for a phrase whose first byte is not repeated, the state [match]
    returns from state 0 is the length of the longest prefix of the phrase
    that ends the bytes the loop has stepped over: that prefix ends them,
    and no longer prefix does. *)
Theorem match_state_is_longest_prefix reference data n s :
  first_byte_unique reference = true ->
  Trunk.match_loop reference data (strlen data) 0 0 = (n, s) ->
  s = Trunk.match_ reference data (strlen data) 0
  /\ ends_with (firstn (Z.to_nat n) data) (firstn (Z.to_nat s) reference)
  /\ forall j,
       s < j <= strlen reference ->
       ~ ends_with (firstn (Z.to_nat n) data) (firstn (Z.to_nat j) reference).
Proof.
  intros Hu H. unfold Trunk.match_. rewrite H. rewrite match_loop_whole in H.
  split; [reflexivity|].
  pose proof (scan_sound reference data 0 [] (ex_intro _ [] eq_refl)) as Hs.
  pose proof (scan_maximal reference data Hu 0 []
                ltac:(unfold strlen; lia) (ex_intro _ [] eq_refl)) as Hm.
  rewrite H in Hs, Hm. simpl in Hs, Hm. split; [exact Hs|].
  apply Hm. intros j Hj [pre He].
  symmetry in He. apply app_eq_nil in He as [_ He].
  apply (f_equal (@length byte)) in He. rewrite length_firstn in He.
  unfold strlen in Hj. simpl in He. lia.
Qed.

Lemma match_state_is_longest_prefix_witness :
  ends_with (firstn (Z.to_nat 10) (bytes "xPasPasswo"))
    (firstn (Z.to_nat 6) (bytes "Password: "))
  /\ ~ ends_with (firstn (Z.to_nat 10) (bytes "xPasPasswo"))
         (firstn (Z.to_nat 7) (bytes "Password: ")).
Proof.
  destruct (match_state_is_longest_prefix (bytes "Password: ")
              (bytes "xPasPasswo") 10 6 eq_refl eq_refl) as (_ & H1 & H2).
  split; [exact H1|]. apply H2. unfold strlen. simpl. lia.
Defined.

(** ** handleoutput over a whole run *)

Lemma scan_contains_complete reference data :
  cstring reference -> first_byte_unique reference = true ->
  contains reference data ->
  forall state,
    0 <= state <= strlen reference ->
    complete reference (snd (scan reference data state)) = true.
Proof.
  intros Hc Hu (pre & post & ->) state Hs.
  rewrite scan_app.
  pose proof (scan_range reference pre state Hs) as [_ Hs1].
  destruct (scan reference pre state) as [n1 s1]. simpl in Hs1.
  rewrite (scan_phrase reference post s1 Hc Hu Hs1). simpl.
  apply complete_iff_length; [assumption | unfold strlen; lia | reflexivity].
Qed.

(** The call of [match] in [handleoutput], on the bytes just read. *)
Lemma handleoutput_match reference rd state :
  Trunk.match_ reference (data_of rd ++ [NUL]) (numread_of rd) state
  = snd (scan reference (data_of rd) state).
Proof.
  destruct rd as [data|]; simpl.
  - rewrite match_scan by (unfold strlen; rewrite length_app; simpl; lia).
    rewrite Nat2Z.id, firstn_app, Nat.sub_diag, firstn_all. simpl.
    now rewrite app_nil_r.
  - unfold Trunk.match_. rewrite match_loop_unfold.
    destruct (complete reference state); [reflexivity|].
    destruct (Z_lt_dec 0 (-1)); [lia | reflexivity].
Qed.

Section HandleoutputRun.
Context {P : Platform}.

(** What one call does to the statics, by the three states [match] gives
    on the bytes just read. *)
Lemma call_of_states (a : Trunk.args_t) (st : Trunk.statics)
  (rd : read_result) (c : call) :
  call_of a st rd = Some c ->
  let s1 := snd (scan (Trunk.compare1 a) (data_of rd) (Trunk.state1 st)) in
  let s2 := snd (scan Trunk.compare2 (data_of rd) (Trunk.state2 st)) in
  let s3 := snd (scan Trunk.compare3 (data_of rd) (Trunk.state3 st)) in
  let full := complete (Trunk.compare1 a) s1 in
  let first := full && (Trunk.prevmatch st =? 0) in
  let again := full && negb (Trunk.prevmatch st =? 0) in
  c_full c = full
  /\ Trunk.state1 (c_after c) = (if first then 0 else s1)
  /\ Trunk.prevmatch (c_after c) = (if first then 1 else Trunk.prevmatch st)
  /\ Trunk.state2 (c_after c) = (if again then Trunk.state2 st else s2)
  /\ Trunk.state3 (c_after c)
     = (if again || complete Trunk.compare2 s2 then Trunk.state3 st else s3)
  /\ c_ret c
     = (if again then 5
        else if complete Trunk.compare2 s2 then 6
        else if complete Trunk.compare3 s3 then 7
        else 0)
  /\ count_events is_write_pass (c_events c)
     = (if first then 1%nat else 0%nat).
Proof.
  unfold call_of, full_match, Trunk.handleoutput, complete.
  destruct (numread_of rd <? 0); [discriminate|].
  rewrite !handleoutput_match.
  set (s1 := snd (scan (Trunk.compare1 a) _ _)).
  set (s2 := snd (scan Trunk.compare2 _ _)).
  set (s3 := snd (scan Trunk.compare3 _ _)).
  clearbody s1 s2 s3.
  destruct (Trunk.verbose a =? 0), (Trunk.firsttime st =? 0);
    destruct (Byte.eqb (char_at (Trunk.compare1 a) s1) NUL);
    destruct (Trunk.prevmatch st =? 0);
    cbn [negb andb orb Z.eqb code_of enum_index enumerators rc_eqb Z.add];
    destruct (Byte.eqb (char_at Trunk.compare2 s2) NUL);
    destruct (Byte.eqb (char_at Trunk.compare3 s3) NUL);
    intros [= <-]; cbn; repeat split.
Qed.

Lemma doomed_after_failure a st rd c :
  call_of a st rd = Some c ->
  c_ret c <> 0 -> doomed a (c_after c).
Proof.
  intros Hcall.
  destruct (call_of_states a st rd c Hcall) as (_ & H1 & Hp & H2 & H3 & Hr & _).
  unfold doomed. rewrite H1, Hp, H2, H3, Hr.
  destruct (complete (Trunk.compare1 a) _) eqn:E1;
    destruct (Z.eqb_spec (Trunk.prevmatch st) 0) as [Hz|Hz]; simpl;
    destruct (complete Trunk.compare2 _) eqn:E2; simpl;
    destruct (complete Trunk.compare3 _) eqn:E3; simpl;
    intros H; try contradiction; auto.
Qed.

Lemma doomed_fails a st rd c :
  call_of a st rd = Some c ->
  doomed a st ->
  c_ret c <> 0 /\ doomed a (c_after c).
Proof.
  intros Hcall Hd.
  assert (Hr : c_ret c <> 0);
    [|split; [exact Hr | now apply (doomed_after_failure a st rd)]].
  destruct (call_of_states a st rd c Hcall) as (_ & _ & _ & _ & _ & Hr & _).
  rewrite Hr. clear Hr.
  destruct Hd as [[H1 Hp] | [H2 | H3]].
  - rewrite (scan_complete _ _ _ H1). simpl. rewrite H1.
    apply Z.eqb_neq in Hp. rewrite Hp. simpl. discriminate.
  - rewrite (scan_complete _ (data_of rd) _ H2). simpl. rewrite H2.
    destruct (_ && _); discriminate.
  - rewrite (scan_complete _ (data_of rd) _ H3). simpl. rewrite H3.
    destruct (_ && _); [discriminate|].
    destruct (complete Trunk.compare2 _); discriminate.
Qed.

Lemma doomed_run a batches :
  forall st,
    doomed a st ->
    Forall (fun c => c_ret c <> 0) (handleoutput_calls a st batches).
Proof.
  induction batches as [|rd batches IH]; intros st Hd; simpl;
    [constructor|].
  destruct (call_of a st rd) as [c|] eqn:Ecall; constructor.
  - now apply (doomed_fails a st rd).
  - apply IH. now apply (doomed_fails a st rd).
Qed.

Lemma calls_after_failure a batches :
  forall st pre c post,
    handleoutput_calls a st batches = pre ++ c :: post ->
    c_ret c <> 0 ->
    Forall (fun c' => c_ret c' <> 0) post.
Proof.
  induction batches as [|rd batches IH]; intros st pre c post H Hr;
    simpl in H.
  - destruct pre; discriminate.
  - destruct (call_of a st rd) as [c0|] eqn:Ecall;
      [|destruct pre; discriminate].
    destruct pre as [|c1 pre]; simpl in H; injection H as H0 H.
    + subst c0. rewrite <- H. apply doomed_run.
      now apply (doomed_after_failure a st rd).
    + now apply (IH _ pre c post H).
Qed.

Lemma calls_terminal a batches :
  forall st,
    Forall (fun c => terminal (c_ret c)) (handleoutput_calls a st batches).
Proof.
  induction batches as [|rd batches IH]; intros st; simpl; [constructor|].
  destruct (call_of a st rd) as [c|] eqn:Ecall; constructor; [|apply IH].
  exact (proj2 (call_of_ret a st rd c Ecall)).
Qed.

(** A run without a call has read no byte. *)
Lemma calls_nil_bytes a st batches :
  handleoutput_calls a st batches = [] -> bytes_read batches = [].
Proof.
  destruct batches as [|[data|] rest]; simpl; try reflexivity.
  destruct (call_of_defined a st data) as [c ->]. discriminate.
Qed.

(** While no reply is sent, [state1] is the state of one scan of all the
    bytes read, and it is not complete. *)
Lemma silent_run_state1 a batches :
  forall st,
    Trunk.prevmatch st = 0 ->
    handleoutput_calls a st batches <> [] ->
    count_events is_write_pass (events_of (handleoutput_calls a st batches))
    = 0%nat ->
    complete (Trunk.compare1 a)
      (snd (scan (Trunk.compare1 a) (bytes_read batches) (Trunk.state1 st)))
    = false.
Proof.
  unfold events_of.
  induction batches as [|rd batches IH]; intros st Hp Hne Hcount;
    simpl in Hne, Hcount; [contradiction|].
  destruct (call_of a st rd) as [c|] eqn:Ecall; [|contradiction].
  destruct (call_of_read a st rd c Ecall) as [data ->].
  simpl in Hcount. rewrite count_events_app in Hcount.
  destruct (call_of_states a st _ c Ecall) as (_ & H1 & Hp' & _ & _ & _ & Hw).
  cbn [data_of] in H1, Hp', Hw.
  rewrite Hp, Z.eqb_refl, andb_true_r in H1, Hp', Hw.
  destruct (complete (Trunk.compare1 a)
              (snd (scan (Trunk.compare1 a) data (Trunk.state1 st))))
    eqn:E; [lia|].
  cbn [bytes_read]. rewrite scan_app.
  destruct (scan (Trunk.compare1 a) data (Trunk.state1 st))
    as [n1 s1] eqn:Es. simpl in E, H1.
  destruct (handleoutput_calls a (c_after c) batches) as [|c' l] eqn:Ecalls.
  - rewrite (calls_nil_bytes a _ _ Ecalls). simpl. exact E.
  - rewrite <- Ecalls in Hcount.
    specialize (IH (c_after c) Hp').
    rewrite Ecalls in IH at 1.
    specialize (IH ltac:(discriminate) ltac:(lia)).
    rewrite H1 in IH.
    now destruct (scan (Trunk.compare1 a) _ s1).
Qed.

(** While no call returns 5 or 6, [state2] is the state of one scan of all
    the bytes read, and it is not complete. *)
Lemma quiet_run_state2 a batches :
  forall st,
    handleoutput_calls a st batches <> [] ->
    existsb (fun c => (c_ret c =? 5) || (c_ret c =? 6))
      (handleoutput_calls a st batches) = false ->
    complete Trunk.compare2
      (snd (scan Trunk.compare2 (bytes_read batches) (Trunk.state2 st)))
    = false.
Proof.
  induction batches as [|rd batches IH]; intros st Hne Hq;
    simpl in Hne, Hq; [contradiction|].
  destruct (call_of a st rd) as [c|] eqn:Ecall; [|contradiction].
  destruct (call_of_read a st rd c Ecall) as [data ->].
  simpl in Hq. apply orb_false_iff in Hq as [Hc Hq].
  apply orb_false_iff in Hc as [H5 H6].
  destruct (call_of_states a st _ c Ecall) as (_ & _ & _ & H2 & _ & Hr & _).
  cbn [data_of] in H2, Hr.
  rewrite Hr in H5, H6.
  destruct (_ && negb _); [discriminate|].
  destruct (complete Trunk.compare2
              (snd (scan Trunk.compare2 data (Trunk.state2 st))))
    eqn:E; [discriminate|].
  cbn [bytes_read]. rewrite scan_app.
  destruct (scan Trunk.compare2 data (Trunk.state2 st))
    as [n1 s1] eqn:Es. simpl in E, H2.
  destruct (handleoutput_calls a (c_after c) batches) as [|c' l] eqn:Ecalls.
  - rewrite (calls_nil_bytes a _ _ Ecalls). simpl. exact E.
  - rewrite <- Ecalls in Hq.
    specialize (IH (c_after c)).
    rewrite Ecalls in IH at 1.
    specialize (IH ltac:(discriminate) Hq).
    rewrite H2 in IH.
    now destruct (scan Trunk.compare2 _ s1).
Qed.

End HandleoutputRun.

(** X2: once a call of [handleoutput] has returned a non-zero outcome,
    every later call returns a non-zero outcome too, whatever is read:
    a complete phrase stays complete. *)
Theorem failure_outcome_is_absorbing {P : Platform}
  (a : Trunk.args_t) (st : Trunk.statics) (batches : list read_result)
  (pre : list call) (c : call) (post : list call) :
  handleoutput_calls a st batches = pre ++ c :: post ->
  c_ret c <> 0 ->
  Forall (fun c' => c_ret c' <> 0 /\ terminal (c_ret c')) post.
Proof.
  intros H Hr.
  pose proof (calls_after_failure a batches st pre c post H Hr) as Hpost.
  pose proof (calls_terminal a batches st) as Hall.
  rewrite H in Hall. apply Forall_app in Hall as [_ Hall].
  inversion Hall as [|? ? _ Hpost']; subst.
  rewrite Forall_forall in *. intros c' Hin. split; auto.
Qed.

Lemma failure_outcome_is_absorbing_witness :
  Forall (fun c' => c_ret c' <> 0 /\ terminal (c_ret c'))
    (skipn 2
       (handleoutput_calls (P := linux) secret_args Trunk.statics_init
          prompt_twice_and_more))
  /\ length
       (handleoutput_calls (P := linux) secret_args Trunk.statics_init
          prompt_twice_and_more) = 3%nat.
Proof.
  destruct (handleoutput_calls (P := linux) secret_args Trunk.statics_init
              prompt_twice_and_more) as [|c1 [|c2 post]] eqn:E;
    try (vm_compute in E; discriminate).
  split.
  - refine (failure_outcome_is_absorbing (P := linux) secret_args
              Trunk.statics_init prompt_twice_and_more [c1] c2 post E _).
    vm_compute in E. injection E as _ <- _. discriminate.
  - vm_compute in E. now injection E as _ _ <-.
Defined.

(** X3: when the first read succeeds and the bytes read up to the first
    failed read, in whatever batches they arrive, contain the prompt
    phrase (a phrase whose first byte is not repeated), the run of
    [handleoutput] calls [write_pass] exactly once. *)
Theorem prompt_in_output_is_answered_once {P : Platform}
  (a : Trunk.args_t) (data : list byte) (rest : list read_result) :
  let batches := ReadOk data :: rest in
  cstring (Trunk.compare1 a) ->
  first_byte_unique (Trunk.compare1 a) = true ->
  contains (Trunk.compare1 a) (bytes_read batches) ->
  count_events is_write_pass
    (events_of (handleoutput_calls a Trunk.statics_init batches)) = 1%nat.
Proof.
  intros batches Hc Hu Hin.
  assert (Hne : handleoutput_calls a Trunk.statics_init batches <> []).
  { unfold batches. simpl.
    destruct (call_of_defined a Trunk.statics_init data) as [c ->].
    discriminate. }
  pose proof (calls_write_pass_count a batches Trunk.statics_init
                (or_introl eq_refl)) as Hle.
  simpl in Hle.
  destruct (count_events is_write_pass _) as [|[|n]] eqn:E;
    [|reflexivity | lia].
  pose proof (silent_run_state1 a batches Trunk.statics_init eq_refl Hne E)
    as Hs.
  rewrite (scan_contains_complete _ _ Hc Hu Hin) in Hs;
    [discriminate | simpl; unfold strlen; lia].
Qed.

Lemma prompt_in_output_is_answered_once_witness :
  count_events is_write_pass
    (events_of
       (handleoutput_calls (P := linux) secret_args Trunk.statics_init
          prompt_then_failure))
  = 1%nat.
Proof.
  apply (prompt_in_output_is_answered_once (P := linux) secret_args).
  - exact cstring_password.
  - reflexivity.
  - exists (bytes "login: "), []. reflexivity.
Defined.

Lemma compare2_cstring : cstring Trunk.compare2.
Proof. repeat constructor; discriminate. Qed.

(** X4: when the bytes read up to the first failed read, in whatever
    batches they arrive, contain "The authenticity of host ", some call of
    [handleoutput] in the run returns RETURN_HOST_KEY_UNKNOWN, unless one
    has returned RETURN_INCORRECT_PASSWORD; the run does not pass the
    notice by. *)
Theorem unknown_host_key_is_detected {P : Platform}
  (a : Trunk.args_t) (batches : list read_result) :
  contains Trunk.compare2 (bytes_read batches) ->
  Exists (fun c => c_ret c = code_of RETURN_INCORRECT_PASSWORD
                   \/ c_ret c = code_of RETURN_HOST_KEY_UNKNOWN)
    (handleoutput_calls a Trunk.statics_init batches).
Proof.
  intros Hin.
  assert (Hne : handleoutput_calls a Trunk.statics_init batches <> []).
  { intros Hnil. apply calls_nil_bytes in Hnil. rewrite Hnil in Hin.
    destruct Hin as (pre & post & H).
    destruct pre; discriminate. }
  destruct (existsb (fun c => (c_ret c =? 5) || (c_ret c =? 6))
              (handleoutput_calls a Trunk.statics_init batches)) eqn:E.
  - apply existsb_exists in E as (c & Hc & Hr).
    apply Exists_exists. exists c. split; [assumption|].
    apply orb_true_iff in Hr as [Hr|Hr]; apply Z.eqb_eq in Hr; auto.
  - pose proof (quiet_run_state2 a batches Trunk.statics_init Hne E) as Hs.
    rewrite (scan_contains_complete _ _ compare2_cstring eq_refl Hin) in Hs;
      [discriminate | simpl; unfold strlen; simpl; lia].
Qed.

Lemma unknown_host_key_is_detected_witness :
  Exists (fun c => c_ret c = code_of RETURN_INCORRECT_PASSWORD
                   \/ c_ret c = code_of RETURN_HOST_KEY_UNKNOWN)
    (handleoutput_calls (P := linux) secret_args Trunk.statics_init
       [ReadOk (bytes "The authenticity of h");
        ReadOk (bytes "ost 'x' can't be established.")]).
Proof.
  apply (unknown_host_key_is_detected (P := linux) secret_args).
  exists [], (bytes "'x' can't be established."). reflexivity.
Defined.

(** X5: a read that returns no byte (the end of input), while none of the
    three phrases is complete, is a defined call that changes no matcher
    state and no flag but [firsttime], sends nothing and returns 0. *)
Theorem idle_read_changes_nothing {P : Platform}
  (a : Trunk.args_t) (st : Trunk.statics) :
  complete (Trunk.compare1 a) (Trunk.state1 st) = false ->
  complete Trunk.compare2 (Trunk.state2 st) = false ->
  complete Trunk.compare3 (Trunk.state3 st) = false ->
  exists c,
    call_of a st (ReadOk []) = Some c
    /\ c_ret c = 0
    /\ count_events is_write_pass (c_events c) = 0%nat
    /\ Trunk.prevmatch (c_after c) = Trunk.prevmatch st
    /\ Trunk.state1 (c_after c) = Trunk.state1 st
    /\ Trunk.state2 (c_after c) = Trunk.state2 st
    /\ Trunk.state3 (c_after c) = Trunk.state3 st.
Proof.
  intros H1 H2 H3.
  destruct (call_of_defined a st []) as [c Hcall].
  exists c. split; [exact Hcall|].
  destruct (call_of_states a st _ c Hcall) as (_ & E1 & Ep & E2 & E3 & Er & Ew).
  simpl in *.
  rewrite H1 in *. rewrite H2 in *. rewrite H3 in *. simpl in *.
  repeat split; assumption.
Qed.

Lemma idle_read_changes_nothing_witness :
  exists c,
    call_of (P := linux) secret_args mid_phrase (ReadOk []) = Some c
    /\ c_ret c = 0
    /\ Trunk.state1 (c_after c) = 4
    /\ Trunk.state2 (c_after c) = 7.
Proof.
  destruct (idle_read_changes_nothing (P := linux) secret_args mid_phrase)
    as (c & Hcall & Hr & _ & _ & H1 & H2 & _); try reflexivity.
  exists c. repeat split; assumption.
Defined.

(** ** The supervising loop and the descriptors *)

Lemma count_events_none (p q : event -> bool) (tr : trace) :
  (forall e, q e = true -> p e = false) ->
  forallb q tr = true ->
  count_events p tr = 0%nat.
Proof.
  intros Hpq. unfold count_events.
  induction tr as [|e tr IH]; simpl; [reflexivity|].
  intros H. apply andb_true_iff in H as [He Htr].
  rewrite (Hpq e He). now apply IH.
Qed.

Lemma count_events_cons (p : event -> bool) (e : event) (tr : trace) :
  count_events p (e :: tr)
  = ((if p e then 1 else 0) + count_events p tr)%nat.
Proof. unfold count_events. simpl. now destruct (p e). Qed.

Section Loop.
Context {P : Platform}.

Lemma handleoutput_events a st rd ret st' tr :
  Trunk.handleoutput a st rd = Some (ret, st', tr) ->
  forallb is_handleoutput_event tr = true.
Proof.
  unfold Trunk.handleoutput.
  destruct (numread_of rd <? 0); [discriminate|].
  set (s1 := Trunk.match_ (Trunk.compare1 a) _ _ _).
  set (s2 := Trunk.match_ Trunk.compare2 _ _ _).
  set (s3 := Trunk.match_ Trunk.compare3 _ _ _).
  clearbody s1 s2 s3.
  destruct (Trunk.verbose a =? 0), (Trunk.firsttime st =? 0);
    destruct (Byte.eqb (char_at (Trunk.compare1 a) s1) NUL);
    destruct (Trunk.prevmatch st =? 0);
    cbn [negb andb Z.eqb code_of enum_index enumerators rc_eqb Z.add];
    destruct (Byte.eqb (char_at Trunk.compare2 s2) NUL);
    destruct (Byte.eqb (char_at Trunk.compare3 s3) NUL);
    intros [= _ _ <-]; reflexivity.
Qed.

Lemma handleoutput_counts (p : event -> bool) a st rd ret st' tr :
  (forall e, is_handleoutput_event e = true -> p e = false) ->
  Trunk.handleoutput a st rd = Some (ret, st', tr) ->
  count_events p tr = 0%nat.
Proof.
  intros Hp H. apply (count_events_none p is_handleoutput_event _ Hp).
  exact (handleoutput_events a st rd ret st' tr H).
Qed.

Ltac not_handleoutput := intros [] H; (discriminate || reflexivity).

(** One turn entered with [terminate] at 0. *)
Lemma loop_turn_closes a t st st' terminate' evs :
  Trunk.loop_turn a t st 0 = Some (st', terminate', evs) ->
  terminal terminate'
  /\ count_events is_fork evs = 0%nat
  /\ count_events is_close_master evs
     = (if terminate' =? 0 then 0%nat else 1%nat)
  /\ count_events is_close_slave evs
     = (2 * count_events is_close_master evs)%nat.
Proof.
  unfold Trunk.loop_turn. cbn [Z.eqb].
  destruct (0 <? t_selret t);
    [|intros [= _ <- <-]; repeat split; now left].
  destruct (t_isset t); [|intros [= _ <- <-]; repeat split; now left].
  destruct (Trunk.handleoutput a st (t_read t)) as [[[ret st1] evs1]|] eqn:E;
    [|discriminate].
  pose proof (handleoutput_ret a st _ _ _ _ E) as Hret.
  pose proof (handleoutput_counts is_fork a st _ _ _ _
                ltac:(not_handleoutput) E) as Hf.
  pose proof (handleoutput_counts is_close_master a st _ _ _ _
                ltac:(not_handleoutput) E) as Hm.
  pose proof (handleoutput_counts is_close_slave a st _ _ _ _
                ltac:(not_handleoutput) E) as Hs.
  destruct Hret as [-> | [-> | [-> | ->]]]; cbn -[count_events];
    intros [= _ <- <-];
    rewrite !count_events_cons, !count_events_app, ?Hf, ?Hm, ?Hs; cbn;
    (split; [unfold terminal; cbn; auto|]); repeat split.
Qed.

Lemma parent_loop_closes a turns :
  forall st status terminate,
    terminal terminate ->
    let r := Trunk.parent_loop a turns st status terminate in
    count_events is_fork (snd r) = 0%nat
    /\ count_events is_close_slave (snd r)
       = (2 * count_events is_close_master (snd r))%nat
    /\ (terminate <> 0 ->
        count_events is_close_master (snd r) = 0%nat
        /\ forallb is_blocking_wait (snd r) = true
        /\ count_events is_write_pass (snd r) = 0%nat
        /\ forall t s, fst r = Trunk.Loop_left t s -> t = terminate)
    /\ (terminate = 0 ->
        (count_events is_close_master (snd r) <= 1)%nat
        /\ forall t s,
             fst r = Trunk.Loop_left t s ->
             count_events is_close_master (snd r)
             = (if t =? 0 then 0%nat else 1%nat)).
Proof.
  induction turns as [|u turns IH]; intros st status terminate Ht; simpl.
  - repeat split; intros; try discriminate; unfold count_events; simpl; lia.
  - destruct (Z.eq_dec terminate 0) as [->|Hne].
    + destruct (Trunk.loop_turn a u st 0) as [[[st' terminate'] evs]|]
        eqn:Eturn;
        [|repeat split; intros; try discriminate; try contradiction;
          unfold count_events; simpl; lia].
      destruct (loop_turn_closes a u st _ _ _ Eturn) as (Ht' & Hf & Hm & Hs).
      destruct (_ || _).
      * destruct (IH st' (waitpid_status status u) terminate' Ht')
          as (Hf' & Hs' & Hset & Hzero).
        destruct (Trunk.parent_loop a turns st' _ terminate')
          as [final tr]. simpl in *.
        rewrite !count_events_app, Hf, Hf', Hs, Hs', Hm.
        split; [reflexivity | split; [lia|]].
        split; [intros; contradiction|]. intros _.
        destruct (Z.eqb_spec terminate' 0) as [Hz|Hnz].
        -- destruct (Hzero Hz) as [Hle Hfin].
           split; [lia|]. intros t s E. now rewrite (Hfin t s E).
        -- destruct (Hset Hnz) as (Hm0 & _ & _ & Hfin).
           split; [lia|]. intros t s E. rewrite (Hfin t s E), Hm0.
           destruct (Z.eqb_spec terminate' 0); [contradiction | reflexivity].
      * simpl. rewrite Hf, Hs, Hm.
        split; [reflexivity | split; [reflexivity|]].
        split; [intros; contradiction|]. intros _.
        split; [destruct (terminate' =? 0); lia|].
        now intros t s [= <- <-].
    + rewrite (loop_turn_terminating a u st terminate Hne).
      destruct (_ || _).
      * destruct (IH st (waitpid_status status u) terminate Ht)
          as (Hf' & Hs' & Hset & _).
        destruct (Hset Hne) as (Hm0 & Hcalls & Hw & Hfin).
        destruct (Trunk.parent_loop a turns st _ terminate) as [final tr].
        simpl in *.
        split; [exact Hf' | split; [exact Hs'|]].
        split; [|intros; contradiction]. intros _.
        repeat split; assumption.
      * simpl. repeat split; try reflexivity; try (intros; contradiction).
        now intros t s [= <- <-].
Qed.

End Loop.

(** X6: once [terminate] holds an outcome, the loop makes no call but the
    blocking [waitpid]: the terminal is not read again, nothing is written
    or closed, and [terminate] is what the loop is left with. *)
Theorem loop_only_waits_after_outcome {P : Platform}
  (a : Trunk.args_t) (turns : list turn) (st : Trunk.statics)
  (status terminate : Z) :
  terminal terminate -> terminate <> 0 ->
  let r := Trunk.parent_loop a turns st status terminate in
  forallb is_blocking_wait (snd r) = true
  /\ count_events is_write_pass (snd r) = 0%nat
  /\ count_events is_close_master (snd r) = 0%nat
  /\ forall t s, fst r = Trunk.Loop_left t s -> t = terminate.
Proof.
  intros Ht Hne r.
  destruct (parent_loop_closes a turns st status terminate Ht)
    as (_ & _ & Hset & _).
  destruct (Hset Hne) as (Hm & Hw & Hwp & Hfin).
  repeat split; assumption.
Qed.

Lemma loop_only_waits_after_outcome_witness :
  forallb is_blocking_wait
    (snd (Trunk.parent_loop (P := linux) secret_args
            (Trunk.os_turns killed_after_login) Trunk.statics_init 0 5))
  = true.
Proof.
  refine (proj1 (loop_only_waits_after_outcome (P := linux) secret_args
                   (Trunk.os_turns killed_after_login) Trunk.statics_init
                   0 5 _ _)).
  - right. left. reflexivity.
  - lia.
Defined.

(** X7: in every run of the loop the master descriptor is closed at most
    once, and exactly when the loop is left with an outcome in [terminate];
    each time the master is closed, [close] is called twice on the slave
    descriptor. *)
Theorem outcome_closes_master_once_slave_twice {P : Platform}
  (a : Trunk.args_t) (turns : list turn) (status : Z) :
  let r := Trunk.parent_loop a turns Trunk.statics_init status 0 in
  (count_events is_close_master (snd r) <= 1)%nat
  /\ count_events is_close_slave (snd r)
     = (2 * count_events is_close_master (snd r))%nat
  /\ forall t s,
       fst r = Trunk.Loop_left t s ->
       count_events is_close_master (snd r)
       = (if t =? 0 then 0%nat else 1%nat).
Proof.
  intros r.
  destruct (parent_loop_closes a turns Trunk.statics_init status 0
              (or_introl eq_refl)) as (_ & Hs & _ & Hzero).
  destruct (Hzero eq_refl) as [Hle Hfin].
  repeat split; assumption.
Qed.

Section Process.
Context {P : Platform}.

Lemma parse_switch_events c opt optarg a error tr :
  forall a' e' tr',
    forallb is_scan_event tr = true ->
    Trunk.parse_switch c opt optarg a error tr = Some (a', e', tr') ->
    forallb is_scan_event tr' = true.
Proof.
  unfold Trunk.parse_switch, Trunk.VIRGIN_PWTYPE.
  destruct (Trunk.pwtype_eqb (Trunk.pwtype a) Trunk.PWT_STDIN);
    destruct (Trunk.getenv_SSHPASS c);
    by_option opt; intros a' e' tr' H0 [= <- <- <-];
    rewrite ?forallb_app, ?H0; reflexivity.
Qed.

Lemma parse_loop_events c opts :
  forall a error tr r a' tr',
    forallb is_scan_event tr = true ->
    Trunk.parse_loop c opts a error tr = (r, a', tr') ->
    forallb is_scan_event tr' = true.
Proof.
  induction opts as [|[opt optarg] opts IH]; intros a error tr r a' tr' H0 H;
    simpl in H.
  - now injection H as _ _ <-.
  - destruct (negb (error =? -1)); [now injection H as _ _ <-|].
    destruct (Trunk.parse_switch c opt optarg a error tr)
      as [[[a1 e1] tr1]|] eqn:Esw.
    + apply (IH _ _ _ _ _ _ (parse_switch_events _ _ _ _ _ _ _ _ _ H0 Esw) H).
    + injection H as _ _ <-. now rewrite forallb_app, H0.
Qed.

(** The option scan logs nothing but messages. *)
Lemma parse_options_counts (p : event -> bool) c r a tr :
  (forall e, is_scan_event e = true -> p e = false) ->
  Trunk.parse_options c = (r, a, tr) ->
  count_events p tr = 0%nat.
Proof.
  intros Hp H. apply (count_events_none p is_scan_event _ Hp).
  unfold Trunk.parse_options in H.
  exact (parse_loop_events c _ _ _ [] _ _ _ eq_refl H).
Qed.

Lemma runprogram_forks a o :
  (count_events is_fork (snd (Trunk.runprogram a o)) <= 1)%nat
  /\ (count_events is_fork (snd (Trunk.runprogram a o)) = 1%nat ->
      pty_ready o).
Proof.
  unfold Trunk.runprogram, pty_ready.
  destruct (Z.eqb_spec (Trunk.os_posix_openpt o) (-1)) as [|H1];
    [split; [cbn; lia | discriminate]|].
  destruct (Z.eqb_spec (Trunk.os_grantpt o) 0) as [H2|];
    [|split; [cbn; lia | discriminate]].
  destruct (Z.eqb_spec (Trunk.os_unlockpt o) 0) as [H3|];
    [|split; [cbn; lia | discriminate]].
  cbn [negb].
  destruct (negb (Trunk.os_open_tty o =? -1)
            && (Trunk.os_ioctl_gwinsz o =? 0));
    (destruct (Trunk.os_fork o =? 0);
     [destruct (match Trunk.os_tiocsctty o with
                | Some r => r =? -1
                | None => false
                end);
      [|destruct (Trunk.os_execvp_fails o)]
     |destruct (Trunk.os_fork o <? 0);
      [|destruct (parent_loop_closes a (Trunk.os_turns o)
                    Trunk.statics_init 0 0 (or_introl eq_refl))
          as (Hf & _);
        destruct (Trunk.parent_loop a (Trunk.os_turns o)
                    Trunk.statics_init 0 0) as [[t s| |] tr];
        cbn [snd] in *; rewrite count_events_app, Hf]]);
    cbn; (split; [lia | intros _; auto]).
Qed.

(** In the child no call of the loop is made. *)
Lemma runprogram_child a o :
  pty_ready o -> Trunk.os_fork o = 0 ->
  fst (Trunk.runprogram a o)
  = (if match Trunk.os_tiocsctty o with
        | Some r => r =? -1
        | None => false
        end
     then Exits (code_of RETURN_RUNTIME_ERROR)
     else if Trunk.os_execvp_fails o
          then Exits (code_of RETURN_RUNTIME_ERROR)
          else Execs)
  /\ count_events is_loop_call (snd (Trunk.runprogram a o)) = 0%nat.
Proof.
  unfold pty_ready, Trunk.runprogram. intros (H1 & H2 & H3) Hf.
  destruct (Z.eqb_spec (Trunk.os_posix_openpt o) (-1)); [contradiction|].
  destruct (Z.eqb_spec (Trunk.os_grantpt o) 0); [|contradiction].
  destruct (Z.eqb_spec (Trunk.os_unlockpt o) 0); [|contradiction].
  rewrite Hf. cbn [Z.eqb negb].
  destruct (match Trunk.os_tiocsctty o with
            | Some r => r =? -1
            | None => false
            end);
    [|destruct (Trunk.os_execvp_fails o)];
    (split; [reflexivity|]);
    destruct (negb _ && _); reflexivity.
Qed.

End Process.

(** X8: in the child the program either replaces itself by the command or
    ends with exit code 3 (when the controlling terminal cannot be set or
    the command cannot be run); it never returns into the supervising
    loop and never ends with another code. *)
Theorem child_execs_or_exits_3 {P : Platform}
  (c : Trunk.cmdline) (o : Trunk.os) (r : Z) (a : Trunk.args_t) (tr : trace) :
  Trunk.parse_options c = (Trunk.Parsed r, a, tr) ->
  0 <= r -> 1 <= Trunk.argc c - r ->
  pty_ready o -> Trunk.os_fork o = 0 ->
  (fst (Trunk.main c o) = Execs \/ fst (Trunk.main c o) = Exits 3)
  /\ (fst (Trunk.main c o) = Execs <->
      Trunk.os_tiocsctty o <> Some (-1) /\ Trunk.os_execvp_fails o = false)
  /\ count_events is_loop_call (snd (Trunk.main c o)) = 0%nat.
Proof.
  intros Hp Hr Hc Hpty Hf.
  rewrite (main_runs_program c o r a tr Hp Hr Hc). cbn [fst snd].
  destruct (runprogram_child (Trunk.strdup_password a) o Hpty Hf)
    as [-> Hloop].
  assert (Htr : count_events is_loop_call tr = 0%nat).
  { apply (parse_options_counts is_loop_call c (Trunk.Parsed r) a tr);
      [|exact Hp].
    intros [] H; (discriminate || reflexivity). }
  rewrite count_events_app, Htr, Hloop.
  destruct (Trunk.os_tiocsctty o) as [v|];
    [destruct (Z.eqb_spec v (-1)) as [->|Hv]|];
    destruct (Trunk.os_execvp_fails o); cbn;
    (split; [auto|]); (split; [|reflexivity]); split;
    try discriminate; try (intros [H1 H2]; congruence); auto;
    intros _; split; congruence.
Qed.

Lemma child_execs_or_exits_3_witness :
  fst (Trunk.main (P := linux) password_on_command_line exec_fails) = Execs
  \/ fst (Trunk.main (P := linux) password_on_command_line exec_fails)
     = Exits 3.
Proof.
  refine (proj1 (child_execs_or_exits_3 (P := linux) password_on_command_line
                   exec_fails 3 _ _ eq_refl _ _ _ eq_refl)).
  - lia.
  - simpl; lia.
  - repeat split; discriminate.
Defined.

(** X9: [main] forks at most once, and only when the options were
    scanned without error, a command is given and the pseudo-terminal is
    set up. *)
Theorem main_forks_at_most_once {P : Platform}
  (c : Trunk.cmdline) (o : Trunk.os) :
  (count_events is_fork (snd (Trunk.main c o)) <= 1)%nat
  /\ (count_events is_fork (snd (Trunk.main c o)) = 1%nat ->
      pty_ready o
      /\ exists r a tr,
           Trunk.parse_options c = (Trunk.Parsed r, a, tr)
           /\ 0 <= r /\ 1 <= Trunk.argc c - r).
Proof.
  unfold Trunk.main.
  destruct (Trunk.parse_options c) as [[res a] tr] eqn:Hp.
  destruct (parse_options_trace c res a tr Hp) as [Hf _].
  destruct res as [r|code]; cbn [snd].
  - destruct (Z.ltb_spec r 0).
    + cbn [snd]. rewrite count_events_app, Hf. cbn. split; [lia | discriminate].
    + destruct (Z.ltb_spec (Trunk.argc c - r) 1).
      * cbn [snd]. rewrite count_events_app, Hf. cbn.
        split; [lia | discriminate].
      * destruct (runprogram_forks (Trunk.strdup_password a) o) as [Hle Hone].
        destruct (Trunk.runprogram (Trunk.strdup_password a) o) as [out tr'].
        cbn [snd] in *. rewrite count_events_app, Hf. simpl.
        split; [exact Hle|]. intros H1. split; [now apply Hone|].
        exists r, a, tr. repeat split; (reflexivity || lia).
  - rewrite Hf. split; [lia | discriminate].
Qed.

(** ** The option scan, option by option *)

Section OptionByOption.
Context {P : Platform}.

(** An option that lets the scan go on with [error] unset. *)
Lemma parse_switch_goes_on c opt optarg a tr a' tr' :
  Trunk.parse_switch c opt optarg a (-1) tr = Some (a', -1, tr') ->
  Trunk.pwprompt a'
  = (if Ascii.eqb opt "P" then Some optarg else Trunk.pwprompt a)
  /\ Trunk.verbose a'
     = Trunk.verbose a + (if Ascii.eqb opt "v" then 1 else 0)
  /\ (scanned_agrees a = true -> scanned_agrees a' = true).
Proof.
  unfold Trunk.parse_switch, Trunk.VIRGIN_PWTYPE, scanned_agrees.
  destruct a as [pt ps pp v op]. cbn.
  destruct pt, ps, op, (Trunk.getenv_SSHPASS c);
    by_option opt; intros [= <- <-]; cbn;
    repeat split; try discriminate; try reflexivity; auto; lia.
Qed.

Lemma parse_switch_error_range c opt optarg a error tr a' e' tr' :
  scan_error error ->
  Trunk.parse_switch c opt optarg a error tr = Some (a', e', tr') ->
  scan_error e'.
Proof.
  intros He H.
  destruct (parse_switch_trace _ _ _ _ _ _ _ _ _ H) as [_ Hrange].
  unfold scan_error in *. intuition lia.
Qed.

(** A scan that returns an index has gone through all the options with
    [error] unset. *)
Lemma parse_loop_goes_through c opts :
  forall a error tr r a' tr',
    scan_error error ->
    Trunk.parse_loop c opts a error tr = (Trunk.Parsed r, a', tr') ->
    0 <= r ->
    Trunk.pwprompt a' = last_prompt opts (Trunk.pwprompt a)
    /\ Trunk.verbose a' = Trunk.verbose a + count_verbose opts
    /\ (scanned_agrees a = true -> scanned_agrees a' = true).
Proof.
  unfold count_verbose.
  induction opts as [|[opt optarg] opts IH]; intros a error tr r a' tr' He H Hr;
    simpl in H.
  - injection H as _ <- _. simpl. repeat split; auto; lia.
  - destruct (Z.eqb_spec error (-1)) as [->|Hne]; simpl in H.
    + destruct (Trunk.parse_switch c opt optarg a (-1) tr)
        as [[[a1 e1] tr1]|] eqn:Esw; [|discriminate].
      pose proof (parse_switch_error_range _ _ _ _ _ _ _ _ _ He Esw) as He1.
      destruct (Z.eq_dec e1 (-1)) as [->|Hne1].
      * destruct (parse_switch_goes_on _ _ _ _ _ _ _ Esw) as (Hp & Hv & Hw).
        destruct (IH _ _ _ _ _ _ He1 H Hr) as (Hp' & Hv' & Hw').
        simpl. rewrite Hp', Hv', Hp, Hv.
        split; [reflexivity|]. split; [|auto].
        destruct (Ascii.eqb opt "v"); simpl length; lia.
      * rewrite parse_loop_error in H by assumption.
        injection H as <- _ _. unfold Trunk.parse_return in Hr.
        unfold scan_error in He1.
        destruct (Z.leb_spec 0 e1); lia.
    + injection H as <- _ _. unfold Trunk.parse_return in Hr.
      unfold scan_error in He. destruct (Z.leb_spec 0 error); lia.
Qed.

Lemma strdup_password_agrees a :
  scanned_agrees a = true -> pwsrc_agrees (Trunk.strdup_password a) = true.
Proof.
  unfold scanned_agrees, pwsrc_agrees, Trunk.strdup_password.
  destruct a as [pt ps pp v op]. cbn.
  destruct pt, ps, op; cbn; intros H; (discriminate || reflexivity).
Qed.

End OptionByOption.

(** X10: after a scan without error, the union member that [write_pass]
    will read for the password type is the one that was written: a
    descriptor for PWT_STDIN and PWT_FD, a file name for PWT_FILE, the
    copied password for PWT_PASS. *)
Theorem scanned_args_agree {P : Platform}
  (c : Trunk.cmdline) (r : Z) (a : Trunk.args_t) (tr : trace) :
  Trunk.parse_options c = (Trunk.Parsed r, a, tr) ->
  0 <= r ->
  pwsrc_agrees (Trunk.strdup_password a) = true.
Proof.
  intros Hp Hr. apply strdup_password_agrees.
  unfold Trunk.parse_options in Hp.
  now apply (parse_loop_goes_through c _ _ _ _ _ _ _ (or_introl eq_refl) Hp Hr).
Qed.

Lemma scanned_args_agree_witness :
  pwsrc_agrees
    (Trunk.strdup_password
       (snd (fst (Trunk.parse_options (P := linux) password_on_command_line))))
  = true.
Proof.
  refine (scanned_args_agree (P := linux) password_on_command_line 3 _ _
            eq_refl _).
  lia.
Defined.

(** X11: after a scan without error, the prompt [handleoutput] looks for
    is the argument of the last -P option, or PASSWORD_PROMPT when there
    is none, and [verbose] is the number of -v options. *)
Theorem last_prompt_option_wins {P : Platform}
  (c : Trunk.cmdline) (r : Z) (a : Trunk.args_t) (tr : trace) :
  Trunk.parse_options c = (Trunk.Parsed r, a, tr) ->
  0 <= r ->
  Trunk.compare1 (Trunk.strdup_password a)
  = match last_prompt (Trunk.getopt_seq c) None with
    | Some prompt => bytes prompt
    | None => PASSWORD_PROMPT
    end
  /\ Trunk.verbose (Trunk.strdup_password a)
     = count_verbose (Trunk.getopt_seq c).
Proof.
  intros Hp Hr. unfold Trunk.parse_options in Hp.
  destruct (parse_loop_goes_through c _ _ _ _ _ _ _ (or_introl eq_refl) Hp Hr)
    as (Hprompt & Hv & _).
  simpl in Hprompt, Hv.
  unfold Trunk.compare1, Trunk.strdup_password.
  destruct (Trunk.orig_password a); simpl; rewrite Hprompt, Hv; auto.
Qed.

Lemma last_prompt_option_wins_witness :
  Trunk.compare1 (P := linux)
    (Trunk.strdup_password
       (snd (fst (Trunk.parse_options (P := linux) two_prompts))))
  = bytes "Password"
  /\ Trunk.verbose
       (Trunk.strdup_password
          (snd (fst (Trunk.parse_options (P := linux) two_prompts))))
     = 2.
Proof.
  refine (last_prompt_option_wins (P := linux) two_prompts 7 _ _ eq_refl _).
  lia.
Defined.

Section StoppingOption.
Context {P : Platform}.

Lemma pwtype_eqb_false (t : Trunk.pwtype_t) :
  t <> Trunk.PWT_STDIN -> Trunk.pwtype_eqb t Trunk.PWT_STDIN = false.
Proof. destruct t; [contradiction | reflexivity..]. Qed.

(** Options that pass, with no second password source among them, leave
    [error] unset. *)
Lemma parse_loop_prefix c pre :
  forall a tr,
    passes c pre = true ->
    (if Trunk.pwtype_eqb (Trunk.pwtype a) Trunk.PWT_STDIN
     then (count_sources pre <= 1)%nat
     else count_sources pre = 0%nat) ->
    exists a' tr',
      forall rest,
        Trunk.parse_loop c (pre ++ rest) a (-1) tr
        = Trunk.parse_loop c rest a' (-1) tr'.
Proof.
  unfold count_sources.
  induction pre as [|[opt optarg] pre IH]; intros a tr Hpass Hsrc.
  - now exists a, tr.
  - simpl in Hpass. apply andb_true_iff in Hpass as [Hy Hpass].
    apply negb_true_iff in Hy. simpl in Hsrc.
    destruct (is_pwsource opt) eqn:Eopt; simpl in Hsrc.
    + destruct (Trunk.pwtype_eqb (Trunk.pwtype a) Trunk.PWT_STDIN) eqn:Ea;
        [|discriminate].
      destruct (parse_switch_source c opt optarg a (-1) tr Eopt Hy)
        as (a1 & Hsw & Ha1).
      rewrite VIRGIN_PWTYPE_virgin in Hsw
        by (now destruct (Trunk.pwtype a)).
      destruct (IH a1 tr Hpass) as (a' & tr' & Hrest).
      { rewrite (pwtype_eqb_false _ Ha1). lia. }
      exists a', tr'. intros rest. simpl. now rewrite Hsw.
    + destruct (parse_switch_other c opt optarg a (-1) tr Eopt Hy)
        as (a1 & Hsw & Ha1).
      destruct (IH a1 tr Hpass) as (a' & tr' & Hrest).
      { now rewrite Ha1. }
      exists a', tr'. intros rest. simpl. now rewrite Hsw.
Qed.

Lemma parse_switch_stop c opt optarg a tr :
  stops_scan c opt = true ->
  match Trunk.parse_switch c opt optarg a (-1) tr with
  | None => Ascii.eqb opt "V" = true
  | Some (_, e, _) =>
      Ascii.eqb opt "V" = false
      /\ e = (if Ascii.eqb opt "h" then 0 else 1)
  end.
Proof.
  unfold stops_scan, Trunk.parse_switch, Trunk.VIRGIN_PWTYPE.
  destruct (Trunk.pwtype_eqb (Trunk.pwtype a) Trunk.PWT_STDIN);
    destruct (Trunk.getenv_SSHPASS c);
    by_option opt; intros H; try discriminate; auto.
Qed.

End StoppingOption.

(** X12: the first option at which the scan stops decides how the program
    ends, whatever follows it: -V leaves with exit(0), -h ends with exit
    code 0, an unknown option, a missing argument or -e without SSHPASS
    ends with exit code 1; no pseudo-terminal is opened and nothing is
    forked. *)
Theorem first_stopping_option_decides {P : Platform}
  (c : Trunk.cmdline) (o : Trunk.os)
  (pre : list (ascii * string)) (opt : ascii) (optarg : string)
  (post : list (ascii * string)) :
  Trunk.getopt_seq c = pre ++ (opt, optarg) :: post ->
  passes c pre = true ->
  (count_sources pre <= 1)%nat ->
  stops_scan c opt = true ->
  fst (Trunk.main c o)
  = (if Ascii.eqb opt "V" then Exits 0
     else Returns (if Ascii.eqb opt "h" then 0 else 1))
  /\ count_events is_fork (snd (Trunk.main c o)) = 0%nat
  /\ count_events (fun e => match e with Ev_openpt => true | _ => false end)
       (snd (Trunk.main c o)) = 0%nat.
Proof.
  intros Hseq Hpass Hsrc Hstop.
  destruct (Trunk.parse_options c) as [[res a] tr] eqn:Hp.
  pose proof (parse_options_counts is_fork c res a tr
                ltac:(intros [] H; (discriminate || reflexivity)) Hp) as Hf.
  pose proof (parse_options_counts
                (fun e => match e with Ev_openpt => true | _ => false end)
                c res a tr
                ltac:(intros [] H; (discriminate || reflexivity)) Hp) as Ho.
  assert (Hres : res = if Ascii.eqb opt "V" then Trunk.Exited 0
                       else Trunk.Parsed
                              (- ((if Ascii.eqb opt "h" then 0 else 1) + 1))).
  { revert Hp. unfold Trunk.parse_options. rewrite Hseq.
    match goal with
    | |- context [Trunk.parse_loop c _ ?a0 (-1) []] =>
        destruct (parse_loop_prefix c pre a0 [] Hpass Hsrc)
          as (a' & tr' & Hrest)
    end.
    rewrite Hrest. cbn [Trunk.parse_loop Z.eqb negb].
    pose proof (parse_switch_stop c opt optarg a' tr' Hstop) as Hsw.
    destruct (Trunk.parse_switch c opt optarg a' (-1) tr')
      as [[[a1 e1] tr1]|].
    - destruct Hsw as [-> ->].
      rewrite parse_loop_error by (destruct (Ascii.eqb opt "h"); lia).
      intros [= <- _ _]. unfold Trunk.parse_return.
      now destruct (Ascii.eqb opt "h").
    - rewrite Hsw. now intros [= <- _ _]. }
  unfold Trunk.main. rewrite Hp, Hres.
  destruct (Ascii.eqb opt "V"); [now repeat split|].
  destruct (Ascii.eqb opt "h"); cbn -[count_events];
    rewrite !count_events_app, Hf, Ho; repeat split.
Qed.

Lemma first_stopping_option_decides_witness :
  fst (Trunk.main (P := linux) unknown_option_first killed_after_login)
  = Returns 1.
Proof.
  exact (proj1 (first_stopping_option_decides (P := linux)
                  unknown_option_first killed_after_login
                  [("v"%char, ""%string)] "?"%char ""%string
                  [("p"%char, "secret"%string); ("f"%char, "file"%string)]
                  eq_refl eq_refl (le_S _ _ (le_n 0)) eq_refl)).
Defined.

(** ** write_pass and the source of write_pass_fd *)

Lemma reliable_write_writes (d : fdio) (data : list byte) :
  writes_of (calls (Trunk.reliable_write d data))
  = writes_of (calls d) ++ [data].
Proof.
  destruct (reliable_write_cases d data) as [-> | [text ->]]; simpl;
    rewrite ?writes_of_app, sys_write_calls, writes_of_app; simpl;
    now rewrite ?app_nil_r.
Qed.

Lemma reliable_write_complete (d : fdio) (data : list byte) :
  wr_results d = [] ->
  received (Trunk.reliable_write d data) = received d ++ data
  /\ wr_results (Trunk.reliable_write d data) = [].
Proof.
  intros H. unfold Trunk.reliable_write, sys_write. rewrite H.
  now rewrite Z.eqb_refl.
Qed.

Lemma trunk_write_pass_fd_general src d :
  exists sent,
    no_newline sent /\ sends d (snd (Trunk.write_pass_fd src d)) sent.
Proof.
  unfold sends. rewrite trunk_write_pass_fd_eq.
  destruct (loop_copies trunk_write1 Trunk.copy_bytes
              Trunk.write_pass_fd_loop trunk_write1_writes
              trunk_write1_reads trunk_write1_received
              trunk_copy_bytes_eq trunk_loop_eq src d)
    as (sent & Hnl & Hw & Hr & Ha).
  exists sent. split; [assumption|].
  destruct (closing_newline trunk_write1 trunk_write1_writes
              trunk_write1_received d _ sent Hw Ha) as [Hw' Ha'].
  rewrite trunk_write1_reads. auto.
Qed.

(** X13: [write_pass] writes nothing at all when the password file cannot
    be opened; in every other case its last write is one newline byte.
    A password given by -p or -e goes out before it in a single write, as
    it is; a password read from a descriptor or a file goes out byte by
    byte, up to its first newline. *)
Theorem write_pass_ends_with_newline
  (a : Trunk.args_t) (w : Trunk.pwio) (d : fdio) :
  pwsrc_agrees a = true ->
  let d' := snd (Trunk.write_pass a w d) in
  if unopenable a w then
    writes_of (calls d') = writes_of (calls d) /\ received d' = received d
  else
    exists body,
      writes_of (calls d') = writes_of (calls d) ++ body ++ [[newline]]
      /\ (forall password,
            Trunk.pwsrc a = Trunk.Pwsrc_password password ->
            body = [bytes password]
            /\ (wr_results d = [] ->
                received d' = received d ++ bytes password ++ [newline]))
      /\ (Trunk.pwtype a <> Trunk.PWT_PASS ->
          exists sent,
            no_newline sent
            /\ body = map (fun b => [b]) sent
            /\ (accepts_all d ->
                received d' = received d ++ sent ++ [newline])).
Proof.
  unfold pwsrc_agrees, unopenable, Trunk.write_pass.
  destruct a as [pt ps pp v op]. cbn.
  assert (Hfd : forall src (w' : Trunk.pwio),
             exists body,
               writes_of (calls (snd (let '(src', d0) :=
                                        Trunk.write_pass_fd src d in
                                      (w', d0))))
               = writes_of (calls d) ++ body ++ [[newline]]
               /\ exists sent,
                    no_newline sent
                    /\ body = map (fun b => [b]) sent
                    /\ (accepts_all d ->
                        received (snd (let '(src', d0) :=
                                         Trunk.write_pass_fd src d in
                                       (w', d0)))
                        = received d ++ sent ++ [newline])).
  { intros src w'.
    destruct (trunk_write_pass_fd_general src d) as (sent & Hnl & Hw & _ & Ha).
    destruct (Trunk.write_pass_fd src d) as [src' d0]. simpl in *.
    exists (map (fun b => [b]) sent). split; [exact Hw|].
    exists sent. auto. }
  destruct pt, ps; intros Hagree; try discriminate.
  - destruct (Hfd (Trunk.fd_reads w 0) w) as (body & Hw & Hsent).
    destruct (Trunk.write_pass_fd (Trunk.fd_reads w 0) d) as [src' d0].
    exists body. split; [exact Hw|]. split; [discriminate | auto].
  - destruct (Trunk.file_reads w filename) as [src|].
    + destruct (Hfd src w) as (body & Hw & Hsent).
      destruct (Trunk.write_pass_fd src d) as [src' d0].
      exists body. split; [exact Hw|]. split; [discriminate | auto].
    + simpl. rewrite writes_of_app. simpl. now rewrite app_nil_r.
  - destruct (Hfd (Trunk.fd_reads w fd) w) as (body & Hw & Hsent).
    destruct (Trunk.write_pass_fd (Trunk.fd_reads w fd) d) as [src' d0].
    exists body. split; [exact Hw|]. split; [discriminate | auto].
  - exists [bytes password]. simpl. rewrite !reliable_write_writes.
    split; [now rewrite <- app_assoc|]. split; [|congruence].
    intros p [= <-]. split; [reflexivity|]. intros Hres.
    destruct (reliable_write_complete d (bytes password) Hres) as [H1 H2].
    destruct (reliable_write_complete _ [newline] H2) as [H3 _].
    now rewrite H3, H1, <- app_assoc.
Qed.

Lemma write_pass_ends_with_newline_witness :
  received (snd (Trunk.write_pass secret_args only_stdin (fdio_init [])))
  = bytes "secret123" ++ [newline].
Proof.
  pose proof (write_pass_ends_with_newline secret_args only_stdin
                (fdio_init []) eq_refl) as H.
  destruct H as (body & _ & Hpass & _).
  destruct (Hpass "secret123"%string eq_refl) as [_ Hrec].
  exact (Hrec eq_refl).
Defined.

Section WritePassFdSource.

Variable write1 : fdio -> byte -> fdio.
Variable copy_bytes : list byte -> bool -> fdio -> bool * fdio.
Variable write_pass_fd_loop :
  list read_result -> fdio -> list read_result * fdio.

Hypothesis copy_bytes_eq : forall buffer done d,
  copy_bytes buffer done d =
  match buffer with
  | [] => (done, d)
  | c :: rest =>
      if done then (done, d)
      else if negb (Byte.eqb c newline)
           then copy_bytes rest done (write1 d c)
           else copy_bytes rest true d
  end.

Hypothesis write_pass_fd_loop_eq : forall src d,
  write_pass_fd_loop src d =
  let d := log (Ev_read 40) d in
  match src with
  | [] => ([], d)
  | r :: rest =>
      let numread := numread_of r in
      let done := numread <? 1 in
      let '(done, d) := copy_bytes (data_of r) done d in
      if done then (rest, d) else write_pass_fd_loop rest d
  end.

Lemma loop_reads_on (pre : list (list byte)) :
  Forall plain_chunk pre ->
  forall rest d,
    exists d',
      write_pass_fd_loop (map ReadOk pre ++ rest) d
      = write_pass_fd_loop rest d'.
Proof.
  induction 1 as [|chunk pre [Hne Hnl] Hall IH]; intros rest d.
  - now exists d.
  - simpl. rewrite write_pass_fd_loop_eq. simpl.
    assert (E : (Z.of_nat (length chunk) <? 1) = false).
    { apply Z.ltb_ge. destruct chunk; [contradiction | simpl length; lia]. }
    rewrite E, (copy_bytes_line write1 copy_bytes copy_bytes_eq chunk Hnl).
    apply IH.
Qed.

Lemma loop_stops_at_newline (p q : list byte) (post : list read_result) d :
  no_newline p ->
  fst (write_pass_fd_loop (ReadOk (p ++ newline :: q) :: post) d) = post.
Proof.
  intros Hp. rewrite write_pass_fd_loop_eq. simpl.
  assert (E : (Z.of_nat (length (p ++ newline :: q)) <? 1) = false).
  { apply Z.ltb_ge. rewrite length_app. simpl length. lia. }
  rewrite E, (copy_bytes_newline write1 copy_bytes copy_bytes_eq p q Hp).
  reflexivity.
Qed.

Lemma loop_stops_at_end d :
  fst (write_pass_fd_loop [] d) = [].
Proof. now rewrite write_pass_fd_loop_eq. Qed.

End WritePassFdSource.

Lemma trunk_write_pass_fd_source src d :
  fst (Trunk.write_pass_fd src d) = fst (Trunk.write_pass_fd_loop src d).
Proof.
  unfold Trunk.write_pass_fd. now destruct (Trunk.write_pass_fd_loop src d).
Qed.

Lemma naive_write_pass_fd_source src d :
  fst (Naive.write_pass_fd src d) = fst (Naive.write_pass_fd_loop src d).
Proof.
  unfold Naive.write_pass_fd. now destruct (Naive.write_pass_fd_loop src d).
Qed.

(** X14: in both releases [write_pass_fd] reads its source up to and
    including the chunk that holds the first newline: the bytes after the
    newline in that chunk are taken from the source and written nowhere,
    the chunks after it are left unread; a source without a newline is
    read to its end. *)
Theorem write_pass_fd_source_after
  (pre : list (list byte)) (p q : list byte) (post : list (list byte))
  (d : fdio) :
  Forall plain_chunk pre ->
  no_newline p ->
  (fst (Trunk.write_pass_fd
          (map ReadOk (pre ++ (p ++ newline :: q) :: post)) d)
   = map ReadOk post
   /\ fst (Naive.write_pass_fd
             (map ReadOk (pre ++ (p ++ newline :: q) :: post)) d)
      = map ReadOk post)
  /\ (fst (Trunk.write_pass_fd (map ReadOk pre) d) = []
      /\ fst (Naive.write_pass_fd (map ReadOk pre) d) = []).
Proof.
  intros Hpre Hp.
  rewrite !trunk_write_pass_fd_source, !naive_write_pass_fd_source.
  rewrite map_app. simpl map.
  rewrite <- (app_nil_r (map ReadOk pre)) at 3 4.
  split; split.
  - destruct (loop_reads_on trunk_write1 Trunk.copy_bytes
                Trunk.write_pass_fd_loop trunk_copy_bytes_eq trunk_loop_eq
                pre Hpre (ReadOk (p ++ newline :: q) :: map ReadOk post) d)
      as [d' ->].
    now apply (loop_stops_at_newline trunk_write1 Trunk.copy_bytes
                 Trunk.write_pass_fd_loop trunk_copy_bytes_eq trunk_loop_eq).
  - destruct (loop_reads_on naive_write1 Naive.copy_bytes
                Naive.write_pass_fd_loop naive_copy_bytes_eq naive_loop_eq
                pre Hpre (ReadOk (p ++ newline :: q) :: map ReadOk post) d)
      as [d' ->].
    now apply (loop_stops_at_newline naive_write1 Naive.copy_bytes
                 Naive.write_pass_fd_loop naive_copy_bytes_eq naive_loop_eq).
  - destruct (loop_reads_on trunk_write1 Trunk.copy_bytes
                Trunk.write_pass_fd_loop trunk_copy_bytes_eq trunk_loop_eq
                pre Hpre [] d) as [d' ->].
    apply (loop_stops_at_end Trunk.copy_bytes Trunk.write_pass_fd_loop
             trunk_loop_eq).
  - destruct (loop_reads_on naive_write1 Naive.copy_bytes
                Naive.write_pass_fd_loop naive_copy_bytes_eq naive_loop_eq
                pre Hpre [] d) as [d' ->].
    apply (loop_stops_at_end Naive.copy_bytes Naive.write_pass_fd_loop
             naive_loop_eq).
Qed.

Lemma write_pass_fd_source_after_witness :
  fst (Trunk.write_pass_fd
         (map ReadOk
            ([bytes "sec"]
               ++ (bytes "ret" ++ newline :: bytes "lost") :: [bytes "next"]))
         (fdio_init []))
  = map ReadOk [bytes "next"].
Proof.
  refine (proj1 (proj1 (write_pass_fd_source_after [bytes "sec"]
                          (bytes "ret") (bytes "lost") [bytes "next"]
                          (fdio_init []) _ _))).
  - repeat constructor; discriminate.
  - repeat constructor; discriminate.
Defined.

(** ** The first release: exit codes, the loop, repeated prompts *)

Section NaiveScan.
Context {P : Platform}.

Lemma naive_pwtype_eqb_false (t : Naive.pwtype_t) :
  t <> Naive.PWT_STDIN -> Naive.pwtype_eqb t Naive.PWT_STDIN = false.
Proof. destruct t; [contradiction | reflexivity..]. Qed.

Lemma naive_switch_source c opt optarg a error tr :
  is_pwsource opt = true ->
  exists a',
    Naive.parse_switch c opt optarg a error tr
    = (a', fst (Naive.VIRGIN_PWTYPE a error tr),
       snd (Naive.VIRGIN_PWTYPE a error tr))
    /\ Naive.pwtype a' <> Naive.PWT_STDIN
    /\ naive_stops opt = false.
Proof.
  unfold is_pwsource, naive_stops, Naive.parse_switch. intros Hs.
  destruct (Naive.VIRGIN_PWTYPE a error tr) as [error' tr'].
  by_option opt; try discriminate;
    eexists; (split; [reflexivity | split; [discriminate | reflexivity]]).
Qed.

Lemma naive_switch_other c opt optarg a error tr :
  is_pwsource opt = false ->
  Naive.parse_switch c opt optarg a error tr
  = (a,
     if naive_stops opt then (if Ascii.eqb opt "h" then -1 else -2)
     else error,
     tr).
Proof.
  unfold is_pwsource, naive_stops, Naive.parse_switch. intros Hs.
  by_option opt; try discriminate; reflexivity.
Qed.

Lemma naive_parse_loop_error c opts a error tr :
  error <> 0 ->
  Naive.parse_loop c opts a error tr = (error, a, tr).
Proof.
  intros H. apply Z.eqb_neq in H.
  destruct opts as [|[opt optarg] rest]; simpl; now rewrite H.
Qed.

Lemma naive_parse_loop_prefix c pre :
  forall a tr,
    forallb (fun x => negb (naive_stops (fst x))) pre = true ->
    (if Naive.pwtype_eqb (Naive.pwtype a) Naive.PWT_STDIN
     then (count_sources pre <= 1)%nat
     else count_sources pre = 0%nat) ->
    exists a' tr',
      (forall rest,
          Naive.parse_loop c (pre ++ rest) a 0 tr
          = Naive.parse_loop c rest a' 0 tr')
      /\ Naive.pwtype_eqb (Naive.pwtype a') Naive.PWT_STDIN
         = Naive.pwtype_eqb (Naive.pwtype a) Naive.PWT_STDIN
           && Nat.eqb (count_sources pre) 0.
Proof.
  unfold count_sources.
  induction pre as [|[opt optarg] pre IH]; intros a tr Hpass Hsrc.
  - exists a, tr. split; [reflexivity | simpl; now rewrite andb_true_r].
  - simpl in Hpass. apply andb_true_iff in Hpass as [Hy Hpass].
    apply negb_true_iff in Hy. simpl in Hsrc |- *.
    destruct (is_pwsource opt) eqn:Eopt; simpl in Hsrc |- *.
    + destruct (Naive.pwtype_eqb (Naive.pwtype a) Naive.PWT_STDIN) eqn:Ea;
        [|discriminate].
      destruct (naive_switch_source c opt optarg a 0 tr Eopt)
        as (a1 & Hsw & Ha1 & _).
      unfold Naive.VIRGIN_PWTYPE in Hsw. rewrite Ea in Hsw. simpl in Hsw.
      destruct (IH a1 tr Hpass) as (a' & tr' & Hrest & Htype).
      { rewrite (naive_pwtype_eqb_false _ Ha1). lia. }
      exists a', tr'. split.
      * intros rest. now rewrite Hsw.
      * now rewrite Htype, (naive_pwtype_eqb_false _ Ha1).
    + pose proof (naive_switch_other c opt optarg a 0 tr Eopt) as Hsw.
      rewrite Hy in Hsw.
      destruct (IH a tr Hpass Hsrc) as (a' & tr' & Hrest & Htype).
      exists a', tr'. split; [|exact Htype].
      intros rest. now rewrite Hsw.
Qed.

End NaiveScan.

(** X15: in the first release the first option at which the scan stops
    decides the exit code: 0 for -h, 2 for an unknown option or a missing
    argument, 3 for a second password source; nothing is forked.  (The
    signal-hardened release ends with 0, 1 and 2 in these cases.) *)
Theorem naive_first_error_decides {P : Platform}
  (c : Naive.cmdline) (o : Naive.os)
  (pre : list (ascii * string)) (opt : ascii) (optarg : string)
  (post : list (ascii * string)) :
  Naive.getopt_seq c = pre ++ (opt, optarg) :: post ->
  forallb (fun x => negb (naive_stops (fst x))) pre = true ->
  (count_sources pre <= 1)%nat ->
  naive_stops opt = true
  \/ (is_pwsource opt = true /\ count_sources pre = 1%nat) ->
  fst (Naive.main c o)
  = Returns (if is_pwsource opt then 3
             else if Ascii.eqb opt "h" then 0 else 2)
  /\ count_events is_fork (snd (Naive.main c o)) = 0%nat.
Proof.
  intros Hseq Hpass Hsrc Hopt.
  destruct (Naive.parse_options c) as [[r a] tr] eqn:Hp.
  pose proof (naive_parse_loop_trace c (Naive.getopt_seq c)
                {| Naive.pwtype := Naive.PWT_STDIN;
                   Naive.pwsrc := Naive.Pwsrc_fd 0 |} 0 []) as Hf.
  fold (Naive.parse_options c) in Hf. rewrite Hp in Hf. simpl in Hf.
  assert (Hr : r = if is_pwsource opt then -3
                   else if Ascii.eqb opt "h" then -1 else -2).
  { revert Hp. unfold Naive.parse_options. rewrite Hseq.
    destruct (naive_parse_loop_prefix c pre
                {| Naive.pwtype := Naive.PWT_STDIN;
                   Naive.pwsrc := Naive.Pwsrc_fd 0 |} [] Hpass Hsrc)
      as (a' & tr' & Hrest & Htype).
    rewrite Hrest. cbn [Naive.parse_loop Z.eqb negb].
    destruct (is_pwsource opt) eqn:Eopt.
    - destruct Hopt as [Hstop | [_ Hone]].
      { destruct (naive_switch_source c opt optarg a' 0 tr' Eopt)
          as (_ & _ & _ & Hno). congruence. }
      destruct (naive_switch_source c opt optarg a' 0 tr' Eopt)
        as (a1 & -> & _).
      unfold Naive.VIRGIN_PWTYPE. rewrite Htype, Hone. simpl.
      rewrite naive_parse_loop_error by lia. now intros [= <- _ _].
    - destruct Hopt as [Hstop | [Hno _]]; [|discriminate].
      rewrite (naive_switch_other c opt optarg a' 0 tr' Eopt), Hstop.
      rewrite naive_parse_loop_error by (destruct (Ascii.eqb opt "h"); lia).
      now intros [= <- _ _]. }
  unfold Naive.main. rewrite Hp, Hr.
  destruct (is_pwsource opt); [|destruct (Ascii.eqb opt "h")];
    cbn -[count_events]; rewrite count_events_app, Hf; repeat split.
Qed.

Lemma naive_first_error_decides_witness :
  fst (Naive.main (P := linux) naive_file_then_password naive_no_pty)
  = Returns 3.
Proof.
  exact (proj1 (naive_first_error_decides (P := linux)
                  naive_file_then_password naive_no_pty
                  [("f"%char, "file"%string)] "p"%char "secret"%string []
                  eq_refl eq_refl (le_n 1) (or_intror (conj eq_refl eq_refl)))).
Defined.

Section NaiveLoop.
Context {P : Platform}.


End NaiveLoop.




